(** * Semantic Flow Language: the AI synchronisation core

    A shallow embedding of the connector helpers, the retry controller, the
    resynchronisation entry point, the package-description lookup and the
    flow merge of the Node-RED Semantic Flow Language plugin, with the
    properties its specification states about them.

    Part I holds the embedding, one module per source unit.  Part II holds
    the theorems.  JavaScript strings are modelled as lists of characters
    ([text]); JavaScript objects used as dictionaries are finite maps keyed by
    strings. *)

From Stdlib Require Import ZArith Uint63 PrimFloat SpecFloat FloatOps.
From Stdlib Require Import Ascii String DecimalString.
From stdpp Require Import gmap strings list fin_maps.

Local Open Scope Z_scope.

(* ===================================================================== *)
(** * Part I.  The embedding                                              *)
(* ===================================================================== *)

(** ** Text *)

Abbreviation text := (list ascii).

Definition txt (s : string) : text := list_ascii_of_string s.

(** [Array.prototype.join]. *)
Fixpoint join (sep : text) (l : list text) : text :=
  match l with
  | [] => []
  | [x] => x
  | x :: rest => x ++ sep ++ join sep rest
  end.

(** [needle] occurs in [hay] (what Jest's [toContain] and [String.includes]
    decide on strings). *)
Definition occurs_in (needle hay : text) : Prop :=
  ∃ pre post, hay = pre ++ needle ++ post.

Fixpoint starts_with (p s : text) : bool :=
  match p, s with
  | [], _ => true
  | a :: p', b :: s' => if decide (a = b) then starts_with p' s' else false
  | _ :: _, [] => false
  end.

Fixpoint includes (needle hay : text) : bool :=
  starts_with needle hay ||
  match hay with
  | [] => false
  | _ :: hay' => includes needle hay'
  end.

(** ** Connector configuration: [validateConfig]
    (openai-connector-node.js, and its azure, google and anthropic
    siblings) *)

Module Validate.

(** The values a configuration field can hold: [getEnv] yields strings,
    settings files may hold numbers, booleans or null. *)
Inductive cval :=
| CStr (s : text)
| CNum (n : Z)
| CBool (b : bool)
| CNull.

(** JavaScript truthiness of [config[field]]; a missing key reads as
    [undefined]. *)
Definition truthy (v : option cval) : bool :=
  match v with
  | None => false
  | Some (CStr s) => negb (bool_decide (s = []))
  | Some (CNum n) => negb (n =? 0)
  | Some (CBool b) => b
  | Some CNull => false
  end.

Inductive connector := OpenAI | AzureOpenAI | Google | Anthropic.

Definition required (c : connector) : list string :=
  match c with
  | OpenAI => ["apiKey"]
  | AzureOpenAI => ["endpoint"; "apiKey"; "deploymentName"]
  | Google => ["apiKey"]
  | Anthropic => ["apiKey"]
  end.

Record validation := { valid : bool; errors : list text }.

Definition missing_fields (c : connector) (config : gmap string cval)
  : list string :=
  List.filter (fun field => negb (truthy (config !! field))) (required c).

Definition validateConfig (c : connector) (config : gmap string cval)
  : validation :=
  let missing := missing_fields c config in
  if (0 <? Z.of_nat (length missing))
  then {| valid := false;
          errors := [txt "Missing required fields: "
                       ++ join (txt ", ") (txt <$> missing)] |}
  else {| valid := true; errors := [] |}.

End Validate.

(** ** Flow context: [ConnectorUtils.serializeFlowContext]
    (connector-utils.js) *)

Module Serialize.

Definition LF : ascii := "010"%char.
Definition dq : ascii := "034"%char.

(** A template literal renders an integer in decimal. *)
Definition showZ (n : Z) : text := txt (NilZero.string_of_int (Z.to_int n)).

Definition notice (keepCount : Z) (total : nat) : text :=
  [LF; LF] ++ txt "/* NOTE: Flow truncated for context. Showing "
    ++ showZ keepCount ++ txt " of " ++ showZ (Z.of_nat total)
    ++ txt " nodes. Preserve structure of unseen nodes. */".

Section Host.
(** Two things come from the JavaScript host and are taken as they
    are: [JSON.stringify(nodes, null, 2)], and the arithmetic of
    numbers (IEEE doubles) with [Math.floor] read back as an integer. *)
Context {node number : Type}.
Variable stringify : list node → text.
Variable ofInt : Z → number.
Variable divide multiply : number → number → number.
Variable floor : number → Z.

Definition keepCount (nodes : list node) (maxFlowContextChars : Z) : Z :=
  let json := stringify nodes in
  let ratio := divide (ofInt maxFlowContextChars)
                      (ofInt (Z.of_nat (length json))) in
  Z.max 1 (floor (multiply (ofInt (Z.of_nat (length nodes))) ratio)).

(** [nodes.slice(0, keepCount)] *)
Definition trimmed (nodes : list node) (maxFlowContextChars : Z)
  : list node :=
  take (Z.to_nat (keepCount nodes maxFlowContextChars)) nodes.

Definition serializeFlowContext (nodes : list node)
    (maxFlowContextChars : Z) : text :=
  let json := stringify nodes in
  if Z.of_nat (length json) <=? maxFlowContextChars
  then json
  else stringify (trimmed nodes maxFlowContextChars)
         ++ notice (keepCount nodes maxFlowContextChars) (length nodes).
End Host.

(** *** A host to run the function on

    Numbers are IEEE 754 doubles.  Integers below 2^53 convert exactly;
    the floor of a finite double is exact. *)

Definition ofZ (n : Z) : float :=
  if n <? 0 then PrimFloat.opp (PrimFloat.of_uint63 (Uint63.of_Z (- n)))
  else PrimFloat.of_uint63 (Uint63.of_Z n).

(** [Math.floor] of a finite double (the quotient and the product below
    are finite: the JSON text of a list is never empty). *)
Definition floorZ (f : float) : Z :=
  match Prim2SF f with
  | S754_finite negative m e =>
      let v := if negative then Z.neg m else Z.pos m in
      if 0 <=? e then v * 2 ^ e else v / 2 ^ (- e)
  | _ => 0
  end.

(** Nodes whose fields are strings, printed as [JSON.stringify] prints
    them with a two-space indent. *)
Definition sampleNode : Type := list (string * string).

Definition quoted (s : string) : text := [dq] ++ txt s ++ [dq].

Definition printMember (kv : string * string) : text :=
  txt "    " ++ quoted kv.1 ++ txt ": " ++ quoted kv.2.

Definition printNode (n : sampleNode) : text :=
  match n with
  | [] => txt "  {}"
  | _ => txt "  {" ++ [LF] ++ join (txt "," ++ [LF]) (printMember <$> n)
           ++ [LF] ++ txt "  }"
  end.

Definition printNodes (nodes : list sampleNode) : text :=
  match nodes with
  | [] => txt "[]"
  | _ => txt "[" ++ [LF] ++ join (txt "," ++ [LF]) (printNode <$> nodes)
           ++ [LF] ++ txt "]"
  end.

Definition sampleKeepCount : list sampleNode → Z → Z :=
  keepCount printNodes ofZ PrimFloat.div PrimFloat.mul floorZ.

Definition sampleTrimmed : list sampleNode → Z → list sampleNode :=
  trimmed printNodes ofZ PrimFloat.div PrimFloat.mul floorZ.

Definition sampleSerialize : list sampleNode → Z → text :=
  serializeFlowContext printNodes ofZ PrimFloat.div PrimFloat.mul floorZ.

(** The node list of the repository's connector test. *)
Definition longNodes : list sampleNode :=
  [[("id", "1"); ("name", "aaaaaaaaaaaaaaaaaaaaaaaaaaaaaaaaaaaaaaaaaaaaaaaaaa")];
   [("id", "2"); ("name", "b")]].

(** Twenty-two small nodes whose JSON text has 528 characters. *)
Definition smallNodes : list sampleNode :=
  replicate 20 [("id", "nn")] ++ replicate 2 [("id", "n")].

End Serialize.

(** ** A JSON reader to run examples on

    [JSON.parse] belongs to the host; the embedding takes it as a
    parameter.  This reader follows the JSON grammar (RFC 8259) on ASCII
    text and serves as that parameter in the examples.  String literals
    are kept as written, escapes included. *)

Module Json.
Local Open Scope char_scope.
Local Set Warnings "-register-all".

Inductive value :=
| Null
| Bool (b : bool)
| Number (literal : text)
| String (raw : text)
| Array (items : list value)
| Object (members : list (text * value)).

Definition dq : ascii := "034".
Definition backslash : ascii := "092".

Definition isWs (c : ascii) : bool :=
  match c with
  | " " | "009" | "010" | "013" => true
  | _ => false
  end.

Fixpoint skipWs (s : text) : text :=
  match s with
  | c :: rest => if isWs c then skipWs rest else s
  | [] => []
  end.

Definition isDigit (c : ascii) : bool :=
  match c with
  | "0" | "1" | "2" | "3" | "4" | "5" | "6" | "7" | "8" | "9" => true
  | _ => false
  end.

Definition isHex (c : ascii) : bool :=
  isDigit c ||
  match c with
  | "a" | "b" | "c" | "d" | "e" | "f"
  | "A" | "B" | "C" | "D" | "E" | "F" => true
  | _ => false
  end.

Definition isSimpleEscape (c : ascii) : bool :=
  bool_decide (c = dq) || bool_decide (c = backslash) ||
  match c with
  | "/" | "b" | "f" | "n" | "r" | "t" => true
  | _ => false
  end.

(** The rest of a string literal after its opening quote. *)
Fixpoint stringBody (acc s : text) : option (text * text) :=
  match s with
  | [] => None
  | c :: rest =>
      if bool_decide (c = dq) then Some (acc, rest)
      else if bool_decide (c = backslash) then
        match rest with
        | e :: rest' =>
            if isSimpleEscape e then stringBody (acc ++ [c; e]) rest'
            else if bool_decide (e = "u") then
              match rest' with
              | h1 :: h2 :: h3 :: h4 :: rest'' =>
                  if isHex h1 && isHex h2 && isHex h3 && isHex h4
                  then stringBody (acc ++ [c; e; h1; h2; h3; h4]) rest''
                  else None
              | _ => None
              end
            else None
        | [] => None
        end
      else if (nat_of_ascii c <? 32)%nat then None
      else stringBody (acc ++ [c]) rest
  end.

Fixpoint digits (s : text) : text * text :=
  match s with
  | c :: rest =>
      if isDigit c then let '(ds, rest') := digits rest in (c :: ds, rest')
      else ([], s)
  | [] => ([], [])
  end.

Definition integerPart (s : text) : option (text * text) :=
  match s with
  | "0" :: rest => Some (["0"], rest)
  | c :: _ =>
      if isDigit c then Some (digits s) else None
  | [] => None
  end.

Definition fractionPart (s : text) : option (text * text) :=
  match s with
  | "." :: rest =>
      match digits rest with
      | ([], _) => None
      | (ds, rest') => Some ("." :: ds, rest')
      end
  | _ => Some ([], s)
  end.

Definition exponentDigits (mark : text) (s : text) : option (text * text) :=
  match digits s with
  | ([], _) => None
  | (ds, rest) => Some (mark ++ ds, rest)
  end.

Definition exponentPart (s : text) : option (text * text) :=
  match s with
  | "e" :: "+" :: rest => exponentDigits ["e"; "+"] rest
  | "e" :: "-" :: rest => exponentDigits ["e"; "-"] rest
  | "e" :: rest => exponentDigits ["e"] rest
  | "E" :: "+" :: rest => exponentDigits ["E"; "+"] rest
  | "E" :: "-" :: rest => exponentDigits ["E"; "-"] rest
  | "E" :: rest => exponentDigits ["E"] rest
  | _ => Some ([], s)
  end.

Definition number (s : text) : option (text * text) :=
  let '(sign, s1) := match s with
                     | "-" :: rest => (["-"], rest)
                     | _ => ([], s)
                     end in
  '(i, s2) ← integerPart s1;
  '(f, s3) ← fractionPart s2;
  '(e, s4) ← exponentPart s3;
  Some (sign ++ i ++ f ++ e, s4).

(** [fuel] bounds the nesting and the number of items read; each step
    uses one unit and reads at least one character. *)
Fixpoint parseValue (fuel : nat) (s : text) : option (value * text) :=
  match fuel with
  | O => None
  | S fuel' =>
      match skipWs s with
      | "n" :: "u" :: "l" :: "l" :: rest => Some (Null, rest)
      | "t" :: "r" :: "u" :: "e" :: rest => Some (Bool true, rest)
      | "f" :: "a" :: "l" :: "s" :: "e" :: rest => Some (Bool false, rest)
      | "[" :: rest =>
          match skipWs rest with
          | "]" :: rest' => Some (Array [], rest')
          | _ => '(items, rest') ← parseItems fuel' rest; Some (Array items, rest')
          end
      | "{" :: rest =>
          match skipWs rest with
          | "}" :: rest' => Some (Object [], rest')
          | _ => '(ms, rest') ← parseMembers fuel' rest; Some (Object ms, rest')
          end
      | c :: rest =>
          if bool_decide (c = dq)
          then '(raw, rest') ← stringBody [] rest; Some (String raw, rest')
          else '(lit, rest') ← number (c :: rest); Some (Number lit, rest')
      | [] => None
      end
  end
with parseItems (fuel : nat) (s : text) : option (list value * text) :=
  match fuel with
  | O => None
  | S fuel' =>
      '(v, rest) ← parseValue fuel' s;
      match skipWs rest with
      | "," :: rest' =>
          '(vs, rest'') ← parseItems fuel' rest'; Some (v :: vs, rest'')
      | "]" :: rest' => Some ([v], rest')
      | _ => None
      end
  end
with parseMembers (fuel : nat) (s : text)
  : option (list (text * value) * text) :=
  match fuel with
  | O => None
  | S fuel' =>
      match skipWs s with
      | c :: rest =>
          if bool_decide (c = dq) then
            '(key, rest1) ← stringBody [] rest;
            match skipWs rest1 with
            | ":" :: rest2 =>
                '(v, rest3) ← parseValue fuel' rest2;
                match skipWs rest3 with
                | "," :: rest4 =>
                    '(ms, rest5) ← parseMembers fuel' rest4;
                    Some ((key, v) :: ms, rest5)
                | "}" :: rest4 => Some ([(key, v)], rest4)
                | _ => None
                end
            | _ => None
            end
          else None
      | [] => None
      end
  end.

(** [JSON.parse]: one value, with nothing but blanks after it. *)
Definition parse (s : text) : option value :=
  '(v, rest) ← parseValue (S (length s)) s;
  match skipWs rest with
  | [] => Some v
  | _ => None
  end.

(** Sample texts are written with apostrophes for the double quotes. *)
Definition jsonText (s : string) : text :=
  (fun c => if bool_decide (c = "'") then dq else c) <$> txt s.

End Json.

(** ** Reading a provider reply: the parse step of [generateFlow],
    [resyncNode] and [generateDescription]
    (openai-connector-node.js and its siblings) *)

Module Parse.

Definition LF : ascii := "010"%char.
Definition CR : ascii := "013"%char.

(** [\s] and the characters [trim] strips, among the 8-bit characters:
    tab, line feed, vertical tab, form feed, carriage return, space and
    the no-break space U+00A0. *)
Definition isSpace (c : ascii) : bool :=
  Ascii.is_space c || bool_decide (c = "160"%char).

Definition isLineTerminator (c : ascii) : bool :=
  bool_decide (c = LF) || bool_decide (c = CR).

Fixpoint trimStart (s : text) : text :=
  match s with
  | c :: rest => if isSpace c then trimStart rest else s
  | [] => []
  end.

Definition trim (s : text) : text := rev (trimStart (rev (trimStart s))).

Definition fence : text := txt "```".

(** *** The pattern [/^```(?:json)?\s*\n?([\s\S]*?)\n?```$/m]

    Each function below is one piece of the pattern together with all
    that follows it, and tries its alternatives in the order a
    backtracking matcher does: greedy pieces longest first, the lazy
    group shortest first.  A result is the text of the capture group. *)

(** [$] with the [m] flag: at the end of the input or before a line
    terminator. *)
Definition atLineEnd (rest : text) : bool :=
  match rest with
  | [] => true
  | c :: _ => isLineTerminator c
  end.

(** [```$] *)
Definition closingFence (rest : text) : bool :=
  starts_with fence rest && atLineEnd (drop 3 rest).

(** [\n?```$]: with the line feed first, then without. *)
Definition closing (rest : text) : bool :=
  match rest with
  | c :: rest' => (bool_decide (c = LF) && closingFence rest')
                  || closingFence rest
  | [] => closingFence rest
  end.

(** [([\s\S]*?)\n?```$]: the group grows one character at a time until
    the closing matches. *)
Fixpoint lazyGroup (captured rest : text) : option text :=
  if closing rest then Some captured
  else match rest with
       | c :: rest' => lazyGroup (captured ++ [c]) rest'
       | [] => None
       end.

(** [\n?(...)...]: with the line feed first, then without. *)
Definition optionalLineFeed (rest : text) : option text :=
  match rest with
  | c :: rest' =>
      if bool_decide (c = LF)
      then match lazyGroup [] rest' with
           | Some g => Some g
           | None => lazyGroup [] rest
           end
      else lazyGroup [] rest
  | [] => lazyGroup [] rest
  end.

(** [\s*...]: as many blanks as there are, then one fewer, and so on. *)
Fixpoint blanks (rest : text) : option text :=
  match rest with
  | c :: rest' =>
      if isSpace c
      then match blanks rest' with
           | Some g => Some g
           | None => optionalLineFeed rest
           end
      else optionalLineFeed rest
  | [] => optionalLineFeed rest
  end.

(** [(?:json)?...]: with the tag first, then without. *)
Definition optionalTag (rest : text) : option text :=
  if starts_with (txt "json") rest
  then match blanks (drop 4 rest) with
       | Some g => Some g
       | None => blanks rest
       end
  else blanks rest.

(** The whole pattern tried at one position. *)
Definition matchHere (rest : text) : option text :=
  if starts_with fence rest then optionalTag (drop 3 rest) else None.

(** [String.prototype.match]: the first position, from the left, where
    the pattern matches.  [^] with the [m] flag holds at the start of the
    input and after a line terminator. *)
Fixpoint matchFrom (lineStart : bool) (rest : text) : option text :=
  match (if lineStart then matchHere rest else None) with
  | Some g => Some g
  | None =>
      match rest with
      | c :: rest' => matchFrom (isLineTerminator c) rest'
      | [] => None
      end
  end.

Definition codeBlockMatch (cleanContent : text) : option text :=
  matchFrom true cleanContent.

(** "Strip markdown code blocks if present" *)
Definition cleanContent (content : text) : text :=
  let cleanContent := trim content in
  match codeBlockMatch cleanContent with
  | Some group => trim group
  | None => cleanContent
  end.

Inductive reply (J : Type) :=
| Parsed (value : J)
| Failure (error : text).
Global Arguments Parsed {J} value.
Global Arguments Failure {J} error.

Definition invalidJson : text :=
  txt "AI returned invalid JSON. Response preview: ".

Section Host.
(** [JSON.parse] is the host's; [None] is a thrown [SyntaxError]. *)
Context {J : Type}.
Variable JSON_parse : text → option J.

(** [generateFlow] and [resyncNode], from the check of the content to
    the parse.  An empty content is falsy. *)
Definition parseFlowReply (content : text) : reply J :=
  match content with
  | [] => Failure (txt "No content in response")
  | _ =>
      match JSON_parse (cleanContent content) with
      | Some parsed => Parsed parsed
      | None => Failure (invalidJson ++ take 200 content)
      end
  end.

(** [generateDescription], likewise. *)
Definition parseDescriptionReply (content : text) : reply J :=
  match content with
  | [] => Failure (txt "No description in response")
  | _ =>
      match JSON_parse (cleanContent content) with
      | Some parsed => Parsed parsed
      | None => Failure (invalidJson ++ take 200 (cleanContent content))
      end
  end.
End Host.

(** A reply made of [body] inside a fenced block with the given tag. *)
Definition fenced (tag body : text) : text :=
  fence ++ tag ++ [LF] ++ body ++ [LF] ++ fence.

(** No triple backtick of the text stands at the end of a line or at the
    end of the text.  Every JSON document in ASCII is such a text: inside
    a string literal a raw line feed or carriage return is not allowed,
    outside one a backtick is not, and the last character is a brace,
    bracket, quote, digit or letter.  (Beyond ASCII, JSON allows U+2028
    and U+2029 inside string literals and the pattern takes them for line
    ends; the embedding does not cover such texts.) *)
Fixpoint noClosingFence (s : text) : bool :=
  negb (closingFence s) &&
  match s with
  | _ :: rest => noClosingFence rest
  | [] => true
  end.

(** The text of a JSON object: it opens and closes with a brace. *)
Definition isObjectText (s : text) : bool :=
  starts_with (txt "{") s && starts_with (txt "}") (rev s).

(** *** Sample replies *)

Definition helloLogger : text :=
  Json.jsonText "{'flow':[{'id':'n1','type':'debug'}],'flowName':'Hello Logger'}".

Definition proseBeforeBlock : text :=
  txt "Here is the flow:" ++ [LF] ++ fenced (txt "json") helloLogger.

(** A reply of 250 characters of prose followed by a fenced block whose
    content is not valid JSON. *)
Definition lateBlock : text :=
  replicate 250 "x"%char ++ [LF] ++ fenced (txt "json") (txt "{bad}").

End Parse.

(** ** The retry controller: [with429Retry] (node-tooltip.js) *)

Module Retry.

(** What a retry-after field can hold, as far as [??] and [Number(...)]
    tell values apart: [undefined], [null], or any other value, given by
    the double that [Number] turns it into ([HNum 3] for the header text
    "3", [HNum 1.5] for the number 1.5, [HNum nan] for an HTTP date or
    free text). *)
Inductive hint :=
| HUndefined
| HNull
| HNum (number : float).

(** [a ?? b] *)
Definition nullish_or (a b : hint) : hint :=
  match a with
  | HUndefined | HNull => b
  | _ => a
  end.

(** [Number(v)] *)
Definition toNumber (v : hint) : float :=
  match v with
  | HUndefined => PrimFloat.nan
  | HNull => PrimFloat.zero
  | HNum n => n
  end.

(** [Number.isFinite] *)
Definition isFinite (f : float) : bool :=
  negb (PrimFloat.is_nan f || PrimFloat.is_infinity f).

(** [Math.ceil]: a double with a fractional part has fewer than 53
    integer bits, so the integer next to it converts exactly. *)
Definition ceil (f : float) : float :=
  match Prim2SF f with
  | S754_finite negative m e =>
      if 0 <=? e then f
      else
        let whole := Z.pos m / 2 ^ (- e) in
        if negative
        then PrimFloat.opp (PrimFloat.of_uint63 (Uint63.of_Z whole))
        else if Z.pos m mod 2 ^ (- e) =? 0
             then PrimFloat.of_uint63 (Uint63.of_Z whole)
             else PrimFloat.of_uint63 (Uint63.of_Z (whole + 1))
  | _ => f
  end.

(** [error.response]: the status and the three places a hint may sit in.
    A missing [headers] or [data] object reads as [HUndefined] through
    the optional chaining. *)
Record response := {
  status : Z;
  header_retry_after : hint;   (* headers?.['retry-after'] *)
  data_retryAfter : hint;      (* data?.retryAfter *)
  data_retry_after : hint      (* data?.retry_after *)
}.

Inductive error :=
| HttpError (r : response)     (* an error that carries a response *)
| PlainError (message : text). (* any other thrown value *)

Inductive outcome (A : Type) :=
| Resolved (a : A)
| Rejected (e : error).
Global Arguments Resolved {A} a.
Global Arguments Rejected {A} e.

Inductive syncStatus := Idle | Syncing | Waiting.

(** What the controller does to the outside world, in order. *)
Inductive effect :=
| Call                          (* requestFn() *)
| SetNodeSyncStatus (s : syncStatus)
| Notify (waitSeconds : float)
| Sleep (waitMs : float).

Definition is429 (e : error) : bool :=
  match e with
  | HttpError r => status r =? 429
  | PlainError _ => false
  end.

Definition retryAfterSeconds (r : response) : float :=
  let retryAfterHeader := header_retry_after r in
  let retryAfterBody := nullish_or (data_retryAfter r) (data_retry_after r) in
  toNumber (nullish_or retryAfterHeader retryAfterBody).

Definition waitMs (r : response) : float :=
  ((if isFinite (retryAfterSeconds r)
    then retryAfterSeconds r * 1000
    else 1000) + 1000)%float.

(** [Math.ceil(waitMs / 1000)] *)
Definition waitSeconds (r : response) : float := ceil (waitMs r / 1000)%float.

Definition maxRetriesError : error :=
  PlainError (txt "Maximum retry attempts reached due to rate limiting").

Definition backoff (r : response) : list effect :=
  [SetNodeSyncStatus Waiting; Notify (waitSeconds r); Sleep (waitMs r);
   SetNodeSyncStatus Syncing].

(** The [while (attempt < 10)] loop.  [remaining] is [10 - attempt]: it
    drops by one exactly when [attempt] grows by one.  [calls] counts the
    invocations of [requestFn] made so far; [requestFn k] is what the
    invocation number [k] settles to. *)
Fixpoint retryLoop {A} (requestFn : nat → outcome A)
    (remaining calls : nat) : outcome A * list effect :=
  match remaining with
  | O => (Rejected maxRetriesError, [])
  | S remaining' =>
      match requestFn calls with
      | Resolved a => (Resolved a, [Call])
      | Rejected e =>
          match e with
          | HttpError r =>
              if status r =? 429
              then let '(res, effs) := retryLoop requestFn remaining' (S calls) in
                   (res, Call :: backoff r ++ effs)
              else (Rejected e, [Call])
          | PlainError _ => (Rejected e, [Call])
          end
      end
  end.

Definition with429Retry {A} (requestFn : nat → outcome A)
  : outcome A * list effect :=
  retryLoop requestFn 10 0.

Definition callCount (effs : list effect) : nat :=
  length (List.filter (fun e => match e with Call => true | _ => false end) effs).

(** The wait the specification text writes:
    [(serverSuppliedRetryAfterSeconds ?? 0) * 1000 + 1000]. *)
Definition specifiedWaitMs (serverSupplied : option float) : float :=
  (default 0 serverSupplied * 1000 + 1000)%float.

(** [undefined] or [null]: what [??] passes over. *)
Definition nullish (v : hint) : Prop := v = HUndefined ∨ v = HNull.

(** Invocation [k] is rejected with a rate-limit response. *)
Definition rateLimitedAt {A} (requestFn : nat → outcome A) (k : nat) : Prop :=
  ∃ r, requestFn k = Rejected (HttpError r) ∧ status r = 429.

(** *** Sample providers *)

Definition limitedResponse (header body : hint) : response :=
  {| status := 429; header_retry_after := header;
     data_retryAfter := body; data_retry_after := HUndefined |}.

(** A rate-limit response that carries no hint at all. *)
Definition noHint : response := limitedResponse HUndefined HUndefined.

(** Rate-limits the first call with a 3-second header, then answers. *)
Definition limitedOnce : nat → outcome text :=
  fun k =>
    match k with
    | O => Rejected (HttpError (limitedResponse (HNum 3) HUndefined))
    | _ => Resolved (txt "ok")
    end.

(** Always answers 429, with a one-second hint in the body. *)
Definition alwaysLimited : nat → outcome text :=
  fun _ => Rejected (HttpError (limitedResponse HUndefined (HNum 1))).

(** A rate-limit response whose header is an HTTP date while the body
    carries a hint of five seconds. *)
Definition dateHeader : response :=
  limitedResponse (HNum PrimFloat.nan) (HNum 5).

(** A rate-limit response whose only hint is [retry_after: null]. *)
Definition nullHint : response :=
  {| status := 429; header_retry_after := HUndefined;
     data_retryAfter := HUndefined; data_retry_after := HNull |}.

(** A rate-limit response with a hint of a second and a half. *)
Definition fractionHint : response := limitedResponse (HNum 1.5) HUndefined.

(** A failure that is not a rate limit. *)
Definition serverError : error :=
  HttpError {| status := 500; header_retry_after := HUndefined;
               data_retryAfter := HUndefined; data_retry_after := HUndefined |}.

Definition alwaysFailing : nat → outcome text := fun _ => Rejected serverError.

End Retry.

(** ** Resynchronisation requests: [resyncNodeWithAI], [updateNodeTooltip],
    the [nodes:change] handler and [saveAndExitEditMode] (node-tooltip.js)

    The editor runs handlers one at a time; an [async] function runs up to
    its next [await] and resumes when the awaited promise settles.  The
    model is the resulting transition system: a state is what the plugin
    reads and writes -- whether the HTTP client is there, which nodes have
    an element in the document, the status painted per node, the stored
    functional snapshots -- and the resync operations that are suspended;
    a transition is one handler run, one resumption, or a change of the
    document by the host. *)

Module Resync.
Import Retry.

Inductive direction := InfoToLogic | LogicToInfo.

Inductive phase :=
| AwaitingResponse   (* suspended in [await requestFn()] *)
| Sleeping.          (* suspended in the backoff [setTimeout] *)

(** One activation of [resyncNodeWithAI]. *)
Record operation := {
  op_node : string;
  op_direction : direction;
  op_attempt : nat;
  op_phase : phase
}.

Record editor := {
  httpClient : bool;                      (* whether [window.axios] is there *)
  elements : gmap string bool;            (* the nodes that have an element
                                             in the document, and whether
                                             the element holds the circle
                                             of the changed indicator *)
  statusOf : gmap string syncStatus;      (* the status painted per node *)
  nodeFunctionalState : gmap string text; (* window.nodeFunctionalState,
                                             as the JSON text compared *)
  operations : list operation             (* suspended activations *)
}.

Inductive event :=
| NodesChange (nodeId : string) (functional : text)
    (* RED.events 'nodes:change' for a node whose functional properties
       serialise to [functional] *)
| UpdateTooltip (nodeId : string) (functional : text)
    (* a run of [updateNodeTooltip] for the node that does not come from
       'nodes:change': from 'editor:open', 'workspace:change', the workspace
       observer, the start-up timer or the retry timer of an earlier run *)
| SaveInfo (nodeId : string) (functional : text) (infoChanged : bool)
    (* [saveAndExitEditMode] with a text that differs from the raw info;
       [infoChanged]: the registry did not hold that text for the node *)
| Settle (k : nat) (result : outcome text)
    (* the request of suspended operation [k] settles; [Resolved] is an
       answer that the operation accepts, its text the node's functional
       snapshot after the update; an answer it does not accept is a
       rejection like any failure that is not a rate limit *)
| Wake (k : nat)
    (* the backoff timer of suspended operation [k] fires *)
| ElementAdded (nodeId : string) (circle : bool)
    (* the host draws the node: a new element, nothing painted on it *)
| ElementRemoved (nodeId : string).
    (* the host takes the node's element out of the document *)

Definition withStatus (st : gmap string syncStatus) (e : editor) : editor :=
  {| httpClient := httpClient e; elements := elements e; statusOf := st;
     nodeFunctionalState := nodeFunctionalState e;
     operations := operations e |}.

Definition withOperations (ops : list operation) (e : editor) : editor :=
  {| httpClient := httpClient e; elements := elements e;
     statusOf := statusOf e;
     nodeFunctionalState := nodeFunctionalState e;
     operations := ops |}.

Definition withElements (els : gmap string bool) (e : editor) : editor :=
  {| httpClient := httpClient e; elements := els; statusOf := statusOf e;
     nodeFunctionalState := nodeFunctionalState e;
     operations := operations e |}.

(** [setNodeSyncStatus]: paints the circle of the node's element; without
    element, or without circle, nothing happens. *)
Definition setNodeSyncStatus (nodeId : string) (s : syncStatus) (e : editor)
  : editor :=
  match elements e !! nodeId with
  | Some true => withStatus (<[nodeId := s]> (statusOf e)) e
  | _ => e
  end.

(** [functionalPropertiesChanged] *)
Definition functionalPropertiesChanged (nodeId : string) (current : text)
    (e : editor) : bool :=
  match nodeFunctionalState e !! nodeId with
  | None => false
  | Some previous => negb (bool_decide (current = previous))
  end.

Definition storeFunctionalState (nodeId : string) (current : text)
    (e : editor) : editor :=
  {| httpClient := httpClient e; elements := elements e;
     statusOf := statusOf e;
     nodeFunctionalState := <[nodeId := current]> (nodeFunctionalState e);
     operations := operations e |}.

(** [registerNodeInRegistry], the part on the functional snapshot. *)
Definition registerNodeInRegistry (nodeId : string) (current : text)
    (e : editor) : editor :=
  match nodeFunctionalState e !! nodeId with
  | None => storeFunctionalState nodeId current e
  | Some _ => e
  end.

(** [updateNodeTooltip], as far as the state goes: without element the
    run ends (a timer repeats it later); with one, the node is
    registered. *)
Definition updateNodeTooltip (nodeId : string) (current : text) (e : editor)
  : editor :=
  match elements e !! nodeId with
  | Some _ => registerNodeInRegistry nodeId current e
  | None => e
  end.

(** [resyncNodeWithAI] up to its first [await]: without HTTP client it
    throws before anything is done; otherwise it marks the node as
    syncing and issues the request.  Nothing is read from the status. *)
Definition resyncNodeWithAI (nodeId : string) (d : direction) (e : editor)
  : editor :=
  if httpClient e
  then
    let e1 := setNodeSyncStatus nodeId Syncing e in
    withOperations
      (operations e1 ++
       [{| op_node := nodeId; op_direction := d; op_attempt := 0;
           op_phase := AwaitingResponse |}]) e1
  else e.

Definition dropOperation (k : nat) (e : editor) : editor :=
  withOperations (delete k (operations e)) e.

Definition setOperation (k : nat) (o : operation) (e : editor) : editor :=
  withOperations (<[k := o]> (operations e)) e.

(** The [finally] block of [resyncNodeWithAI]. *)
Definition finish (k : nat) (o : operation) (e : editor) : editor :=
  setNodeSyncStatus (op_node o) Idle (dropOperation k e).

(** The handler of 'nodes:change'. *)
Definition nodesChange (nodeId : string) (functional : text) (e : editor)
  : editor :=
  let e1 := if functionalPropertiesChanged nodeId functional e
            then resyncNodeWithAI nodeId LogicToInfo e
            else e in
  updateNodeTooltip nodeId functional e1.

Definition step (e : editor) (ev : event) : editor :=
  match ev with
  | NodesChange nodeId functional => nodesChange nodeId functional e
  | UpdateTooltip nodeId functional => updateNodeTooltip nodeId functional e
  | SaveInfo nodeId functional infoChanged =>
      (* the event is emitted, then the resync is asked for *)
      let e1 := nodesChange nodeId functional e in
      if infoChanged then resyncNodeWithAI nodeId InfoToLogic e1 else e1
  | Settle k result =>
      match operations e !! k with
      | Some o =>
          match op_phase o, result with
          | AwaitingResponse, Resolved functional =>
              finish k o (storeFunctionalState (op_node o) functional e)
          | AwaitingResponse, Rejected err =>
              if is429 err
              then setNodeSyncStatus (op_node o) Waiting
                     (setOperation k
                        {| op_node := op_node o;
                           op_direction := op_direction o;
                           op_attempt := S (op_attempt o);
                           op_phase := Sleeping |} e)
              else finish k o e
          | Sleeping, _ => e
          end
      | None => e
      end
  | Wake k =>
      match operations e !! k with
      | Some o =>
          match op_phase o with
          | Sleeping =>
              let e1 := setNodeSyncStatus (op_node o) Syncing e in
              if (op_attempt o <? 10)%nat
              then setOperation k
                     {| op_node := op_node o;
                        op_direction := op_direction o;
                        op_attempt := op_attempt o;
                        op_phase := AwaitingResponse |} e1
              else finish k o e1
          | AwaitingResponse => e
          end
      | None => e
      end
  | ElementAdded nodeId circle =>
      withStatus (delete nodeId (statusOf e))
        (withElements (<[nodeId := circle]> (elements e)) e)
  | ElementRemoved nodeId =>
      withStatus (delete nodeId (statusOf e))
        (withElements (delete nodeId (elements e)) e)
  end.


(** The editor after loading, with the HTTP client and nothing drawn. *)
Definition initial : editor :=
  {| httpClient := true; elements := ∅; statusOf := ∅;
     nodeFunctionalState := ∅; operations := [] |}.




End Resync.

(** ** Package descriptions: [packageInfo] (plugin entry point) *)

Module PackageInfo.

(** The registry document for a package; an absent or empty description
    is the empty text (both are falsy). *)
Record registryData := {
  dist_tags_latest : option string;       (* data['dist-tags'].latest *)
  versions : option (gmap string text);   (* version -> its description *)
  description : text                      (* data.description *)
}.

(** The two services: [None] is a request that throws (network failure,
    timeout, non-2xx status). *)
Record network := {
  registry : string → option registryData;
  unpkg : string → option text   (* description of package.json *)
}.

Inductive fetch := FetchRegistry (name : string) | FetchUnpkg (name : string).

Definition truthyText (t : text) : bool := negb (bool_decide (t = [])).

(** [a || b] on texts. *)
Definition orText (a b : text) : text := if truthyText a then a else b.

(** [(info && info.description) || data.description || ''], where [info]
    is [data.versions[latest]] when [latest] and [data.versions] are
    truthy (an empty [latest] is not) and [data] otherwise. *)
Definition registryDescription (data : registryData) : text :=
  let info_description :=
    match dist_tags_latest data, versions data with
    | Some latest, Some vs =>
        if decide (latest = "") then description data
        else default [] (vs !! latest)
    | _, _ => description data
    end in
  orText info_description (orText (description data) []).

(** Result: the returned description, the cache afterwards and the
    requests made. *)
Definition packageInfo (net : network) (name : string)
    (packageInfoCache : gmap string text)
  : text * gmap string text * list fetch :=
  let description := orText (default [] (packageInfoCache !! name)) [] in
  if truthyText description
  then (description, packageInfoCache, [])
  else
    match registry net name with
    | Some data =>
        let desc := registryDescription data in
        (desc, <[name := description]> packageInfoCache, [FetchRegistry name])
    | None =>
        match unpkg net name with
        | Some info_description =>
            let desc := if truthyText info_description
                        then info_description else [] in
            (desc, <[name := description]> packageInfoCache,
             [FetchRegistry name; FetchUnpkg name])
        | None =>
            (description, <[name := []]> packageInfoCache,
             [FetchRegistry name; FetchUnpkg name])
        end
    end.

(** The description a lookup that misses the cache fetches. *)
Definition fetched (net : network) (name : string) : text :=
  match registry net name with
  | Some data => registryDescription data
  | None => default [] (unpkg net name)
  end.

(** *** A sample network: the registry knows one package, the mirror
    another. *)
Definition sampleNetwork : network :=
  {| registry := fun name =>
       if decide (name = "node-red-contrib-demo")
       then Some {| dist_tags_latest := Some "1.0.0";
                    versions := Some {[ "1.0.0" := txt "Demo nodes" ]};
                    description := txt "Old text" |}
       else None;
     unpkg := fun name =>
       if decide (name = "mirror-only") then Some (txt "From the mirror")
       else None |}.

End PackageInfo.

(** ** The flow merge: the merge branch of [handlePromptSubmit]
    (ai-prompt-sidebar.js) *)

Module Merge.

(** A field value of the wire format, as far as the merge looks into it
    (it does not: values are copied as they are). *)
Inductive pval :=
| PNull
| PBool (b : bool)
| PNum (n : Z)
| PStr (s : text).

(** A node object.  The six keys the merge treats specially are fields of
    their own; [props] holds every other key.  [x], [y]: [None] is
    [undefined] or [null].  [wires]: [None] is anything that is not an
    array. *)
Record node := mkNode {
  id : string;
  type : string;
  z : string;
  x : option Z;
  y : option Z;
  wires : option (list (list string));
  props : gmap string pval
}.

(** A link of the editor: source node, source port, target node. *)
Definition link : Type := string * nat * string.
Definition source (l : link) : string := l.1.1.
Definition sourcePort (l : link) : nat := l.1.2.
Definition target (l : link) : string := l.2.

(** The live graph of the editor: the nodes by identifier, and the
    links. *)
Record graph := mkGraph {
  nodes : gmap string node;
  links : gset link
}.

Definition withZ (tab : string) (n : node) : node :=
  mkNode (id n) (type n) tab (x n) (y n) (wires n) (props n).
Definition withXY (x' y' : option Z) (n : node) : node :=
  mkNode (id n) (type n) (z n) x' y' (wires n) (props n).
Definition withWires (ws : option (list (list string))) (n : node) : node :=
  mkNode (id n) (type n) (z n) (x n) (y n) ws (props n).
Definition withProps (ps : gmap string pval) (n : node) : node :=
  mkNode (id n) (type n) (z n) (x n) (y n) (wires n) ps.
Definition setProp (key : string) (v : pval) (n : node) : node :=
  withProps (<[key := v]> (props n)) n.

(** *** The editor's primitives

    Modelled from the spec: the host editor is not part of the repository;
    the specification names its mutation primitives (add node, update node
    fields, remove node, set wires) and says that importing may create
    wiring of its own.  The graph is a store keyed by identifier. *)

(** [RED.nodes.node(id)] *)
Definition RED_node (g : graph) (i : string) : option node := nodes g !! i.

(** [RED.nodes.addLink], [RED.nodes.removeLink] *)
Definition RED_addLink (l : link) (g : graph) : graph :=
  mkGraph (nodes g) (links g ∪ {[ l ]}).
Definition RED_removeLink (l : link) (g : graph) : graph :=
  mkGraph (nodes g) (links g ∖ {[ l ]}).

(** [RED.nodes.remove(id)]: the node goes, and the links at it. *)
Definition RED_remove (i : string) (g : graph) : graph :=
  mkGraph (delete i (nodes g))
          (filter (fun l => source l ≠ i ∧ target l ≠ i) (links g)).

(** [newNode.wires.forEach((wireSet, portIndex) => ...)]: the links a wires
    list asks for out of node [i], port by port, to the targets that
    [RED.nodes.node] finds. *)
Fixpoint wireLinksFrom (g : graph) (i : string) (portIndex : nat)
    (ws : list (list string)) : list link :=
  match ws with
  | [] => []
  | wireSet :: rest =>
      ((fun targetId => (i, portIndex, targetId)) <$>
         filter (fun targetId => is_Some (RED_node g targetId)) wireSet)
      ++ wireLinksFrom g i (S portIndex) rest
  end.

Definition wireLinks (g : graph) (i : string) (ws : list (list string))
  : list link :=
  wireLinksFrom g i 0 ws.

(** [RED.nodes.import(batch)]: each node is stored under its identifier;
    then the wiring each imported node declares is created. *)
Definition RED_import (batch : list node) (g : graph) : graph :=
  let stored := foldl (fun m n => <[id n := n]> m) (nodes g) batch in
  let g' := mkGraph stored (links g) in
  mkGraph stored
    (links g ∪ ⋃ ((fun n => match wires n with
                            | Some ws => list_to_set (wireLinks g' (id n) ws)
                            | None => ∅
                            end) <$> batch)).

(** *** The merge *)

Definition skipKeys : list string := ["id"; "type"; "z"; "x"; "y"; "wires"].

(** [eachLink] collecting the links whose source is node [i]. *)
Definition linksFrom (g : graph) (i : string) : gset link :=
  filter (fun l => source l = i) (links g).

(** Lines 145-168 and 195-218: drop the links out of node [i], set its
    [wires] to a copy of the proposed list, add a link for each proposed
    target that exists. *)
Definition rewire (i : string) (ws : list (list string)) (g : graph) : graph :=
  let linksToRemove := linksFrom g i in
  let g1 := foldr RED_removeLink g (elements linksToRemove) in
  let g2 := mkGraph (alter (withWires (Some ws)) i (nodes g1)) (links g1) in
  foldl (fun g l => RED_addLink l g) g2 (wireLinks g2 i ws).

(** Lines 140-174, for one added node. *)
Definition fixAdded (newNode : node) (g : graph) : graph :=
  match RED_node g (id newNode), wires newNode with
  | Some _, Some ws =>
      let g1 := rewire (id newNode) ws g in
      mkGraph (alter (fun n => setProp "dirty" (PBool true)
                                 (setProp "changed" (PBool true) n))
                     (id newNode) (nodes g1))
              (links g1)
  | _, _ => g
  end.

(** Lines 183-187: every key of the proposal outside [skipKeys]. *)
Definition copyFields (newNode existingNode : node) : node :=
  withProps (filter (fun kv => kv.1 ∉ skipKeys) (props newNode)
               ∪ props existingNode)
            existingNode.

(** [a ?? b] *)
Definition nullish_or {A} (a b : option A) : option A :=
  match a with
  | Some v => Some v
  | None => b
  end.

(** Lines 189-192. *)
Definition copyCoords (newNode existingNode : node) : node :=
  match x newNode, y newNode with
  | None, None => existingNode
  | _, _ => withXY (nullish_or (x newNode) (x existingNode))
                   (nullish_or (y newNode) (y existingNode))
                   existingNode
  end.

(** Lines 178-225, for one proposed node whose identifier exists. *)
Definition updateExisting (newNode : node) (g : graph) : graph :=
  let i := id newNode in
  let g1 := mkGraph (alter (fun existingNode =>
                              copyCoords newNode (copyFields newNode existingNode))
                           i (nodes g))
                    (links g) in
  let g2 := match wires newNode with
            | Some ws => rewire i ws g1
            | None => g1
            end in
  mkGraph (alter (setProp "dirty" (PBool true)) i (nodes g2)) (links g2).

(** The nodes of the target tab, by identifier ([existingNodes]). *)
Definition existingIn (targetTab : string) (g : graph) : gmap string node :=
  filter (fun kv => z kv.2 = targetTab) (nodes g).

(** FIRST: add new nodes and fix their wires. *)
Definition addNewNodes (nodesToAdd : list node) (g : graph) : graph :=
  match nodesToAdd with
  | [] => g
  | _ => foldl (fun g newNode => fixAdded newNode g)
               (RED_import nodesToAdd g) nodesToAdd
  end.

(** SECOND: update existing nodes. *)
Definition updateExistingNodes (nodesToUpdate : list node) (g : graph) : graph :=
  foldl (fun g newNode => updateExisting newNode g) g nodesToUpdate.

(** THIRD: remove nodes that are no longer in the flow. *)
Definition removeOrphans (existingIds : list string) (newNodesMap : gset string)
    (g : graph) : graph :=
  foldl (fun g nodeId => if decide (nodeId ∈ newNodesMap) then g
                         else RED_remove nodeId g)
        g existingIds.

(** Lines 107-242. *)
Definition smartMerge (targetTab : string) (flow : list node) (g : graph)
  : graph :=
  let existingNodes := existingIn targetTab g in
  let flow := withZ targetTab <$> flow in
  let newNodesMap : gset string := list_to_set (id <$> flow) in
  let nodesToUpdate := filter (fun n => id n ∈ dom existingNodes) flow in
  let nodesToAdd := filter (fun n => id n ∉ dom existingNodes) flow in
  let g1 := addNewNodes nodesToAdd g in
  let g2 := updateExistingNodes nodesToUpdate g1 in
  removeOrphans (elements (dom existingNodes)) newNodesMap g2.

(** Lines 71-242 without the new-tab branch: an empty flow changes
    nothing. *)
Definition applyFlow (activeTab : string) (flow : list node) (g : graph)
  : graph :=
  match flow with
  | [] => g
  | _ => smartMerge activeTab flow g
  end.

(** *** Notions used to state the properties *)

(** What one update does to the node it finds (lines 183-192, 204, 224). *)
Definition applyUpdate (newNode existingNode : node) : node :=
  let n1 := copyCoords newNode (copyFields newNode existingNode) in
  let n2 := match wires newNode with
            | Some ws => withWires (Some ws) n1
            | None => n1
            end in
  setProp "dirty" (PBool true) n2.

(** What the add path does to the node it finds when the proposal has a
    wires list (lines 155, 170-171). *)
Definition applyAdded (ws : list (list string)) (n : node) : node :=
  setProp "dirty" (PBool true)
    (setProp "changed" (PBool true) (withWires (Some ws) n)).

(** A node without the editor's two bookkeeping flags. *)
Definition withoutFlags (n : node) : node :=
  withProps (delete "dirty" (delete "changed" (props n))) n.

(** The node [n] already holds what the proposal [p] would write, the two
    flags apart. *)
Definition carries (p n : node) : Prop :=
  (∀ k v, k ∉ skipKeys → k ≠ "dirty" → k ≠ "changed" →
          props p !! k = Some v → props n !! k = Some v)
  ∧ (∀ v, x p = Some v → x n = Some v)
  ∧ (∀ v, y p = Some v → y n = Some v)
  ∧ (∀ ws, wires p = Some ws → wires n = Some ws).

(** The graph [g] already holds the proposal [p]: its node carries the
    proposed fields, and if [p] has a wires list the links out of the node
    are the ones the list asks for, among the nodes of [g]. *)
Definition settled (p : node) (g : graph) : Prop :=
  (∀ n, nodes g !! id p = Some n → carries p n)
  ∧ (∀ ws, wires p = Some ws →
       linksFrom g (id p) = list_to_set (wireLinks g (id p) ws)).

(** [g'] comes from [g] by a change to node [j] that keeps its tab, and to
    links out of [j], only. *)
Definition localAt (j : string) (g g' : graph) : Prop :=
  (∃ f, nodes g' = alter f j (nodes g) ∧ ∀ n, z (f n) = z n)
  ∧ (∀ l, source l ≠ j → l ∈ links g' ↔ l ∈ links g).

(** The identifiers of a flow. *)
Definition idsOf (flow : list node) : list string := id <$> flow.

(** The link [l] is asked for by the wires list [ws] of node [i]. *)
Definition asks (i : string) (ws : list (list string)) (l : link) : Prop :=
  source l = i ∧ ∃ wireSet, ws !! sourcePort l = Some wireSet ∧ target l ∈ wireSet.

(** *** Sample graphs and flows *)

Definition plain (i t tab : string) (ws : option (list (list string)))
    (ps : gmap string pval) : node :=
  mkNode i t tab None None ws ps.

Definition emptyGraph : graph := mkGraph ∅ ∅.

(** The container {A, B, C} of the specification's merge example, wired
    A -> B -> C, and the proposal {A updated, D new}. *)
Definition sampleGraph : graph :=
  mkGraph
    (<["A" := plain "A" "inject" "tab1" (Some [["B"]]) {[ "name" := PStr (txt "tick") ]}]>
       (<["B" := plain "B" "function" "tab1" (Some [["C"]]) ∅]>
          (<["C" := plain "C" "debug" "tab1" (Some [[]]) ∅]> ∅)))
    {[ ("A", 0%nat, "B"); ("B", 0%nat, "C") ]}.

Definition sampleFlow : list node :=
  [mkNode "A" "inject" "" (Some 120) None (Some [["D"]])
     {[ "name" := PStr (txt "every minute") ]};
   plain "D" "debug" "" (Some [[]]) {[ "name" := PStr (txt "log") ]}].

(** A proposal that names the same new node twice. *)
Definition duplicateFlow : list node :=
  [plain "n1" "debug" "" (Some [])
     {[ "name" := PStr (txt "first"); "extra" := PNum 1 ]};
   plain "n1" "debug" "" (Some []) {[ "name" := PStr (txt "second") ]}].

(** A proposal of one new node that carries the editor's [changed]
    flag. *)
Definition flaggedFlow : list node :=
  [plain "n1" "debug" "" (Some []) {[ "changed" := PBool false ]}].

(** A proposal of one new node without wires list. *)
Definition bareFlow : list node := [plain "n1" "debug" "" None ∅].

(** A proposal that carries the editor's [dirty] flag. *)
Definition dirtyProposal : node :=
  plain "A" "inject" "tab1" None {[ "dirty" := PBool false ]}.

End Merge.

(** ** Runs of [with429Retry]: the waits between the invocations *)

Module Backoff.
Import Retry.

(** The sleeps of a run, in order. *)
Definition sleeps (effs : list effect) : list float :=
  omap (fun e => match e with Sleep ms => Some ms | _ => None end) effs.

(** Answers after three rate limits with hints of 0, 1 and 2 seconds. *)
Definition limitedThrice : nat → outcome text :=
  fun k =>
    if (k <? 3)%nat
    then Rejected (HttpError (limitedResponse
                                (HNum (Serialize.ofZ (Z.of_nat k))) HUndefined))
    else Resolved (txt "ok").

End Backoff.

(** ** The package-description cache at start-up: [setPackageInfoCache],
    [ensurePackageInfoCache] (plugin entry point) *)

Module PackageCache.
Import PackageInfo.

(** An entry of [PACKAGE_INFO_CACHE] or of the document behind
    [PACKAGE_INFO_CACHE_URL]; an absent description is the empty text (both
    are falsy when read back). *)
Record pkgInfo := {
  pkg_name : string;
  pkg_description : text
}.

Definition setPackageInfoCache (arr : list pkgInfo)
    (packageInfoCache : gmap string text) : gmap string text :=
  foldl (fun cache pkgInfo => <[pkg_name pkgInfo := pkg_description pkgInfo]> cache)
        packageInfoCache arr.

(** [remote] is what [axios.get(packageInfoCacheUrl)] gives: [None] when
    the request throws (the [catch] continues silently).  The value of
    [PACKAGE_INFO_CACHE] and a document that arrives are arrays of
    objects. *)
Definition ensurePackageInfoCache (packageInfoCacheRaw : list pkgInfo)
    (packageInfoCacheUrl : text) (remote : option (list pkgInfo))
    (packageInfoCache : gmap string text) : gmap string text :=
  let cache := setPackageInfoCache packageInfoCacheRaw packageInfoCache in
  if truthyText packageInfoCacheUrl
  then match remote with
       | Some data => setPackageInfoCache data cache
       | None => cache
       end
  else cache.

(** The entries that reach the cache, in the order they are stored. *)
Definition stored (packageInfoCacheRaw : list pkgInfo)
    (packageInfoCacheUrl : text) (remote : option (list pkgInfo))
  : list pkgInfo :=
  packageInfoCacheRaw ++
  (if truthyText packageInfoCacheUrl then default [] remote else []).

(** The last entry for a name. *)
Definition lastFor (name : string) (arr : list pkgInfo) : option pkgInfo :=
  last (filter (fun p => pkg_name p = name) arr).

Definition sampleRaw : list pkgInfo :=
  [{| pkg_name := "node-red-contrib-demo"; pkg_description := txt "Local text" |};
   {| pkg_name := "mirror-only"; pkg_description := [] |}].

(** A network whose registry knows the package but has no description
    for it, while the mirror has one. *)
Definition bareRegistry : network :=
  {| registry := fun _ =>
       Some {| dist_tags_latest := None; versions := None; description := [] |};
     unpkg := fun _ => Some (txt "From the mirror") |}.

Definition sampleRemote : list pkgInfo :=
  [{| pkg_name := "node-red-contrib-demo"; pkg_description := txt "Remote text" |}].

End PackageCache.

(** ** The tooltip plugin: wires read back from links, the functional
    snapshot of a node, and saving an edited description
    (node-tooltip.js) *)

Module Tooltip.
Import Merge.

(** [getNodeWiresFromLinks].  [eachLink] is the sequence in which
    [RED.nodes.eachLink] visits the links.  The result is the array
    [outputs], given by its elements: an index that was never assigned is
    a hole. *)
Definition getNodeWiresFromLinks (eachLink : list link) (nodeId : string)
  : gmap nat (list string) :=
  foldl (fun outputs l =>
           if decide (source l = nodeId)
           then let port := sourcePort l in
                <[port := default [] (outputs !! port) ++ [target l]]> outputs
           else outputs)
        ∅ eachLink.

(** The keys [extractFunctionalProperties] looks at, and those
    [extractNodeConfig] adds to the eight it always sends. *)
Definition functionalKeys : list string :=
  ["func"; "rules"; "url"; "method"; "ret"; "property"; "payload"; "topic";
   "to"; "outputs"; "split"; "fixdmax"; "complete"; "finalize"; "initialize"].

Definition configKeys : list string :=
  ["func"; "rules"; "url"; "method"; "ret"; "property"; "payload"; "topic";
   "to"; "outputs"; "split"; "fixdmax"; "complete"; "finalize"; "initialize";
   "payloadType"; "repeat"; "crontab"; "once"; "active"; "tosidebar";
   "console"; "tostatus"].

Section Node.
(** A node object is a finite map from its keys to values of some type
    [V]; [JSON.stringify] of the extracted object is the host's, applied
    to the entries in the order they were written. *)
Context {V : Type}.
Variable stringify : list (string * V) → text.

(** [extractFunctionalProperties]: the entries of the keys that are in
    the node, in the order of the list. *)
Definition extractFunctionalProperties (node : gmap string V)
  : list (string * V) :=
  omap (fun key => (fun v => (key, v)) <$> node !! key) functionalKeys.

(** The text [functionalPropertiesChanged] and [storeFunctionalState]
    work with. *)
Definition functionalText (node : gmap string V) : text :=
  stringify (extractFunctionalProperties node).
End Node.

Section Markdown.
(** [stripMarkdown] is a chain of ten regular-expression replacements; it
    is kept abstract here: what follows holds whatever text it returns. *)
Variable stripMarkdown : text → text.

Definition truthy (t : text) : bool := negb (bool_decide (t = [])).

(** [updateNodeTooltip], lines 544-576: the display text and the raw
    info handed to the tooltip.  An absent [info], [name] or [type] is the
    empty text (both are falsy). *)
Definition tooltipTexts (info name type : text) : text * text :=
  let '(displayText, rawInfo) :=
    if truthy info && truthy (Parse.trim info)
    then (Parse.trim (stripMarkdown info), info)
    else ([], []) in
  let displayText :=
    if negb (truthy displayText) && truthy name then name else displayText in
  let displayText :=
    if negb (truthy displayText)
    then (if truthy type then type else txt "Node")
    else displayText in
  let displayText :=
    if (500 <? length displayText)%nat
    then take 497 displayText ++ txt "..."
    else displayText in
  (displayText, rawInfo).

(** The display text before the cut to 500 characters. *)
Definition uncut (info name type : text) : text :=
  let displayText :=
    if truthy info && truthy (Parse.trim info)
    then Parse.trim (stripMarkdown info) else [] in
  let displayText :=
    if negb (truthy displayText) && truthy name then name else displayText in
  if negb (truthy displayText)
  then (if truthy type then type else txt "Node")
  else displayText.

(** [enterEditMode], line 460: what the editable tooltip shows. *)
Definition editorContent (rawInfo displayText : text) : text :=
  if truthy rawInfo then rawInfo else displayText.
End Markdown.

(** [registerNodeInRegistry], the part on the semantic registry
    (the [lastSynced] time stamp is left out). *)
Definition registerSemantic (nodeId : string) (info : text)
    (semanticNodeRegistry : gmap string text) : gmap string text :=
  match semanticNodeRegistry !! nodeId with
  | None => if truthy info then <[nodeId := info]> semanticNodeRegistry
            else semanticNodeRegistry
  | Some _ => semanticNodeRegistry
  end.

(** What [saveAndExitEditMode] does to the node, and whether it calls
    [resyncNodeWithAI]. *)
Record saved := {
  node_info : text;
  node_changed : bool;
  resync : bool
}.

(** [saveAndExitEditMode]: [content] is the text of the tooltip when the
    save is asked for, [nodeInfo] the node's info before. *)
Definition saveAndExitEditMode (content rawInfo : text) (nodeId : string)
    (nodeInfo : text) (semanticNodeRegistry : gmap string text) : saved :=
  let newText := Parse.trim content in
  if bool_decide (newText = rawInfo)
  then {| node_info := nodeInfo; node_changed := false; resync := false |}
  else
    let infoChanged :=
      match semanticNodeRegistry !! nodeId with
      | None => true
      | Some info => negb (bool_decide (info = newText))
      end in
    {| node_info := newText; node_changed := true; resync := infoChanged |}.

(** Opening the tooltip of a node and saving it as it is: the tooltip is
    built ([updateNodeTooltip], which registers the node), clicked
    ([enterEditMode]) and saved with no key pressed. *)
Definition saveUntouched (stripMarkdown : text → text) (nodeId : string)
    (info name type : text) (semanticNodeRegistry : gmap string text) : saved :=
  let registry := registerSemantic nodeId info semanticNodeRegistry in
  let '(displayText, rawInfo) := tooltipTexts stripMarkdown info name type in
  saveAndExitEditMode (editorContent rawInfo displayText) rawInfo nodeId info
    registry.

(** *** Samples *)

(** A function node, and the same node after its info and name were
    edited. *)
Definition sampleNode : gmap string text :=
  <["func" := txt "return msg;"]> (<["info" := txt "old"]> ∅).

Definition editedNode : gmap string text :=
  <["info" := txt "new"]> (<["name" := txt "renamed"]> sampleNode).

Definition sampleLinks : list link :=
  [("a", 0%nat, "b"); ("x", 0%nat, "a"); ("a", 2%nat, "c"); ("a", 0%nat, "c")].

End Tooltip.

(** ** Configuration lookup: [getEnv], [loadEnv], [getSettings],
    [setSettings] (config-loader.js) *)

Module Loader.
Import Validate.

(** A value of the settings object: a plain value or an object (such as
    the one under [aiPrompts]). *)
Inductive sval :=
| Plain (v : cval)
| Obj (o : gmap string cval).

Definition truthyS (v : option sval) : bool :=
  match v with
  | Some (Plain v) => truthy (Some v)
  | Some (Obj _) => true
  | None => false
  end.

(** The module's state: its two variables and [process.env]. *)
Record loader := {
  envLoaded : bool;
  redSettings : option (gmap string sval);
  env : gmap string cval
}.

(** [redSettings.get(key)] or [redSettings[key]]; without settings,
    [null]. *)
Definition getSettings (key : string) (st : loader) : option sval :=
  match redSettings st with
  | Some settings => settings !! key
  | None => None
  end.

Definition setSettings (settings : gmap string sval) (st : loader) : loader :=
  {| envLoaded := envLoaded st; redSettings := Some settings; env := env st |}.

(** The own enumerable properties that [{ ...v }] copies: those of an
    object, the characters of a string by index, none of another value. *)
Definition spread (v : sval) : gmap string cval :=
  match v with
  | Obj o => o
  | Plain (CStr s) =>
      list_to_map (imap (fun i c => (string_of_list_ascii (Serialize.showZ (Z.of_nat i)), CStr [c])) s)
  | Plain _ => ∅
  end.

Section Host.
(** [dotenv.config] reads a file into [process.env]; which file, and what
    it holds, is the host's.  [prompts] is the content of
    ai-prompts.json. *)
Variable dotenv_config : gmap string cval → gmap string cval.
Variable prompts : gmap string cval.

Definition loadEnv (st : loader) : loader :=
  if envLoaded st then st
  else
    let env1 := dotenv_config (env st) in
    let settingsPrompts :=
      if truthyS (getSettings "aiPrompts" st)
      then default ∅ (spread <$> getSettings "aiPrompts" st)
      else ∅ in
    {| envLoaded := true;
       redSettings := redSettings st;
       env := settingsPrompts ∪ (prompts ∪ env1) |}.

(** [getEnv(key, fallback)]: the value and the state afterwards. *)
Definition getEnv (key : string) (fallback : sval) (st : loader)
  : sval * loader :=
  let st' := loadEnv st in
  let value :=
    if truthyS (getSettings key st') then default fallback (getSettings key st')
    else if truthy (env st' !! key) then default fallback (Plain <$> env st' !! key)
    else fallback in
  (value, st').
End Host.

(** The state of a freshly loaded module in a process with environment
    [env]. *)
Definition fresh (env : gmap string cval) : loader :=
  {| envLoaded := false; redSettings := None; env := env |}.

(** *** Samples: the settings of the repository's loader test *)

Definition sampleSettings : gmap string sval :=
  <["aiPrompts" := Obj {[ "SAMPLE_PROMPT" := CStr (txt "from-settings") ]}]>
    (<["CUSTOM_KEY" := Plain (CStr (txt "from-settings"))]> ∅).

Definition samplePrompts : gmap string cval :=
  {[ "SAMPLE_PROMPT" := CStr (txt "bundled");
     "SYSTEM_PROMPT" := CStr (txt "You build flows.") ]}.

End Loader.

(** ** Prompt templates: [setPlaceholders] and [buildUserPrompt]
    (connector-utils.js) *)

Module Placeholders.
Local Open Scope char_scope.

(** [`{${key}}`].  Every key the repository passes is a word (letters,
    digits and underscores, starting with a letter), so that the pattern
    [new RegExp(placeholder, 'g')] has no special character -- a brace
    that does not open a quantifier stands for itself -- and matches the
    placeholder text and nothing else. *)
Definition placeholder (key : string) : text := "{" :: txt key ++ ["}"].

Definition isWordChar (c : ascii) : bool :=
  let n := nat_of_ascii c in
  ((65 <=? n) && (n <=? 90) || (97 <=? n) && (n <=? 122)
   || (48 <=? n) && (n <=? 57) || (n =? 95))%nat.

Definition isLetter (c : ascii) : bool :=
  let n := nat_of_ascii c in
  ((65 <=? n) && (n <=? 90) || (97 <=? n) && (n <=? 122))%nat.

Definition wordKey (key : string) : bool :=
  match txt key with
  | c :: rest => isLetter c && forallb isWordChar rest
  | [] => false
  end.

(** The replacement text of [String.prototype.replace] for a pattern
    without capture groups: [$$] is a dollar, [$&] the matched text, [$`]
    the text before the match, [$'] the text after it; any other dollar
    stands for itself. *)
Fixpoint expand (matched before after replacement : text) : text :=
  match replacement with
  | "$" :: rest =>
      match rest with
      | "$" :: rest' => "$" :: expand matched before after rest'
      | "&" :: rest' => matched ++ expand matched before after rest'
      | "`" :: rest' => before ++ expand matched before after rest'
      | "'" :: rest' => after ++ expand matched before after rest'
      | _ => "$" :: expand matched before after rest
      end
  | c :: rest => c :: expand matched before after rest
  | [] => []
  end.

(** [result.replace(new RegExp(placeholder, 'g'), value)]: the matches are
    found from left to right and do not overlap.  [before] is the text
    already passed; [skip] counts the characters of a match still to
    pass. *)
Fixpoint replaceFrom (pattern value before : text) (skip : nat) (s : text)
  : text :=
  match s with
  | [] => []
  | c :: rest =>
      match skip with
      | S skip' => replaceFrom pattern value (before ++ [c]) skip' rest
      | O =>
          if starts_with pattern s
          then expand pattern before (drop (length pattern) s) value
                 ++ replaceFrom pattern value (before ++ [c])
                      (length pattern - 1) rest
          else c :: replaceFrom pattern value (before ++ [c]) 0 rest
      end
  end.

Definition replaceAll (pattern value s : text) : text :=
  replaceFrom pattern value [] 0 s.

(** [setPlaceholders(prompt, values)]: [values] are the entries of the
    object in the order they were written, each value as the text
    [replace] turns it into.  The keys are words ([wordKey]), as all keys
    are that the repository passes: for such a key the pattern compiled
    from [{key}] is that literal text.  A key with pattern characters is
    compiled into another pattern and is not covered; the properties
    below are stated for word keys. *)
Definition setPlaceholders (prompt : text) (values : list (string * text))
  : text :=
  foldl (fun result kv => replaceAll (placeholder kv.1) kv.2 result)
        prompt values.

Section Host.
(** The two templates come from the configuration; the serialisation of
    the flow context is [Serialize.serializeFlowContext] on the host's
    [JSON.stringify] and numbers. *)
Context {node number : Type}.
Variable USER_PROMPT_TEMPLATE USER_PROMPT_WITH_CONTEXT : text.
Variable stringify : list node → text.
Variable ofInt : Z → number.
Variable divide multiply : number → number → number.
Variable floor : number → Z.

(** [context]: its nodes (an absent list is the empty one: both take the
    second branch) and its custom nodes as text. *)
Record context := {
  ctx_nodes : list node;
  ctx_customNodes : text
}.

Definition buildUserPrompt (prompt : text) (ctx : option context)
    (maxFlowContextChars : Z) : text :=
  match ctx with
  | Some c =>
      if (0 <? length (ctx_nodes c))%nat
      then
        let existingFlow :=
          Serialize.serializeFlowContext stringify ofInt divide multiply floor
            (ctx_nodes c) maxFlowContextChars in
        setPlaceholders USER_PROMPT_WITH_CONTEXT
          [("prompt"%string, prompt);
           ("nodeCount"%string,
            Serialize.showZ (Z.of_nat (length (ctx_nodes c))));
           ("existingFlow"%string, existingFlow);
           ("customNodes"%string, ctx_customNodes c)]
      else setPlaceholders USER_PROMPT_TEMPLATE [("prompt"%string, prompt)]
  | None => setPlaceholders USER_PROMPT_TEMPLATE [("prompt"%string, prompt)]
  end.
End Host.

End Placeholders.

(** ** The HTTP endpoints: [/ai/build-flow], [/ai/resync-node],
    [/ai/generate-description] and [summarized] (plugin entry point) *)

Module Endpoints.
Import Validate.

(** A field of a request body, as far as the handlers tell values
    apart: absent ([undefined] or [null]), a string, or another value
    with its truthiness. *)
Inductive field :=
| FAbsent
| FText (t : text)
| FOther (truthy : bool).

Definition truthyField (f : field) : bool :=
  match f with
  | FAbsent => false
  | FText t => negb (bool_decide (t = []))
  | FOther b => b
  end.

(** A stored custom node: its name, the keys of its schema ([None] when
    the schema is [undefined] or [null]) and its description. *)
Record customNode := {
  cn_name : text;
  cn_schema : option (list string);
  cn_description : text
}.

Record summary := {
  s_name : text;
  s_fields : list string
}.

(** [summarized()]: [None] when [Object.keys(n.schema)] throws. *)
Definition summarized (customNodes : list customNode) : option (list summary) :=
  mapM (fun n => (fun keys => {| s_name := cn_name n; s_fields := keys |})
                   <$> cn_schema n)
       customNodes.

(** The places where a handler can run into a [TypeError] of the host. *)
Inductive site :=
| NoBody            (* destructuring [req.body] *)
| NotAString        (* [.trim()] on a value that is not a string *)
| NoConnector       (* [connector.getConfig()] when no connector loaded *)
| NoObject          (* [.customNodes = ...] on [null] or [undefined] *)
| NoSchema          (* [Object.keys(n.schema)] *)
| NoObjectNoSchema. (* both at once: whichever the host raises first *)

Inductive completion (A : Type) :=
| Returned (a : A)
| Thrown (message : text).
Global Arguments Returned {A} a.
Global Arguments Thrown {A} message.

(** What is sent: the handler's own failure object with a status, or the
    connector's result as it is ([res.json(output)], status 200).  A
    result that says it succeeded is taken to carry its flow, as those of
    the repository's connectors do (the handler logs its length). *)
Inductive reply (R : Type) :=
| Failed (status : Z) (error : text)
| Passed (result : R).
Global Arguments Failed {R} status error.
Global Arguments Passed {R} result.

#[global] Instance fetch_eq_dec : EqDecision PackageInfo.fetch.
Proof. solve_decision. Defined.

(** A custom node as the client posts it. *)
Record postedNode := {
  pn_name : text;
  pn_schema : option (list string);
  pn_packageName : string
}.

(** What the custom-nodes endpoint leaves behind. *)
Record stored := {
  st_reply : reply unit;
  st_cache : gmap string text;
  st_customNodes : list customNode;
  st_requests : list PackageInfo.fetch
}.

(** [RED.httpAdmin.post('/ai/custom-nodes', ...)].  [nodes] is [None]
    when the body has no array under that key.  The lookups of
    [Promise.all] are started together: each reads the cache before any
    of them writes to it, and each write is the empty text under the
    name of a package that the cache did not hold. *)
Definition customNodesEndpoint (net : PackageInfo.network)
    (nodes : option (list postedNode)) (packageInfoCache : gmap string text)
    (customNodes : list customNode) : stored :=
  match nodes with
  | None =>
      {| st_reply := Failed 400 (txt "nodes must be an array");
         st_cache := packageInfoCache;
         st_customNodes := customNodes;
         st_requests := [] |}
  | Some nodes =>
      let lookup n := PackageInfo.packageInfo net (pn_packageName n) packageInfoCache in
      {| st_reply := Passed tt;
         st_cache :=
           foldl (fun cache n =>
                    if PackageInfo.truthyText
                         (default [] (packageInfoCache !! pn_packageName n))
                    then cache else <[pn_packageName n := []]> cache)
                 packageInfoCache nodes;
         st_customNodes :=
           (fun n => {| cn_name := pn_name n; cn_schema := pn_schema n;
                        cn_description := (lookup n).1.1 |}) <$> nodes;
         st_requests := concat ((fun n => (lookup n).2) <$> nodes) |}
  end.

(** The calls a handler makes on the connector. *)
Inductive call :=
| GetConfig
| ValidateConfig
| GenerateFlow
| ResyncNode
| GenerateDescription.

Section Handlers.
(** [C] is what a context or a node configuration holds, [R] what a
    connector method resolves to.  The connector's methods are taken as
    they are; an asynchronous one may reject. *)
Context {C R : Type}.
Variable typeErrorMessage : site → text.

Record connector := {
  getConfig : gmap string cval;
  validateConfig : gmap string cval → validation;
  generateFlow : text → option C → list summary → completion R;
  resyncNode : field → field → text → C → list summary → field → completion R;
  generateDescription : field → field → C → field → completion R
}.

(** [e.message || 'Internal server error'] *)
Definition caught (message : text) : reply R :=
  Failed 500 (if bool_decide (message = []) then txt "Internal server error"
              else message).

Definition notConfigured (v : validation) : reply R :=
  Failed 500 (txt "AI not configured: " ++ join (txt ", ") (errors v)).

(** The [context] of a build-flow request: left out (the default [{}]),
    [null], or an object. *)
Inductive contextField :=
| CtxDefault
| CtxNull
| CtxObject (c : C).

Record buildFlowBody := {
  bf_prompt : field;
  bf_context : contextField
}.

(** [RED.httpAdmin.post('/ai/build-flow', ...)]. *)
Definition buildFlow (conn : option connector) (customNodes : list customNode)
    (body : option buildFlowBody) : reply R * list call :=
  match body with
  | None => (caught (typeErrorMessage NoBody), [])
  | Some b =>
      match bf_prompt b with
      | FAbsent | FOther false => (Failed 400 (txt "Prompt is required"), [])
      | FOther true => (caught (typeErrorMessage NotAString), [])
      | FText prompt =>
          if bool_decide (prompt = []) || bool_decide (Parse.trim prompt = [])
          then (Failed 400 (txt "Prompt is required"), [])
          else
            match conn with
            | None => (caught (typeErrorMessage NoConnector), [])
            | Some connector =>
                let aiConfig := getConfig connector in
                let validation := validateConfig connector aiConfig in
                if negb (valid validation)
                then (notConfigured validation, [GetConfig; ValidateConfig])
                else
                  match bf_context b, summarized customNodes with
                  | CtxNull, None =>
                      (caught (typeErrorMessage NoObjectNoSchema),
                       [GetConfig; ValidateConfig])
                  | CtxNull, Some _ =>
                      (caught (typeErrorMessage NoObject),
                       [GetConfig; ValidateConfig])
                  | _, None =>
                      (caught (typeErrorMessage NoSchema),
                       [GetConfig; ValidateConfig])
                  | ctx, Some nodes =>
                      let context := match ctx with
                                     | CtxObject c => Some c
                                     | _ => None
                                     end in
                      (match generateFlow connector prompt context nodes with
                       | Returned result => Passed result
                       | Thrown message => caught message
                       end,
                       [GetConfig; ValidateConfig; GenerateFlow])
                  end
            end
      end
  end.

Record resyncBody := {
  rs_nodeId : field;
  rs_nodeType : field;
  rs_nodeName : field;
  rs_info : field;
  rs_currentConfig : option C
}.

(** [RED.httpAdmin.post('/ai/resync-node', ...)]. *)
Definition resyncNodeEndpoint (conn : option connector)
    (customNodes : list customNode) (body : option resyncBody)
  : reply R * list call :=
  match body with
  | None => (caught (typeErrorMessage NoBody), [])
  | Some b =>
      if negb (truthyField (rs_nodeId b)) || negb (truthyField (rs_info b))
      then (Failed 400 (txt "Node ID and info are required"), [])
      else
        match rs_info b with
        | FAbsent => (Failed 400 (txt "Node ID and info are required"), [])
        | FOther _ => (caught (typeErrorMessage NotAString), [])
        | FText info =>
            if bool_decide (Parse.trim info = [])
            then (Failed 400 (txt "Node ID and info are required"), [])
            else
              match conn with
              | None => (caught (typeErrorMessage NoConnector), [])
              | Some connector =>
                  let aiConfig := getConfig connector in
                  let validation := validateConfig connector aiConfig in
                  if negb (valid validation)
                  then (notConfigured validation, [GetConfig; ValidateConfig])
                  else
                    match rs_currentConfig b, summarized customNodes with
                    | None, None =>
                        (caught (typeErrorMessage NoObjectNoSchema),
                         [GetConfig; ValidateConfig])
                    | None, Some _ =>
                        (caught (typeErrorMessage NoObject),
                         [GetConfig; ValidateConfig])
                    | _, None =>
                        (caught (typeErrorMessage NoSchema),
                         [GetConfig; ValidateConfig])
                    | Some currentConfig, Some nodes =>
                        (match resyncNode connector (rs_nodeId b) (rs_nodeType b)
                                 info currentConfig nodes (rs_nodeName b) with
                         | Returned result => Passed result
                         | Thrown message => caught message
                         end,
                         [GetConfig; ValidateConfig; ResyncNode])
                    end
              end
        end
  end.

Record describeBody := {
  gd_nodeId : field;
  gd_nodeType : field;
  gd_nodeName : field;
  gd_currentConfig : option C
}.

(** [RED.httpAdmin.post('/ai/generate-description', ...)].  A
    configuration that is present is taken to be an object. *)
Definition generateDescriptionEndpoint (conn : option connector)
    (body : option describeBody) : reply R * list call :=
  match body with
  | None => (caught (typeErrorMessage NoBody), [])
  | Some b =>
      match truthyField (gd_nodeId b), gd_currentConfig b with
      | true, Some currentConfig =>
          match conn with
          | None => (caught (typeErrorMessage NoConnector), [])
          | Some connector =>
              let aiConfig := getConfig connector in
              let validation := validateConfig connector aiConfig in
              if negb (valid validation)
              then (notConfigured validation, [GetConfig; ValidateConfig])
              else
                (match generateDescription connector (gd_nodeId b)
                         (gd_nodeType b) currentConfig (gd_nodeName b) with
                 | Returned result => Passed result
                 | Thrown message => caught message
                 end,
                 [GetConfig; ValidateConfig; GenerateDescription])
          end
      | _, _ => (Failed 400 (txt "Node ID and config are required"), [])
      end
  end.
End Handlers.

(** *** A sample connector: validation as the Azure connector does it,
    methods that echo their input. *)

Definition sampleMessages (s : site) : text :=
  match s with
  | NoBody => txt "Cannot destructure property 'prompt' of 'req.body' as it is undefined."
  | NotAString => txt "prompt.trim is not a function"
  | NoConnector => txt "Cannot read properties of undefined (reading 'getConfig')"
  | NoObject => txt "Cannot set properties of null (setting 'customNodes')"
  | NoSchema => txt "Cannot convert undefined or null to object"
  | NoObjectNoSchema => txt "Cannot convert undefined or null to object"
  end.

Definition echoConnector (config : gmap string cval) : @connector unit text :=
  {| getConfig := config;
     validateConfig := Validate.validateConfig AzureOpenAI;
     generateFlow := fun prompt _ _ => Returned prompt;
     resyncNode := fun _ _ info _ _ _ => Returned info;
     generateDescription := fun _ _ _ _ => Thrown [] |}.

Definition azureConfig : gmap string cval :=
  <["endpoint" := CStr (txt "https://example.com")]>
    (<["apiKey" := CStr (txt "key")]>
       (<["deploymentName" := CStr (txt "deploy")]> ∅)).

End Endpoints.

(** ** The result of [generateFlow] (openai-connector-node.js and its
    siblings): from the settled request to the [output] object *)

Module Generate.
Import Parse.

(** What [axios.post] rejects with, as the [catch] block reads it. *)
Inductive rejection :=
| WithResponse (status : Z) (message : text)
    (* [e.response] is set; [message] is
       [e.response.data?.error?.message], empty when there is none *)
| WithRequest
    (* no response, [e.request] is set *)
| Other (message : text).
    (* neither; [e.message], empty when there is none *)

(** What reading the content out of the response gives: a [TypeError] of
    the host (no [data], no [choices], a content that is not a string),
    nothing ([undefined], [null], no first choice), or a string. *)
Inductive reading :=
| Unreadable (message : text)
| NoContent
| Content (content : text).

Inductive exchange :=
| Rejected (e : rejection)
| Answered (r : reading).

(** [output], without the metadata. *)
Record output := {
  success : bool;
  flow : Json.value;
  flowName : option Json.value;   (* [None]: the key was not set *)
  error : text
}.

(** [parsed[key]] for a parsed value that is not [null]: the last member
    of that name of an object, [undefined] otherwise. *)
Definition property (key : text) (parsed : Json.value) : option Json.value :=
  match parsed with
  | Json.Object members =>
      snd <$> last (filter (fun kv => kv.1 = key) members)
  | _ => None
  end.

Section Host.
(** [JSON.parse] and the message of the [TypeError] raised by reading a
    property of [null] are the host's.  The members of a parsed object
    carry their names as [parsed[key]] finds them. *)
Variable JSON_parse : text → option Json.value.
Variable nullMessage : text.
(** Whether the number a literal denotes is zero (the literal is turned
    into a double by the host). *)
Variable isZero : text → bool.

(** Truthiness of a parsed value. *)
Definition truthyValue (v : Json.value) : bool :=
  match v with
  | Json.Null => false
  | Json.Bool b => b
  | Json.Number literal => negb (isZero literal)
  | Json.String raw => negb (bool_decide (raw = []))
  | Json.Array _ | Json.Object _ => true
  end.

(** [parsed[key] || fallback] *)
Definition propertyOr (key : text) (fallback : Json.value)
    (parsed : Json.value) : Json.value :=
  match property key parsed with
  | Some v => if truthyValue v then v else fallback
  | None => fallback
  end.

(** [a || b] on messages. *)
Definition orMessage (a b : text) : text :=
  if bool_decide (a = []) then b else a.

Definition failed (error : text) : output :=
  {| success := false; flow := Json.Array []; flowName := None;
     error := error |}.

(** The [catch] block. *)
Definition caughtError (fallback : text) (e : rejection) : text :=
  match e with
  | WithResponse status message =>
      orMessage message (txt "HTTP " ++ Serialize.showZ status)
  | WithRequest => txt "No response from server - check network connection"
  | Other message => orMessage message fallback
  end.

(** [generateFlow], from the settled request on.  When the reply parses
    to [null], [output.success] is already set when reading
    [parsed.flow] throws. *)
Definition generateFlow (x : exchange) : output :=
  match x with
  | Rejected e => failed (caughtError (txt "Failed to generate flow") e)
  | Answered (Unreadable message) =>
      failed (caughtError (txt "Failed to generate flow") (Other message))
  | Answered NoContent => failed (txt "No content in response")
  | Answered (Content content) =>
      match parseFlowReply JSON_parse content with
      | Failure error => failed error
      | Parsed Json.Null =>
          {| success := true; flow := Json.Array [];
             flowName := None;
             error := caughtError (txt "Failed to generate flow")
                        (Other nullMessage) |}
      | Parsed parsed =>
          {| success := true;
             flow := propertyOr (txt "flow") (Json.Array []) parsed;
             flowName :=
               Some (propertyOr (txt "flowName") (Json.String []) parsed);
             error := [] |}
      end
  end.
End Host.

(** Whether a literal denotes zero, for literals that are not rounded to
    zero: no digit but 0 before the exponent. *)
Fixpoint isZeroLiteral (literal : text) : bool :=
  match literal with
  | [] => true
  | c :: rest =>
      if bool_decide (c = "e"%char) || bool_decide (c = "E"%char) then true
      else (negb (Json.isDigit c) || bool_decide (c = "0"%char))
           && isZeroLiteral rest
  end.

End Generate.

(** ** The prompt sidebar: intent detection and the request of
    [handlePromptSubmit] (ai-prompt-sidebar.js) *)

Module Sidebar.

(** The canonical form under which a pattern with the [i] flag compares
    characters: the upper-case letter of a lower-case one.  (Characters
    outside ASCII never compare equal to an ASCII letter, and the patterns
    below hold ASCII letters only.) *)
Definition canonical (c : ascii) : ascii :=
  let n := nat_of_ascii c in
  if ((97 <=? n) && (n <=? 122))%nat then ascii_of_nat (n - 32) else c.

(** One alternative of the pattern at the start of [s]. *)
Fixpoint matchesWord (word s : text) : bool :=
  match word, s with
  | [], _ => true
  | w :: word', c :: s' =>
      bool_decide (canonical w = canonical c) && matchesWord word' s'
  | _ :: _, [] => false
  end.

Definition isWord (c : option ascii) : bool :=
  match c with
  | Some c => Placeholders.isWordChar c
  | None => false
  end.

(** [\b] between the character before and the character after. *)
Definition boundary (prev next : option ascii) : bool :=
  xorb (isWord prev) (isWord next).

(** [\b(w1|w2|...)\b] at one position: the alternatives in their order,
    one whose closing [\b] fails giving way to the next. *)
Definition matchAt (words : list text) (prev : option ascii) (s : text) : bool :=
  boundary prev (head s) &&
  existsb (fun word =>
             matchesWord word s &&
             boundary (last (take (length word) s)) (head (drop (length word) s)))
          words.

(** [RegExp.prototype.test]: some position matches. *)
Fixpoint testFrom (words : list text) (prev : option ascii) (s : text) : bool :=
  matchAt words prev s ||
  match s with
  | [] => false
  | c :: rest => testFrom words (Some c) rest
  end.

Definition createWords : list text :=
  [txt "create"; txt "build"; txt "make"; txt "generate"; txt "new"].

Definition updateWords : list text :=
  [txt "add"; txt "update"; txt "modify"; txt "change"; txt "append";
   txt "insert"].

Definition createIntent (prompt : text) : bool := testFrom createWords None prompt.
Definition updateIntent (prompt : text) : bool := testFrom updateWords None prompt.

Definition shouldCreateNewTab (prompt : text) : bool :=
  createIntent prompt && negb (updateIntent prompt).

(** [w] is [word] up to the case of its letters. *)
Definition sameWord (w word : text) : Prop :=
  canonical <$> w = canonical <$> word.

(** The character before position [|pre|] of [pre ++ rest], when [prev]
    stands before [pre]. *)
Definition before (prev : option ascii) (pre : text) : option ascii :=
  match last pre with
  | Some c => Some c
  | None => prev
  end.

(** The body of the request to [/ai/build-flow]. *)
Record request := {
  rq_prompt : text;
  rq_context : option (list Merge.node)
}.

(** [handlePromptSubmit] up to [httpClient.post]: the request it sends,
    if it sends one.  [input] is the content of the text area,
    [currentFlow] the complete node set, [axios] whether [window.axios]
    is there. *)
Definition submission (input : text) (currentTab : string)
    (currentFlow : list Merge.node) (axios : bool) : option request :=
  let prompt := Parse.trim input in
  if bool_decide (prompt = []) then None
  else
    let currentTabNodes :=
      filter (fun n => Merge.type n ≠ "tab" ∧ Merge.type n ≠ "subflow"
                       ∧ Merge.z n = currentTab)
             currentFlow in
    let hasNodes := (0 <? length currentTabNodes)%nat in
    if axios
    then Some {| rq_prompt := prompt;
                 rq_context := if hasNodes && negb (shouldCreateNewTab prompt)
                               then Some currentTabNodes else None |}
    else None.

End Sidebar.

(* ===================================================================== *)
(** * Part II.  The properties                                            *)
(* ===================================================================== *)

(** ** validateConfig *)

Section ValidateFacts.
Import Validate.

Lemma occurs_in_refl (s : text) : occurs_in s s.
Proof. exists [], []. by rewrite app_nil_r. Qed.

Lemma occurs_in_app_r (n a b : text) : occurs_in n b → occurs_in n (a ++ b).
Proof.
  intros (pre & post & ->). exists (a ++ pre), post. by rewrite <- app_assoc.
Qed.

Lemma occurs_in_app_l (n a b : text) : occurs_in n a → occurs_in n (a ++ b).
Proof.
  intros (pre & post & ->). exists pre, (post ++ b).
  by rewrite <- !app_assoc.
Qed.

Lemma join_occurs (sep x : text) (l : list text) :
  x ∈ l → occurs_in x (join sep l).
Proof.
  induction l as [|y l IH]; [by intros ?%elem_of_nil|].
  intros [->|Hin]%elem_of_cons.
  - destruct l as [|z l]; simpl; [apply occurs_in_refl|].
    apply occurs_in_app_l, occurs_in_refl.
  - destruct l as [|z l]; [by apply elem_of_nil in Hin|].
    change (join sep (y :: z :: l)) with (y ++ sep ++ join sep (z :: l)).
    by apply occurs_in_app_r, occurs_in_app_r, IH.
Qed.

Lemma missing_fields_spec c config f :
  f ∈ missing_fields c config ↔ f ∈ required c ∧ truthy (config !! f) = false.
Proof.
  unfold missing_fields. rewrite !list_elem_of_In, List.filter_In.
  by rewrite negb_true_iff.
Qed.

Lemma missing_fields_nil c config :
  (∀ f, f ∈ required c → truthy (config !! f) = true) →
  missing_fields c config = [].
Proof.
  intros Hall. destruct (missing_fields c config) as [|f l] eqn:E; [done|].
  assert (f ∈ missing_fields c config) as Hf by (rewrite E; left).
  apply missing_fields_spec in Hf as [Hr Hf]. rewrite (Hall f Hr) in Hf. done.
Qed.

Lemma validateConfig_invalid c config f :
  f ∈ required c → truthy (config !! f) = false →
  ∃ msg, validateConfig c config = {| valid := false; errors := [msg] |}
         ∧ ∀ g, g ∈ required c → truthy (config !! g) = false →
                occurs_in (txt g) msg.
Proof.
  intros Hr Hf. unfold validateConfig.
  assert (f ∈ missing_fields c config) as Hm by by apply missing_fields_spec.
  destruct (missing_fields c config) as [|m0 ms] eqn:E;
    [by apply elem_of_nil in Hm|].
  cbn [length]. replace (0 <? Z.of_nat (S (length ms))) with true
    by (symmetry; apply Z.ltb_lt; lia).
  eexists; split; [reflexivity|].
  intros g Hg Hgf. apply occurs_in_app_r, join_occurs.
  apply list_elem_of_fmap. exists g; split; [done|].
  rewrite <- E. by apply missing_fields_spec.
Qed.

(** C7.  For each of the four provider connectors: on the empty
    configuration [validateConfig] answers [valid = false] with a non-empty
    [errors] list in which every required field name occurs; on any
    configuration every required field that is missing occurs in the
    errors (no stop at the first one); and when all required fields are
    present (truthy) the answer is [valid = true] with [errors = []]. *)
Theorem validateConfig_complete (c : connector) :
  (valid (validateConfig c ∅) = false
   ∧ errors (validateConfig c ∅) ≠ []
   ∧ ∀ f, f ∈ required c →
       ∃ e, e ∈ errors (validateConfig c ∅) ∧ occurs_in (txt f) e)
  ∧ (∀ config f, f ∈ required c → truthy (config !! f) = false →
       valid (validateConfig c config) = false
       ∧ ∀ g, g ∈ required c → truthy (config !! g) = false →
           ∃ e, e ∈ errors (validateConfig c config) ∧ occurs_in (txt g) e)
  ∧ (∀ config, (∀ f, f ∈ required c → truthy (config !! f) = true) →
       validateConfig c config = {| valid := true; errors := [] |}).
Proof.
  assert (∃ f0, f0 ∈ required c) as [f0 Hf0]
    by (destruct c; eexists; left).
  split; [|split].
  - destruct (validateConfig_invalid c ∅ f0 Hf0) as (msg & E & Hall);
      [by rewrite lookup_empty|].
    rewrite E; simpl. split; [done|]. split; [done|].
    intros f Hf. exists msg. split; [left|].
    apply Hall; [done|]. by rewrite lookup_empty.
  - intros config f Hf Hmiss.
    destruct (validateConfig_invalid c config f Hf Hmiss) as (msg & E & Hall).
    rewrite E; simpl. split; [done|].
    intros g Hg Hgm. exists msg. split; [left | by apply Hall].
  - intros config Hall. unfold validateConfig.
    by rewrite (missing_fields_nil c config Hall).
Qed.

Lemma validateConfig_complete_witness :
  validateConfig AzureOpenAI
    (<["endpoint" := CStr (txt "https://example.com")]>
       (<["apiKey" := CStr (txt "key")]>
          (<["deploymentName" := CStr (txt "deploy")]> ∅)))
  = {| valid := true; errors := [] |}.
Proof.
  apply (proj2 (proj2 (validateConfig_complete AzureOpenAI))).
  intros f Hf. simpl in Hf.
  repeat (apply elem_of_cons in Hf as [->|Hf]; [by vm_compute|]).
  by apply elem_of_nil in Hf.
Defined.

End ValidateFacts.

(** ** The retry controller *)

Section RetryFacts.
Import Retry.
Context {A : Type}.
Implicit Types (requestFn : nat → outcome A) (r : response).

Lemma retryLoop_429 requestFn remaining calls r :
  requestFn calls = Rejected (HttpError r) → status r = 429 →
  retryLoop requestFn (S remaining) calls =
    ((retryLoop requestFn remaining (S calls)).1,
     Call :: backoff r ++ (retryLoop requestFn remaining (S calls)).2).
Proof.
  intros Hf Hs. cbn [retryLoop]. rewrite Hf, Hs. cbn.
  by destruct (retryLoop requestFn remaining (S calls)).
Qed.

Lemma retryLoop_other requestFn remaining calls e :
  requestFn calls = Rejected e → is429 e = false →
  retryLoop requestFn (S remaining) calls = (Rejected e, [Call]).
Proof.
  intros Hf He. cbn [retryLoop]. rewrite Hf.
  destruct e as [r|m]; [|done]. cbn in He. by rewrite He.
Qed.

Lemma callCount_cons_backoff r effs :
  callCount (Call :: backoff r ++ effs) = S (callCount effs).
Proof. reflexivity. Qed.

(** All invocations rate-limited: the loop gives up after as many calls
    as it had attempts left. *)
Lemma retryLoop_exhausted requestFn remaining calls :
  (∀ k, rateLimitedAt requestFn k) →
  (retryLoop requestFn remaining calls).1 = Rejected maxRetriesError
  ∧ callCount (retryLoop requestFn remaining calls).2 = remaining.
Proof.
  intros Hall. revert calls.
  induction remaining as [|n IH]; intros calls; [done|].
  destruct (Hall calls) as (r & Hf & Hs).
  rewrite (retryLoop_429 _ _ _ _ Hf Hs). cbn [fst snd].
  destruct (IH (S calls)) as [-> Hc].
  split; [done|]. by rewrite callCount_cons_backoff, Hc.
Qed.

(** The first failure that is not a rate limit, at invocation
    [calls + k], ends the loop there. *)
Lemma retryLoop_propagates requestFn remaining calls k e :
  (k < remaining)%nat →
  (∀ j, (j < k)%nat → rateLimitedAt requestFn (calls + j)) →
  requestFn (calls + k)%nat = Rejected e → is429 e = false →
  (retryLoop requestFn remaining calls).1 = Rejected e
  ∧ callCount (retryLoop requestFn remaining calls).2 = S k
  ∧ last (retryLoop requestFn remaining calls).2 = Some Call.
Proof.
  revert calls k. induction remaining as [|n IH]; intros calls k Hk Hpre Hf He;
    [lia|].
  destruct k as [|k].
  - rewrite Nat.add_0_r in Hf. by rewrite (retryLoop_other _ _ _ _ Hf He).
  - destruct (Hpre 0%nat) as (r & Hr & Hs); [lia|].
    rewrite Nat.add_0_r in Hr.
    rewrite (retryLoop_429 _ _ _ _ Hr Hs). cbn [fst snd].
    destruct (IH (S calls) k) as (-> & Hc & Hl); [lia| | |done|].
    + intros j Hj. replace (S calls + j)%nat with (calls + S j)%nat by lia.
      apply Hpre. lia.
    + by replace (S calls + k)%nat with (calls + S k)%nat by lia.
    + split; [done|]. split; [by rewrite callCount_cons_backoff, Hc|].
      destruct (retryLoop requestFn n (S calls)).2 as [|x l] eqn:E; [done|].
      cbn. cbn in Hl. done.
Qed.

(** A rate-limited invocation [calls + k] is followed by its backoff. *)
Lemma retryLoop_backoff requestFn remaining calls k r :
  (k < remaining)%nat →
  (∀ j, (j < k)%nat → rateLimitedAt requestFn (calls + j)) →
  requestFn (calls + k)%nat = Rejected (HttpError r) → status r = 429 →
  ∃ pre post,
    (retryLoop requestFn remaining calls).2 = pre ++ Call :: backoff r ++ post
    ∧ callCount pre = k.
Proof.
  revert calls k. induction remaining as [|n IH]; intros calls k Hk Hpre Hf Hs;
    [lia|].
  destruct k as [|k].
  - rewrite Nat.add_0_r in Hf. rewrite (retryLoop_429 _ _ _ _ Hf Hs).
    by exists [], (retryLoop requestFn n (S calls)).2.
  - destruct (Hpre 0%nat) as (r0 & Hr & Hs0); [lia|].
    rewrite Nat.add_0_r in Hr.
    rewrite (retryLoop_429 _ _ _ _ Hr Hs0). cbn [snd].
    destruct (IH (S calls) k) as (pre & post & -> & Hc); [lia| | |done|].
    + intros j Hj. replace (S calls + j)%nat with (calls + S j)%nat by lia.
      apply Hpre. lia.
    + by replace (S calls + k)%nat with (calls + S k)%nat by lia.
    + exists (Call :: backoff r0 ++ pre), post. split.
      * by rewrite <- app_comm_cons, <- app_assoc.
      * change (callCount ((Call :: backoff r0) ++ pre) = S k).
        unfold callCount in *. rewrite List.filter_app, length_app.
        cbn. by rewrite Hc.
Qed.

End RetryFacts.

(** Which of the three fields the hint is read from. *)
Lemma retryAfterSeconds_header (r : Retry.response) h :
  Retry.header_retry_after r = Retry.HNum h → Retry.retryAfterSeconds r = h.
Proof. unfold Retry.retryAfterSeconds. by intros ->. Qed.

Lemma retryAfterSeconds_body (r : Retry.response) :
  Retry.nullish (Retry.header_retry_after r) →
  Retry.retryAfterSeconds r
  = Retry.toNumber (Retry.nullish_or (Retry.data_retryAfter r)
                      (Retry.data_retry_after r)).
Proof. unfold Retry.retryAfterSeconds. by intros [-> | ->]. Qed.

Lemma waitMs_finite (r : Retry.response) :
  Retry.isFinite (Retry.retryAfterSeconds r) = true →
  Retry.waitMs r = (Retry.retryAfterSeconds r * 1000 + 1000)%float.
Proof. unfold Retry.waitMs. by intros ->. Qed.

Lemma waitMs_default (r : Retry.response) :
  Retry.isFinite (Retry.retryAfterSeconds r) = false →
  Retry.waitMs r = 2000%float.
Proof. unfold Retry.waitMs. by intros ->. Qed.

(** C4, as the code has it.  The hint is the number that [Number] makes
    of the retry-after header when the header is there, else of the
    body's [retryAfter] when that is there, else of its [retry_after];
    fields are passed over only when they are [undefined] or [null].
    When that number [h] is finite the wait is [h * 1000 + 1000]
    milliseconds, in the arithmetic of doubles; when it is not -- nothing
    is there at all, or the value read is not numeric -- the wait is 2000
    milliseconds.  So a header that is there but not numeric hides a
    hint in the body, and a [retry_after] of [null] with nothing before
    it counts as zero seconds.  In a run of the controller the
    rate-limited invocation number [k] is followed by the waiting status,
    the notification, a sleep of exactly that length and the syncing
    status. *)
Theorem retry_wait_duration :
  (∀ r h, Retry.header_retry_after r = Retry.HNum h →
     (Retry.isFinite h = true → Retry.waitMs r = (h * 1000 + 1000)%float)
     ∧ (Retry.isFinite h = false → Retry.waitMs r = 2000%float))
  ∧ (∀ r h, Retry.nullish (Retry.header_retry_after r) →
       Retry.data_retryAfter r = Retry.HNum h →
       (Retry.isFinite h = true → Retry.waitMs r = (h * 1000 + 1000)%float)
       ∧ (Retry.isFinite h = false → Retry.waitMs r = 2000%float))
  ∧ (∀ r, Retry.nullish (Retry.header_retry_after r) →
       Retry.nullish (Retry.data_retryAfter r) →
       (∀ h, Retry.data_retry_after r = Retry.HNum h →
          (Retry.isFinite h = true → Retry.waitMs r = (h * 1000 + 1000)%float)
          ∧ (Retry.isFinite h = false → Retry.waitMs r = 2000%float))
       ∧ (Retry.data_retry_after r = Retry.HUndefined →
          Retry.waitMs r = 2000%float)
       ∧ (Retry.data_retry_after r = Retry.HNull →
          Retry.waitMs r = 1000%float))
  ∧ (∀ (A : Type) (requestFn : nat → Retry.outcome A) k r,
       (k < 10)%nat →
       (∀ j, (j < k)%nat → Retry.rateLimitedAt requestFn j) →
       requestFn k = Retry.Rejected (Retry.HttpError r) →
       Retry.status r = 429 →
       ∃ pre post,
         (Retry.with429Retry requestFn).2 =
           pre ++ Retry.Call ::
             [Retry.SetNodeSyncStatus Retry.Waiting;
              Retry.Notify (Retry.waitSeconds r);
              Retry.Sleep (Retry.waitMs r);
              Retry.SetNodeSyncStatus Retry.Syncing] ++ post
         ∧ Retry.callCount pre = k).
Proof.
  assert (∀ r h, Retry.retryAfterSeconds r = h →
            (Retry.isFinite h = true → Retry.waitMs r = (h * 1000 + 1000)%float)
            ∧ (Retry.isFinite h = false → Retry.waitMs r = 2000%float)) as Hwait.
  { intros r h <-. split; [apply waitMs_finite|apply waitMs_default]. }
  split; [|split; [|split]].
  - intros r h Hh. by apply Hwait, retryAfterSeconds_header.
  - intros r h Hn Hb. apply Hwait.
    rewrite (retryAfterSeconds_body r Hn). by rewrite Hb.
  - intros r Hn Hb.
    assert (Retry.retryAfterSeconds r = Retry.toNumber (Retry.data_retry_after r))
      as Hs.
    { rewrite (retryAfterSeconds_body r Hn). by destruct Hb as [-> | ->]. }
    split; [|split].
    + intros h Hh. apply Hwait. by rewrite Hs, Hh.
    + intros Hu. apply waitMs_default. by rewrite Hs, Hu.
    + intros Hu. rewrite waitMs_finite; by rewrite Hs, Hu.
  - intros A requestFn k r Hk Hpre Hf Hs.
    apply (retryLoop_backoff requestFn 10 0 k r Hk); done.
Qed.

Lemma retry_wait_duration_witness :
  ∃ pre post,
    (Retry.with429Retry Retry.limitedOnce).2 =
      pre ++ Retry.Call ::
        [Retry.SetNodeSyncStatus Retry.Waiting;
         Retry.Notify
           (Retry.waitSeconds
              (Retry.limitedResponse (Retry.HNum 3) Retry.HUndefined));
         Retry.Sleep
           (Retry.waitMs
              (Retry.limitedResponse (Retry.HNum 3) Retry.HUndefined));
         Retry.SetNodeSyncStatus Retry.Syncing] ++ post
    ∧ Retry.callCount pre = 0%nat.
Proof.
  apply (proj2 (proj2 (proj2 retry_wait_duration)) text Retry.limitedOnce 0%nat
           (Retry.limitedResponse (Retry.HNum 3) Retry.HUndefined)).
  - lia.
  - intros j Hj. lia.
  - reflexivity.
  - reflexivity.
Defined.

(** The waits of the sample responses: a header of three seconds, a
    hint of a second and a half, an HTTP date in the header over a body
    hint of five seconds, and [retry_after: null]. *)
Example retry_wait_samples :
  Retry.waitMs (Retry.limitedResponse (Retry.HNum 3) Retry.HUndefined)
  = 4000%float
  ∧ Retry.waitSeconds (Retry.limitedResponse (Retry.HNum 3) Retry.HUndefined)
    = 4%float
  ∧ Retry.waitMs Retry.fractionHint = 2500%float
  ∧ Retry.waitSeconds Retry.fractionHint = 3%float
  ∧ Retry.waitMs Retry.dateHeader = 2000%float
  ∧ Retry.waitMs Retry.nullHint = 1000%float.
Proof. by vm_compute. Qed.

(** C4 as the specification writes it fails when the server gives no hint:
    the code waits two seconds, the formula with [?? 0] gives one. *)
Lemma retry_wait_without_hint :
  Retry.status Retry.noHint = 429
  ∧ Retry.header_retry_after Retry.noHint = Retry.HUndefined
  ∧ Retry.data_retryAfter Retry.noHint = Retry.HUndefined
  ∧ Retry.data_retry_after Retry.noHint = Retry.HUndefined
  ∧ Retry.waitMs Retry.noHint = 2000%float
  ∧ Retry.specifiedWaitMs None = 1000%float
  ∧ Retry.waitMs Retry.noHint ≠ Retry.specifiedWaitMs None.
Proof.
  repeat split; try reflexivity.
  intros H. apply (f_equal Prim2SF) in H. vm_compute in H. discriminate.
Qed.

(** C5.  When every invocation is rate-limited the wrapper rejects with the
    "Maximum retry attempts reached due to rate limiting" error after
    exactly ten invocations.  A rejection that is not a rate limit, at
    invocation [k] after [k] rate-limited ones, is rejected to the caller
    as it is, after [k + 1] invocations: the call that failed is the last
    thing the wrapper did. *)
Theorem retry_ceiling :
  ∀ (A : Type) (requestFn : nat → Retry.outcome A),
    ((∀ k, Retry.rateLimitedAt requestFn k) →
       (Retry.with429Retry requestFn).1 = Retry.Rejected Retry.maxRetriesError
       ∧ Retry.callCount (Retry.with429Retry requestFn).2 = 10%nat
       ∧ Retry.maxRetriesError =
           Retry.PlainError
             (txt "Maximum retry attempts reached due to rate limiting"))
    ∧ (∀ k e, (k < 10)%nat →
         (∀ j, (j < k)%nat → Retry.rateLimitedAt requestFn j) →
         requestFn k = Retry.Rejected e → Retry.is429 e = false →
         (Retry.with429Retry requestFn).1 = Retry.Rejected e
         ∧ Retry.callCount (Retry.with429Retry requestFn).2 = S k
         ∧ last (Retry.with429Retry requestFn).2 = Some Retry.Call).
Proof.
  intros A requestFn. split.
  - intros Hall.
    destruct (retryLoop_exhausted requestFn 10 0 Hall) as [H1 H2].
    by repeat split.
  - intros k e Hk Hpre Hf He.
    by apply (retryLoop_propagates requestFn 10 0 k e).
Qed.

Lemma retry_ceiling_witness :
  ((Retry.with429Retry Retry.alwaysLimited).1 = Retry.Rejected Retry.maxRetriesError
   ∧ Retry.callCount (Retry.with429Retry Retry.alwaysLimited).2 = 10%nat
   ∧ Retry.maxRetriesError =
       Retry.PlainError (txt "Maximum retry attempts reached due to rate limiting"))
  ∧ ((Retry.with429Retry Retry.alwaysFailing).1
       = Retry.Rejected Retry.serverError
     ∧ Retry.callCount
         (Retry.with429Retry Retry.alwaysFailing).2
       = 1%nat
     ∧ last (Retry.with429Retry Retry.alwaysFailing).2
       = Some Retry.Call).
Proof.
  split.
  - apply (proj1 (retry_ceiling text Retry.alwaysLimited)).
    intros k. eexists. split; reflexivity.
  - apply (proj2 (retry_ceiling text Retry.alwaysFailing)
             0%nat Retry.serverError).
    + lia.
    + intros j Hj. lia.
    + reflexivity.
    + reflexivity.
Defined.

(** ** Resynchronisation requests *)

Section ResyncFacts.
Import Retry Resync.













End ResyncFacts.

(** ** Package descriptions *)

Section PackageInfoFacts.
Import PackageInfo.

Lemma orText_nil_r t : orText t [] = t.
Proof. unfold orText, truthyText. by case_bool_decide; subst. Qed.

(** C10.  For a package name that is not in the cache, [packageInfo]
    asks the registry, and the mirror when the registry request fails,
    and returns the description found there: from the registry document
    the description of the latest version when the document names one
    and lists it with a description, else the document's own; from the
    mirror the description of its package.json.  The entry it writes to
    the cache is the empty text, whatever was found.  A second lookup of
    the same name therefore makes the same requests again, returns the
    same description and still leaves the empty text in the cache. *)
Theorem packageInfo_never_caches :
  ∀ net name (cache : gmap string text),
    cache !! name = None →
    let first := packageInfo net name cache in
    first.1.2 = <[name := []]> cache
    ∧ first.1.2 !! name = Some []
    ∧ packageInfo net name first.1.2 = first
    ∧ (∀ data, registry net name = Some data →
         first.2 = [FetchRegistry name]
         ∧ (∀ latest vs d,
              dist_tags_latest data = Some latest → latest ≠ "" →
              versions data = Some vs → vs !! latest = Some d → d ≠ [] →
              first.1.1 = d)
         ∧ ((dist_tags_latest data = None ∨ dist_tags_latest data = Some ""
             ∨ versions data = None
             ∨ (∃ latest vs, dist_tags_latest data = Some latest
                             ∧ versions data = Some vs
                             ∧ default [] (vs !! latest) = [])) →
            first.1.1 = description data))
    ∧ (registry net name = None →
         first.2 = [FetchRegistry name; FetchUnpkg name]
         ∧ first.1.1 = default [] (unpkg net name)).
Proof.
  intros net name cache Hmiss first.
  assert (first
          = match registry net name with
            | Some data =>
                (registryDescription data, <[name := []]> cache,
                 [FetchRegistry name])
            | None =>
                (default [] (unpkg net name), <[name := []]> cache,
                 [FetchRegistry name; FetchUnpkg name])
            end) as Hfirst.
  { subst first. unfold packageInfo. rewrite Hmiss. cbn.
    destruct (registry net name) as [data|]; [done|].
    destruct (unpkg net name) as [d|]; cbn; [|done].
    unfold truthyText. by case_bool_decide; subst. }
  assert (first.1.2 = <[name := []]> cache) as Hcache.
  { rewrite Hfirst. by destruct (registry net name). }
  split; [exact Hcache|]. rewrite Hcache.
  split; [apply lookup_insert_eq|]. split.
  - rewrite Hfirst. unfold packageInfo. rewrite lookup_insert_eq. cbn.
    rewrite insert_insert_eq.
    destruct (registry net name) as [data|]; [done|].
    destruct (unpkg net name) as [d|]; cbn; [|done].
    unfold truthyText. by case_bool_decide; subst.
  - split.
    + intros data Hr. rewrite Hfirst, Hr. cbn [fst snd].
      split; [done|]. unfold registryDescription. split.
      * intros latest vs d -> Hl -> Hd Hne.
        rewrite decide_False by done. rewrite Hd. cbn [default].
        unfold orText at 1, truthyText.
        by rewrite bool_decide_eq_false_2.
      * rewrite orText_nil_r.
        assert (∀ t, orText t t = t) as Hsame.
        { intros t. unfold orText. by destruct (truthyText t). }
        intros [->|[->|[->|(latest & vs & -> & -> & Hd)]]].
        -- apply Hsame.
        -- destruct (versions data); [rewrite decide_True by done|];
             apply Hsame.
        -- destruct (dist_tags_latest data); apply Hsame.
        -- destruct (decide (latest = "")); [apply Hsame|].
           by rewrite Hd.
    + intros Hr. by rewrite Hfirst, Hr.
Qed.

Lemma packageInfo_never_caches_witness :
  (packageInfo sampleNetwork "node-red-contrib-demo" ∅).1.1 = txt "Demo nodes"
  ∧ (packageInfo sampleNetwork "node-red-contrib-demo" ∅).1.2
    = <["node-red-contrib-demo" := []]> ∅
  ∧ packageInfo sampleNetwork "node-red-contrib-demo"
      (packageInfo sampleNetwork "node-red-contrib-demo" ∅).1.2
    = packageInfo sampleNetwork "node-red-contrib-demo" ∅.
Proof.
  destruct (packageInfo_never_caches sampleNetwork "node-red-contrib-demo" ∅
              (lookup_empty _)) as (Hc & _ & Hagain & Hreg & _).
  destruct (Hreg {| dist_tags_latest := Some "1.0.0";
                    versions := Some {[ "1.0.0" := txt "Demo nodes" ]};
                    description := txt "Old text" |} eq_refl) as (_ & Hd & _).
  split; [|by split].
  apply (Hd "1.0.0" {[ "1.0.0" := txt "Demo nodes" ]});
    [reflexivity|discriminate|reflexivity|reflexivity|discriminate].
Defined.

(** The sample lookups: what comes back, and what is cached. *)
Example packageInfo_registry :
  (packageInfo sampleNetwork "node-red-contrib-demo" ∅).1.1 = txt "Demo nodes".
Proof. reflexivity. Qed.

Example packageInfo_mirror :
  (packageInfo sampleNetwork "mirror-only" ∅).1.1 = txt "From the mirror".
Proof. reflexivity. Qed.

End PackageInfoFacts.

Example json_parse_flow :
  Json.parse (Json.jsonText "{'flow':[{'id':'n1','type':'debug'}], 'flowName':'Hello Logger'}")
  = Some (Json.Object
            [(txt "flow",
              Json.Array [Json.Object [(txt "id", Json.String (txt "n1"));
                                       (txt "type", Json.String (txt "debug"))]]);
             (txt "flowName", Json.String (txt "Hello Logger"))]).
Proof. vm_compute. reflexivity. Qed.

Example json_parse_rejects :
  Json.parse (txt "oops") = None
  ∧ Json.parse (txt "{'single': 1}") = None
  ∧ Json.parse (Json.jsonText "{'a': 01}") = None
  ∧ Json.parse (Json.jsonText "[1, 2,]") = None
  ∧ Json.parse (Json.jsonText "{'a': -1.5e+3, 'b': [true, false, null]} ") <> None.
Proof. vm_compute. repeat split; done. Qed.

(** ** Flow context *)

Section SerializeFacts.
Import Serialize.
Context {node number : Type}.
Variable stringify : list node → text.
Variable ofInt : Z → number.
Variable divide multiply : number → number → number.
Variable floor : number → Z.

Local Abbreviation serialize := (serializeFlowContext stringify ofInt divide multiply floor).
Local Abbreviation kept := (keepCount stringify ofInt divide multiply floor).

Lemma notice_mentions_truncation k n :
  occurs_in (txt "Flow truncated") (notice k n).
Proof.
  exists ([LF; LF] ++ txt "/* NOTE: "),
    (txt " for context. Showing " ++ showZ k ++ txt " of "
       ++ showZ (Z.of_nat n)
       ++ txt " nodes. Preserve structure of unseen nodes. */").
  reflexivity.
Qed.

Lemma notice_counts k n :
  occurs_in (txt "Showing " ++ showZ k ++ txt " of " ++ showZ (Z.of_nat n)
               ++ txt " nodes.")
            (notice k n).
Proof.
  exists ([LF; LF] ++ txt "/* NOTE: Flow truncated for context. "),
    (txt " Preserve structure of unseen nodes. */").
  unfold notice. cbn [app txt list_ascii_of_string].
  repeat (rewrite <- ?app_assoc; cbn [app]; f_equal).
Qed.

(** C8, as the code has it.  When the JSON text of the node list is
    within the budget the output is that text and nothing else.  When it
    is longer, with [k = max(1, floor(n * (budget / fullLength)))] in the
    host's arithmetic, the output is the JSON text of [nodes.slice(0, k)]
    followed by the notice; the slice is the first [min(n, k)] nodes in
    their order, at least one of them unless the list is empty; the
    output contains "Flow truncated" and "Showing k of n nodes.". *)
Theorem serializeFlowContext_truncation (nodes : list node) (budget : Z) :
  (Z.of_nat (length (stringify nodes)) ≤ budget →
     serialize nodes budget = stringify nodes)
  ∧ (budget < Z.of_nat (length (stringify nodes)) →
     let k := kept nodes budget in
     let shown := take (Z.to_nat k) nodes in
     k = Z.max 1 (floor (multiply (ofInt (Z.of_nat (length nodes)))
                           (divide (ofInt budget)
                              (ofInt (Z.of_nat (length (stringify nodes)))))))
     ∧ serialize nodes budget = stringify shown ++ notice k (length nodes)
     ∧ shown `prefix_of` nodes
     ∧ length shown = Nat.min (length nodes) (Z.to_nat k)
     ∧ 1 ≤ k
     ∧ (nodes ≠ [] → head shown = head nodes ∧ shown ≠ [])
     ∧ occurs_in (txt "Flow truncated") (serialize nodes budget)
     ∧ occurs_in (txt "Showing " ++ showZ k ++ txt " of "
                    ++ showZ (Z.of_nat (length nodes)) ++ txt " nodes.")
                 (serialize nodes budget)).
Proof.
  split.
  - intros Hfit. unfold serializeFlowContext.
    by rewrite (proj2 (Z.leb_le _ _) Hfit).
  - intros Hover k shown.
    assert (serialize nodes budget = stringify shown ++ notice k (length nodes))
      as Hout.
    { unfold serializeFlowContext.
      by rewrite (proj2 (Z.leb_gt _ _) Hover). }
    split; [reflexivity|]. split; [exact Hout|].
    split; [apply prefix_take|].
    split; [subst shown; rewrite length_take; lia|].
    assert (1 ≤ k) as Hk by (subst k; unfold keepCount; lia).
    split; [exact Hk|]. split.
    { intros Hne. subst shown.
      destruct (Z.to_nat k) as [|m] eqn:Em; [lia|].
      by destruct nodes. }
    rewrite Hout. split.
    + apply occurs_in_app_r, notice_mentions_truncation.
    + apply occurs_in_app_r, notice_counts.
Qed.

End SerializeFacts.

(** The repository's connector test: two nodes, a budget of 40
    characters. *)
Lemma serializeFlowContext_truncation_witness :
  let k := Serialize.sampleKeepCount Serialize.longNodes 40 in
  let shown := take (Z.to_nat k) Serialize.longNodes in
  k = Z.max 1 (Serialize.floorZ
                 (PrimFloat.mul (Serialize.ofZ 2)
                    (PrimFloat.div (Serialize.ofZ 40)
                       (Serialize.ofZ
                          (Z.of_nat (length (Serialize.printNodes
                                               Serialize.longNodes)))))))
  ∧ Serialize.sampleSerialize Serialize.longNodes 40
    = Serialize.printNodes shown ++ Serialize.notice k 2
  ∧ shown `prefix_of` Serialize.longNodes
  ∧ length shown = Nat.min 2 (Z.to_nat k)
  ∧ 1 ≤ k
  ∧ (Serialize.longNodes ≠ [] →
     head shown = head Serialize.longNodes ∧ shown ≠ [])
  ∧ occurs_in (txt "Flow truncated")
      (Serialize.sampleSerialize Serialize.longNodes 40)
  ∧ occurs_in (txt "Showing " ++ Serialize.showZ k ++ txt " of "
                 ++ Serialize.showZ 2 ++ txt " nodes.")
      (Serialize.sampleSerialize Serialize.longNodes 40).
Proof.
  apply (proj2 (serializeFlowContext_truncation Serialize.printNodes
                  Serialize.ofZ PrimFloat.div PrimFloat.mul Serialize.floorZ
                  Serialize.longNodes 40)).
  vm_compute. reflexivity.
Defined.

Example serialize_longNodes :
  Serialize.sampleKeepCount Serialize.longNodes 40 = 1
  ∧ includes (txt "Flow truncated for context. Showing 1 of 2 nodes.")
      (Serialize.sampleSerialize Serialize.longNodes 40) = true
  ∧ Serialize.sampleSerialize Serialize.longNodes 1000
    = Serialize.printNodes Serialize.longNodes.
Proof. vm_compute. repeat split; reflexivity. Qed.

(** C8 as the specification states it fails in two ways.  On the empty
    list with a budget of one character the JSON text "[]" is too long,
    the count computed is 1, the notice says "Showing 1 of 0 nodes.", and
    no node is retained.  On twenty-two nodes of 528 characters with a
    budget of 360 the quotient 360 / 528 is rounded, its product with 22
    falls just below 15, and 14 nodes are retained, where
    floor(22 * 360 / 528) is 15. *)
Lemma serialize_count_differs :
  (1 < Z.of_nat (length (Serialize.printNodes []))
   ∧ Serialize.sampleKeepCount [] 1 = 1
   ∧ length (Serialize.sampleTrimmed [] 1) = 0%nat
   ∧ Serialize.sampleSerialize [] 1
     = txt "[]" ++ [Serialize.LF; Serialize.LF]
         ++ txt "/* NOTE: Flow truncated for context. Showing 1 of 0 nodes. Preserve structure of unseen nodes. */")
  ∧ (length Serialize.smallNodes = 22%nat
     ∧ length (Serialize.printNodes Serialize.smallNodes) = 528%nat
     ∧ Serialize.sampleKeepCount Serialize.smallNodes 360 = 14
     ∧ length (Serialize.sampleTrimmed Serialize.smallNodes 360) = 14%nat
     ∧ Z.max 1 (22 * 360 / 528) = 15).
Proof. vm_compute. repeat split; reflexivity. Qed.

(** ** Reading a provider reply *)

Section ParseFacts.
Import Parse.

Lemma trimStart_id c (s : text) : isSpace c = false → trimStart (c :: s) = c :: s.
Proof. intros H. cbn. by rewrite H. Qed.

Lemma trim_id (s : text) c d s1 s2 :
  s = c :: s1 → rev s = d :: s2 → isSpace c = false → isSpace d = false →
  trim s = s.
Proof.
  intros -> Hr Hc Hd. unfold trim.
  rewrite (trimStart_id _ _ Hc), Hr, (trimStart_id _ _ Hd), <- Hr.
  apply rev_involutive.
Qed.

Lemma starts_with_app (p s : text) : starts_with p s = true → ∃ r, s = p ++ r.
Proof.
  revert s. induction p as [|a p IH]; intros s H; [by exists s|].
  destruct s as [|b s]; [done|]. cbn in H.
  destruct (decide (a = b)) as [->|]; [|done].
  destruct (IH s H) as [r ->]. by exists r.
Qed.

(** Appending a line feed and more text does not create or destroy a
    closing fence at the start. *)
Lemma closingFence_app_LF (s rest : text) :
  closingFence (s ++ LF :: rest) = closingFence s.
Proof.
  unfold closingFence.
  destruct s as [|a [|b [|c s]]]; cbn [app starts_with fence txt list_ascii_of_string].
  - cbn. by repeat case_decide.
  - cbn. repeat case_decide; try done.
  - cbn. repeat case_decide; try done.
  - repeat case_decide; try done. cbn [drop app andb].
    destruct s; done.
Qed.

Lemma noClosingFence_cons c (s : text) :
  noClosingFence (c :: s) = true →
  closingFence (c :: s) = false ∧ noClosingFence s = true.
Proof.
  cbn [noClosingFence]. intros [H1 H2]%andb_true_iff.
  by apply negb_true_iff in H1.
Qed.

Lemma noClosingFence_tail c (s : text) :
  noClosingFence (c :: s) = true → noClosingFence s = true.
Proof. by intros [_ ?]%noClosingFence_cons. Qed.

Lemma noClosingFence_head (s : text) :
  noClosingFence s = true → closingFence s = false.
Proof.
  destruct s; [done|]. by intros [? _]%noClosingFence_cons.
Qed.

Lemma noClosingFence_drop n (s : text) :
  noClosingFence s = true → noClosingFence (drop n s) = true.
Proof.
  revert s. induction n as [|n IH]; intros s H; [by rewrite drop_0|].
  destruct s as [|c s]; [done|]. cbn. apply IH. by apply noClosingFence_tail in H.
Qed.

Lemma closing_false (s : text) : noClosingFence s = true → closing s = false.
Proof.
  intros H. destruct s as [|c s]; [done|].
  apply noClosingFence_cons in H as [H1 H2]. cbn [closing].
  by rewrite H1, (noClosingFence_head _ H2), andb_false_r.
Qed.

(** Inside a text without closing fence the lazy group finds no end... *)
Lemma lazyGroup_none (s captured : text) :
  noClosingFence s = true → lazyGroup captured s = None.
Proof.
  revert captured. induction s as [|c s IH]; intros captured H.
  - done.
  - cbn [lazyGroup]. rewrite (closing_false _ H).
    apply IH. by apply noClosingFence_tail in H.
Qed.

(** ... and followed by a line feed and the fence it takes all of it. *)
Lemma lazyGroup_body (body captured : text) :
  noClosingFence body = true →
  lazyGroup captured (body ++ LF :: fence) = Some (captured ++ body).
Proof.
  revert captured. induction body as [|c body IH]; intros captured H.
  - by rewrite app_nil_r.
  - change ((c :: body) ++ LF :: fence) with (c :: (body ++ LF :: fence)).
    cbn [lazyGroup].
    assert (closing (c :: (body ++ LF :: fence)) = false) as ->.
    { apply noClosingFence_cons in H as [H1 H2]. cbn [closing].
      rewrite closingFence_app_LF, (noClosingFence_head _ H2), andb_false_r.
      change (c :: body ++ LF :: fence) with ((c :: body) ++ LF :: fence).
      by rewrite closingFence_app_LF, H1. }
    rewrite IH by by apply noClosingFence_tail in H.
    by rewrite <- app_assoc.
Qed.

Lemma optionalLineFeed_none (s : text) :
  noClosingFence s = true → optionalLineFeed s = None.
Proof.
  intros H. destruct s as [|c s]; cbn [optionalLineFeed].
  - by apply lazyGroup_none.
  - rewrite (lazyGroup_none (c :: s)) by done.
    rewrite (lazyGroup_none s) by by apply noClosingFence_tail in H.
    by case_bool_decide.
Qed.

Lemma blanks_none (s : text) : noClosingFence s = true → blanks s = None.
Proof.
  induction s as [|c s IH]; intros H; cbn [blanks].
  - by apply optionalLineFeed_none.
  - rewrite IH by by apply noClosingFence_tail in H.
    rewrite (optionalLineFeed_none (c :: s)) by done. by destruct (isSpace c).
Qed.

Lemma matchHere_none (s : text) : noClosingFence s = true → matchHere s = None.
Proof.
  intros H. unfold matchHere, optionalTag.
  rewrite !blanks_none by by repeat apply noClosingFence_drop.
  by repeat case_match.
Qed.

Lemma matchFrom_none (s : text) b : noClosingFence s = true → matchFrom b s = None.
Proof.
  revert b. induction s as [|c s IH]; intros b H; cbn [matchFrom].
  - rewrite matchHere_none by done. by destruct b.
  - rewrite matchHere_none by done.
    rewrite IH by by apply noClosingFence_tail in H. by destruct b.
Qed.

Lemma isObjectText_shape (body : text) :
  isObjectText body = true →
  ∃ s1 s2, body = "{"%char :: s1 ∧ rev body = "}"%char :: s2.
Proof.
  unfold isObjectText. intros [H1 H2]%andb_true_iff.
  apply starts_with_app in H1 as [s1 ->]. apply starts_with_app in H2 as [s2 H2].
  by exists s1, s2.
Qed.

Lemma cleanContent_object (body : text) :
  isObjectText body = true → noClosingFence body = true →
  cleanContent body = body.
Proof.
  intros Ho Hn. destruct (isObjectText_shape _ Ho) as (s1 & s2 & E1 & E2).
  unfold cleanContent. rewrite (trim_id body _ _ _ _ E1 E2) by done.
  unfold codeBlockMatch. by rewrite matchFrom_none.
Qed.

Lemma matchHere_fence (rest : text) : matchHere (fence ++ rest) = optionalTag rest.
Proof. reflexivity. Qed.

Lemma matchFrom_here (s g : text) :
  matchHere s = Some g → matchFrom true s = Some g.
Proof. intros H. destruct s; cbn [matchFrom]; by rewrite H. Qed.

Lemma optionalTag_json (rest g : text) :
  blanks rest = Some g → optionalTag (txt "json" ++ rest) = Some g.
Proof.
  intros H.
  change (optionalTag (txt "json" ++ rest))
    with (match blanks rest with
          | Some g => Some g
          | None => blanks (txt "json" ++ rest)
          end).
  by rewrite H.
Qed.

Lemma optionalTag_untagged (rest : text) :
  optionalTag (LF :: rest) = blanks (LF :: rest).
Proof. reflexivity. Qed.

Lemma blanks_LF_object (s1 rest g : text) :
  lazyGroup [] ("{"%char :: s1 ++ rest) = Some g →
  blanks (LF :: "{"%char :: s1 ++ rest) = Some g.
Proof.
  intros H.
  change (blanks (LF :: "{"%char :: s1 ++ rest))
    with (match lazyGroup [] ("{"%char :: s1 ++ rest) with
          | Some g => Some g
          | None => optionalLineFeed (LF :: "{"%char :: s1 ++ rest)
          end).
  by rewrite H.
Qed.

Lemma cleanContent_fenced (tag body : text) :
  tag = txt "json" ∨ tag = [] →
  isObjectText body = true → noClosingFence body = true →
  cleanContent (fenced tag body) = body.
Proof.
  intros Htag Ho Hn. destruct (isObjectText_shape _ Ho) as (s1 & s2 & E1 & E2).
  assert (trim (fenced tag body) = fenced tag body) as Htrim.
  { eapply (trim_id _ "`"%char "`"%char); [reflexivity| |done|done].
    unfold fenced. rewrite !rev_app_distr. reflexivity. }
  assert (blanks (LF :: body ++ LF :: fence) = Some body) as Hb.
  { pose proof (lazyGroup_body body [] Hn) as Hg. rewrite E1 in Hg |- *.
    by apply blanks_LF_object. }
  unfold cleanContent. rewrite Htrim. unfold codeBlockMatch.
  assert (matchFrom true (fenced tag body) = Some body) as ->.
  { apply matchFrom_here. unfold fenced. rewrite matchHere_fence.
    destruct Htag as [-> | ->].
    - by apply optionalTag_json.
    - change ([] ++ [LF] ++ body ++ [LF] ++ fence) with (LF :: body ++ LF :: fence).
      by rewrite optionalTag_untagged. }
  apply (trim_id body _ _ _ _ E1 E2); done.
Qed.

Context {J : Type}.
Variable JSON_parse : text → option J.

Lemma parseFlowReply_nonempty (content : text) :
  content ≠ [] →
  parseFlowReply JSON_parse content
  = match JSON_parse (cleanContent content) with
    | Some parsed => Parsed parsed
    | None => Failure (invalidJson ++ take 200 content)
    end.
Proof. by destruct content. Qed.

Lemma parseDescriptionReply_nonempty (content : text) :
  content ≠ [] →
  parseDescriptionReply JSON_parse content
  = match JSON_parse (cleanContent content) with
    | Some parsed => Parsed parsed
    | None => Failure (invalidJson ++ take 200 (cleanContent content))
    end.
Proof. by destruct content. Qed.

(** The two parse steps.  A JSON object text wrapped in a fenced block,
    tagged json or untagged, is read to the same value as the text alone,
    by the parse step of [generateFlow] / [resyncNode] and by that of
    [generateDescription].  A non-empty reply that is not valid JSON once
    unwrapped gives a failure whose message is the fixed text followed by
    a preview of at most 200 characters: the first 200 characters of the
    original content for [generateFlow] / [resyncNode], the first 200
    characters of the unwrapped content for [generateDescription].  The
    preview is the whole content exactly when the content has at most 200
    characters.  An empty reply gives a failure without preview. *)
Theorem reply_parsing :
  (∀ tag body v,
     tag = txt "json" ∨ tag = [] →
     isObjectText body = true → noClosingFence body = true →
     JSON_parse body = Some v →
     parseFlowReply JSON_parse (fenced tag body) = Parsed v
     ∧ parseFlowReply JSON_parse body = Parsed v
     ∧ parseDescriptionReply JSON_parse (fenced tag body) = Parsed v
     ∧ parseDescriptionReply JSON_parse body = Parsed v)
  ∧ (∀ content,
       content ≠ [] →
       JSON_parse (cleanContent content) = None →
       parseFlowReply JSON_parse content
         = Failure (invalidJson ++ take 200 content)
       ∧ parseDescriptionReply JSON_parse content
         = Failure (invalidJson ++ take 200 (cleanContent content))
       ∧ (length (take 200 content) ≤ 200)%nat
       ∧ (length (take 200 (cleanContent content)) ≤ 200)%nat
       ∧ take 200 content `prefix_of` content
       ∧ (take 200 content = content ↔ (length content ≤ 200)%nat))
  ∧ parseFlowReply JSON_parse [] = Failure (txt "No content in response")
  ∧ parseDescriptionReply JSON_parse []
    = Failure (txt "No description in response").
Proof.
  split; [|split; [|done]].
  - intros tag body v Htag Ho Hn Hv.
    destruct (isObjectText_shape _ Ho) as (s1 & s2 & E1 & _).
    rewrite !parseFlowReply_nonempty, !parseDescriptionReply_nonempty
      by (by rewrite ?E1).
    rewrite (cleanContent_fenced tag body Htag Ho Hn).
    rewrite (cleanContent_object body Ho Hn). by rewrite Hv.
  - intros content Hne Hbad.
    rewrite parseFlowReply_nonempty, parseDescriptionReply_nonempty by done.
    rewrite Hbad. split; [done|]. split; [done|].
    split; [rewrite length_take; lia|]. split; [rewrite length_take; lia|].
    split; [apply prefix_take|]. split.
    + intros E. rewrite <- E at 1. rewrite length_take. lia.
    + intros Hle. by apply take_ge.
Qed.

End ParseFacts.

Lemma reply_parsing_witness :
  (Parse.parseFlowReply Json.parse (Parse.fenced (txt "json") Parse.helloLogger)
     = Parse.parseFlowReply Json.parse Parse.helloLogger
   ∧ Parse.parseFlowReply Json.parse (Parse.fenced [] Parse.helloLogger)
     = Parse.parseFlowReply Json.parse Parse.helloLogger)
  ∧ Parse.parseFlowReply Json.parse (txt "Sorry, I cannot do that.")
    = Parse.Failure (Parse.invalidJson ++ txt "Sorry, I cannot do that.").
Proof.
  destruct (Json.parse Parse.helloLogger) as [v|] eqn:Hv;
    [|by vm_compute in Hv].
  split; [split|].
  - destruct (proj1 (reply_parsing Json.parse) (txt "json") Parse.helloLogger v)
      as (-> & -> & _); [by left|by vm_compute|by vm_compute|exact Hv|done].
  - destruct (proj1 (reply_parsing Json.parse) [] Parse.helloLogger v)
      as (-> & -> & _); [by right|by vm_compute|by vm_compute|exact Hv|done].
  - apply (proj1 (proj2 (reply_parsing Json.parse))
             (txt "Sorry, I cannot do that.")).
    + discriminate.
    + by vm_compute.
Defined.

(** On a reply of at most 200 characters the preview is the whole
    reply. *)
Example reply_preview_of_short_payload :
  Json.parse (Parse.cleanContent (txt "oops")) = None
  ∧ Parse.parseFlowReply Json.parse (txt "oops")
    = Parse.Failure (Parse.invalidJson ++ txt "oops")
  ∧ Parse.parseDescriptionReply Json.parse (txt "oops")
    = Parse.Failure (Parse.invalidJson ++ txt "oops")
  ∧ occurs_in (txt "oops") (Parse.invalidJson ++ txt "oops").
Proof.
  split; [by vm_compute|]. split; [by vm_compute|]. split; [by vm_compute|].
  exists Parse.invalidJson, []. by rewrite app_nil_r.
Qed.

(** The fence is found after leading prose as well, and the two parse
    steps preview different texts when the content is not valid JSON. *)
Example reply_with_prose :
  Parse.cleanContent Parse.proseBeforeBlock = Parse.helloLogger.
Proof. vm_compute. reflexivity. Qed.

Example reply_previews_differ :
  Parse.parseFlowReply Json.parse (txt "  not json")
    = Parse.Failure (Parse.invalidJson ++ txt "  not json")
  ∧ Parse.parseDescriptionReply Json.parse (txt "  not json")
    = Parse.Failure (Parse.invalidJson ++ txt "not json").
Proof. vm_compute. split; reflexivity. Qed.

(** C9 at a reply on which [generateDescription] leaves it.  The reply
    has 250 characters of prose and then a fenced block that is not
    valid JSON.  The parse step of [generateFlow] and [resyncNode]
    previews the first 200 characters of the reply (line 113: the
    original content); that of [generateDescription] previews the text
    of the block (line 283: the unwrapped content), which stands after
    the first 200 characters of the reply and is no part of them. *)
Lemma description_preview_is_not_of_original :
  length Parse.lateBlock = 268%nat
  ∧ Json.parse (Parse.cleanContent Parse.lateBlock) = None
  ∧ take 200 Parse.lateBlock = replicate 200 "x"%char
  ∧ Parse.parseFlowReply Json.parse Parse.lateBlock
    = Parse.Failure (Parse.invalidJson ++ take 200 Parse.lateBlock)
  ∧ Parse.parseDescriptionReply Json.parse Parse.lateBlock
    = Parse.Failure (Parse.invalidJson ++ txt "{bad}")
  ∧ ¬ occurs_in (txt "{bad}") (take 200 Parse.lateBlock).
Proof.
  assert (take 200 Parse.lateBlock = replicate 200 "x"%char) as Ht
    by by vm_compute.
  split; [by vm_compute|]. split; [by vm_compute|]. split; [exact Ht|].
  split; [by vm_compute|]. split; [by vm_compute|].
  rewrite Ht. intros (pre & post & E).
  assert ("{"%char ∈ replicate 200 "x"%char) as Hin.
  { rewrite E. apply elem_of_app. right. apply elem_of_app. left. left. }
  apply elem_of_replicate in Hin as [Hx _]. discriminate Hx.
Qed.

(** ** The flow merge *)

Section MergeFacts.
Import Merge.
Implicit Types (g : graph) (n p newNode : node) (i j : string) (l : link)
  (ws : list (list string)).

(** *** The primitives *)

Lemma foldr_removeLink g (ls : list link) :
  foldr RED_removeLink g ls = mkGraph (nodes g) (links g ∖ list_to_set ls).
Proof.
  induction ls as [|l ls IH]; cbn.
  - destruct g as [ns lk]; cbn. f_equal. set_solver.
  - rewrite IH. unfold RED_removeLink; cbn. f_equal. set_solver.
Qed.

Lemma foldl_addLink g (ls : list link) :
  foldl (fun g l => RED_addLink l g) g ls
  = mkGraph (nodes g) (links g ∪ list_to_set ls).
Proof.
  revert g. induction ls as [|l ls IH]; intros g; cbn.
  - destruct g as [ns lk]; cbn. f_equal. set_solver.
  - rewrite IH. unfold RED_addLink; cbn. f_equal. set_solver.
Qed.

Lemma elem_of_wireLinksFrom g i port ws l :
  l ∈ wireLinksFrom g i port ws ↔
    source l = i
    ∧ (∃ k wireSet, ws !! k = Some wireSet ∧ sourcePort l = (port + k)%nat
                    ∧ target l ∈ wireSet)
    ∧ target l ∈ dom (nodes g).
Proof.
  revert port. induction ws as [|wireSet ws IH]; intros port; cbn [wireLinksFrom].
  - split; [by intros ?%elem_of_nil|]. by intros (_ & (k & w & ? & _) & _).
  - rewrite elem_of_app, IH, list_elem_of_fmap. split.
    + intros [(t & -> & Ht)|(Hs & (k & w & Hk & Hp & Ht) & Hd)].
      * apply list_elem_of_filter in Ht as [Hsome Ht]. cbn.
        split; [done|]. split; [|by apply elem_of_dom].
        exists 0%nat, wireSet. split; [done|]. split; [lia|done].
      * split; [done|]. split; [|done].
        exists (S k), w. split; [done|]. split; [lia|done].
    + intros (Hs & (k & w & Hk & Hp & Ht) & Hd). destruct k as [|k].
      * left. exists (target l). cbn in Hk. injection Hk as ->. split.
        -- destruct l as [[s q] t]. cbn in *. subst. f_equal. f_equal. lia.
        -- apply list_elem_of_filter. split; [by apply elem_of_dom|done].
      * right. split; [done|]. split; [|done].
        exists k, w. split; [done|]. split; [lia|done].
Qed.

Lemma elem_of_wireLinks g i ws l :
  l ∈ wireLinks g i ws ↔ asks i ws l ∧ target l ∈ dom (nodes g).
Proof.
  unfold wireLinks, asks. rewrite elem_of_wireLinksFrom. split.
  - intros (Hs & (k & w & Hk & Hp & Ht) & Hd). cbn in Hp. subst k. eauto 10.
  - intros ((Hs & w & Hk & Ht) & Hd). split; [done|]. split; [|done].
    exists (sourcePort l), w. eauto.
Qed.

Lemma wireLinks_dom g g' i ws :
  dom (nodes g) = dom (nodes g') → wireLinks g i ws = wireLinks g' i ws.
Proof.
  intros Hd. unfold wireLinks. generalize 0%nat.
  induction ws as [|w ws IH]; intros port; cbn [wireLinksFrom]; [done|].
  rewrite IH. f_equal. f_equal. apply list_filter_iff. intros t.
  unfold RED_node. by rewrite <- !elem_of_dom, Hd.
Qed.

Lemma elem_of_linksFrom g i l : l ∈ linksFrom g i ↔ source l = i ∧ l ∈ links g.
Proof. unfold linksFrom. by rewrite elem_of_filter. Qed.

(** [rewire] in one step. *)
Lemma rewire_spec i ws g :
  rewire i ws g
  = mkGraph (alter (withWires (Some ws)) i (nodes g))
            ((links g ∖ linksFrom g i) ∪ list_to_set (wireLinks g i ws)).
Proof.
  unfold rewire. rewrite foldl_addLink, foldr_removeLink. cbn.
  rewrite list_to_set_elements_L. f_equal. f_equal. f_equal.
  apply wireLinks_dom. cbn. by rewrite dom_alter_L.
Qed.

(** *** One step of the merge *)

Lemma updateExisting_spec p g :
  updateExisting p g
  = mkGraph (alter (applyUpdate p) (id p) (nodes g))
            (match wires p with
             | Some ws => (links g ∖ linksFrom g (id p))
                            ∪ list_to_set (wireLinks g (id p) ws)
             | None => links g
             end).
Proof.
  unfold updateExisting. destruct (wires p) as [ws|] eqn:Hw; cbn.
  - rewrite rewire_spec. cbn. rewrite !alter_alter_eq. f_equal.
    + apply alter_ext. intros n _. unfold applyUpdate. by rewrite Hw.
    + f_equal. f_equal. apply wireLinks_dom. cbn. by rewrite dom_alter_L.
  - rewrite alter_alter_eq. f_equal.
    apply alter_ext. intros n _. unfold applyUpdate. by rewrite Hw.
Qed.

Lemma fixAdded_spec p g n ws :
  nodes g !! id p = Some n → wires p = Some ws →
  fixAdded p g
  = mkGraph (alter (applyAdded ws) (id p) (nodes g))
            ((links g ∖ linksFrom g (id p)) ∪ list_to_set (wireLinks g (id p) ws)).
Proof.
  intros Hn Hw. unfold fixAdded, RED_node. rewrite Hn, Hw, rewire_spec. cbn.
  by rewrite alter_alter_eq.
Qed.

Lemma fixAdded_skip p g :
  nodes g !! id p = None ∨ wires p = None → fixAdded p g = g.
Proof.
  unfold fixAdded, RED_node. intros [-> | ->]; [done|].
  by destruct (nodes g !! id p).
Qed.

Lemma z_applyUpdate p n : z (applyUpdate p n) = z n.
Proof.
  unfold applyUpdate, copyCoords.
  by destruct (wires p), (x p), (y p).
Qed.

Lemma localAt_refl j g : localAt j g g.
Proof.
  split; [|done]. exists (fun n => n). split; [|done].
  symmetry. by apply alter_id.
Qed.

Lemma rewired_links_other j g ws l :
  source l ≠ j →
  l ∈ (links g ∖ linksFrom g j) ∪ list_to_set (wireLinks g j ws) ↔ l ∈ links g.
Proof.
  intros Hs.
  rewrite elem_of_union, elem_of_difference, elem_of_linksFrom,
    elem_of_list_to_set, elem_of_wireLinks.
  unfold asks. naive_solver.
Qed.

Lemma updateExisting_local p g : localAt (id p) g (updateExisting p g).
Proof.
  rewrite updateExisting_spec. split; cbn.
  - exists (applyUpdate p). split; [done|]. apply z_applyUpdate.
  - intros l Hs. destruct (wires p); [|done]. by apply rewired_links_other.
Qed.

Lemma fixAdded_local p g : localAt (id p) g (fixAdded p g).
Proof.
  destruct (nodes g !! id p) as [n|] eqn:Hn;
    [|rewrite fixAdded_skip by auto; apply localAt_refl].
  destruct (wires p) as [ws|] eqn:Hw;
    [|rewrite fixAdded_skip by auto; apply localAt_refl].
  rewrite (fixAdded_spec p g n ws Hn Hw). split; cbn.
  - by exists (applyAdded ws).
  - intros l Hs. by apply rewired_links_other.
Qed.

Lemma localAt_dom j g g' : localAt j g g' → dom (nodes g') = dom (nodes g).
Proof. intros [(f & -> & _) _]. apply dom_alter_L. Qed.

Lemma localAt_other j g g' i :
  localAt j g g' → i ≠ j → nodes g' !! i = nodes g !! i.
Proof. intros [(f & -> & _) _] Hne. by rewrite lookup_alter_ne. Qed.

Lemma localAt_z j g g' i :
  localAt j g g' → z <$> nodes g' !! i = z <$> nodes g !! i.
Proof.
  intros [(f & -> & Hz) _]. rewrite lookup_alter. case_decide as E; [|done].
  subst i. destruct (nodes g !! j); cbn; [|done]. by rewrite Hz.
Qed.

Lemma localAt_linksFrom j g g' i :
  localAt j g g' → i ≠ j → linksFrom g' i = linksFrom g i.
Proof.
  intros [_ Hl] Hne. apply set_eq. intros l. rewrite !elem_of_linksFrom.
  split; intros [Hs Hin]; (split; [done|]); apply Hl; congruence.
Qed.

(** *** Proposals that are already in place *)

Lemma carries_withoutFlags p n :
  carries p n → withoutFlags (applyUpdate p n) = withoutFlags n.
Proof.
  intros (Hp & Hx & Hy & Hw).
  assert (copyCoords p (copyFields p n)
          = withProps (filter (fun kv => kv.1 ∉ skipKeys) (props p) ∪ props n) n)
    as Hc.
  { unfold copyCoords, copyFields, withXY, withProps, nullish_or; cbn.
    destruct (x p) as [vx|] eqn:Ex, (y p) as [vy|] eqn:Ey; cbn; try done.
    - by rewrite (Hx vx), (Hy vy).
    - by rewrite (Hx vx).
    - by rewrite (Hy vy). }
  unfold applyUpdate. rewrite Hc.
  assert (∀ m : gmap string pval,
            withoutFlags (setProp "dirty" (PBool true)
              (match wires p with
               | Some ws => withWires (Some ws) (withProps m n)
               | None => withProps m n
               end))
            = withProps (delete "dirty" (delete "changed" m)) n) as Hm.
  { intros m. unfold withoutFlags, setProp, withWires, withProps. cbn.
    destruct (wires p) as [ws|] eqn:Ew; cbn.
    - rewrite (Hw ws eq_refl). f_equal. apply map_eq. intros k.
      destruct (decide (k = "dirty")) as [->|]; [by rewrite !lookup_delete_eq|].
      rewrite lookup_delete_ne by done.
      destruct (decide (k = "changed")) as [->|].
      + rewrite lookup_delete_eq. symmetry.
        rewrite lookup_delete_ne by done. by rewrite lookup_delete_eq.
      + rewrite !lookup_delete_ne by done. by rewrite lookup_insert_ne.
    - f_equal. apply map_eq. intros k.
      destruct (decide (k = "dirty")) as [->|]; [by rewrite !lookup_delete_eq|].
      rewrite lookup_delete_ne by done.
      destruct (decide (k = "changed")) as [->|].
      + rewrite lookup_delete_eq. symmetry.
        rewrite lookup_delete_ne by done. by rewrite lookup_delete_eq.
      + rewrite !lookup_delete_ne by done. by rewrite lookup_insert_ne. }
  rewrite Hm. unfold withoutFlags, withProps; cbn. f_equal.
  apply map_eq. intros k.
  destruct (decide (k = "dirty")) as [->|]; [by rewrite !lookup_delete_eq|].
  rewrite !(lookup_delete_ne _ "dirty") by done.
  destruct (decide (k = "changed")) as [->|]; [by rewrite !lookup_delete_eq|].
  rewrite !lookup_delete_ne by done.
  rewrite lookup_union.
  destruct (filter (fun kv => kv.1 ∉ skipKeys) (props p) !! k) as [v|] eqn:Ef.
  - apply map_lookup_filter_Some in Ef as [Ek Hk]. cbn in Hk.
    rewrite (Hp k v Hk) by done. done.
  - by rewrite (left_id_L None union).
Qed.

Lemma props_applyUpdate p n :
  props (applyUpdate p n)
  = <["dirty" := PBool true]>
      (filter (fun kv => kv.1 ∉ skipKeys) (props p) ∪ props n).
Proof.
  unfold applyUpdate, copyCoords. by destruct (wires p), (x p), (y p).
Qed.

Lemma x_applyUpdate p n : x (applyUpdate p n) = nullish_or (x p) (x n).
Proof.
  unfold applyUpdate, copyCoords. by destruct (wires p), (x p), (y p).
Qed.

Lemma y_applyUpdate p n : y (applyUpdate p n) = nullish_or (y p) (y n).
Proof.
  unfold applyUpdate, copyCoords. by destruct (wires p), (x p), (y p).
Qed.

Lemma wires_applyUpdate p n :
  wires (applyUpdate p n) = nullish_or (wires p) (wires n).
Proof.
  unfold applyUpdate, copyCoords. by destruct (wires p), (x p), (y p).
Qed.

Lemma id_type_applyUpdate p n :
  id (applyUpdate p n) = id n ∧ type (applyUpdate p n) = type n.
Proof.
  unfold applyUpdate, copyCoords. by destruct (wires p), (x p), (y p).
Qed.

Lemma carries_applyUpdate p n : carries p (applyUpdate p n).
Proof.
  split; [|split; [|split]].
  - intros k v Hk Hd _ Hv. rewrite props_applyUpdate.
    rewrite lookup_insert_ne by done. apply lookup_union_Some_l.
    by apply map_lookup_filter_Some.
  - intros v Hv. by rewrite x_applyUpdate, Hv.
  - intros v Hv. by rewrite y_applyUpdate, Hv.
  - intros ws Hw. by rewrite wires_applyUpdate, Hw.
Qed.

Lemma carries_self p : carries p p.
Proof. by repeat split. Qed.

Lemma carries_applyAdded p ws : wires p = Some ws → carries p (applyAdded ws p).
Proof.
  intros Hw. split; [|split; [|split]]; cbn; try done.
  - intros k v _ Hd Hc Hv. by rewrite !lookup_insert_ne.
  - intros ws' Hw'. congruence.
Qed.

(** After a rewiring of node [i] the links out of [i] are the ones asked
    for. *)
Lemma rewired_linksFrom i ws g (ns : gmap string node) :
  dom ns = dom (nodes g) →
  linksFrom (mkGraph ns ((links g ∖ linksFrom g i)
                           ∪ list_to_set (wireLinks g i ws))) i
  = list_to_set (wireLinks (mkGraph ns ((links g ∖ linksFrom g i)
                              ∪ list_to_set (wireLinks g i ws))) i ws).
Proof.
  intros Hd.
  rewrite (wireLinks_dom (mkGraph ns _) g) by done.
  apply set_eq. intros l.
  rewrite elem_of_linksFrom. cbn.
  rewrite elem_of_union, elem_of_difference, elem_of_linksFrom,
    elem_of_list_to_set, elem_of_wireLinks.
  unfold asks. naive_solver.
Qed.

Lemma settled_updateExisting p g : settled p (updateExisting p g).
Proof.
  rewrite updateExisting_spec. split.
  - intros n. cbn. rewrite lookup_alter_eq.
    destruct (nodes g !! id p) as [n0|]; cbn; [|done].
    intros [= <-]. apply carries_applyUpdate.
  - intros ws Hw. rewrite Hw. apply rewired_linksFrom. apply dom_alter_L.
Qed.

Lemma settled_fixAdded p g :
  nodes g !! id p = Some p → settled p (fixAdded p g).
Proof.
  intros Hn. destruct (wires p) as [ws|] eqn:Hw.
  - rewrite (fixAdded_spec p g p ws Hn Hw). split.
    + intros n. cbn. rewrite lookup_alter_eq, Hn. cbn. intros [= <-].
      by apply carries_applyAdded.
    + intros ws' Hw'. assert (ws' = ws) as -> by congruence.
      apply rewired_linksFrom. apply dom_alter_L.
  - rewrite fixAdded_skip by auto. split.
    + intros n Hn'. assert (n = p) as -> by congruence. apply carries_self.
    + intros ws Hw'. congruence.
Qed.

Lemma settled_local p j g g' :
  localAt j g g' → j ≠ id p → settled p g → settled p g'.
Proof.
  intros Hl Hne [Hn Hw]. split.
  - intros n. rewrite (localAt_other _ _ _ _ Hl) by done. apply Hn.
  - intros ws Hws. rewrite (localAt_linksFrom _ _ _ _ Hl) by done.
    rewrite (Hw ws Hws). f_equal. apply wireLinks_dom.
    symmetry. by apply localAt_dom in Hl.
Qed.

Lemma settled_remove p j g :
  j ≠ id p → settled p g → settled p (RED_remove j g).
Proof.
  intros Hne [Hn Hw]. split; cbn.
  - intros n. rewrite lookup_delete_ne by done. apply Hn.
  - intros ws Hws. specialize (Hw ws Hws).
    apply set_eq. intros l.
    rewrite elem_of_linksFrom, elem_of_list_to_set, elem_of_wireLinks. cbn.
    rewrite elem_of_filter, dom_delete_L, elem_of_difference, elem_of_singleton.
    assert (l ∈ linksFrom g (id p) ↔ l ∈ wireLinks g (id p) ws) as Hl
      by by rewrite Hw, elem_of_list_to_set.
    rewrite elem_of_linksFrom, elem_of_wireLinks in Hl.
    unfold asks in *. naive_solver.
Qed.

(** *** Storing a batch *)

Lemma lookup_stored_notin (batch : list node) (m : gmap string node) j :
  j ∉ idsOf batch →
  foldl (fun m n => <[id n := n]> m) m batch !! j = m !! j.
Proof.
  revert m. induction batch as [|a batch IH]; intros m Hj; [done|].
  cbn in *. apply not_elem_of_cons in Hj as [Hja Hj].
  rewrite IH by done. by rewrite lookup_insert_ne.
Qed.

Lemma lookup_stored_in (batch : list node) (m : gmap string node) j :
  j ∈ idsOf batch →
  ∃ p, p ∈ batch ∧ id p = j
       ∧ foldl (fun m n => <[id n := n]> m) m batch !! j = Some p.
Proof.
  revert m. induction batch as [|a batch IH]; intros m Hj;
    [by apply elem_of_nil in Hj|].
  cbn. destruct (decide (j ∈ idsOf batch)) as [Hin|Hout].
  - destruct (IH (<[id a := a]> m) Hin) as (p & Hp & Hid & Hl).
    exists p. split; [by right|done].
  - cbn in Hj. apply elem_of_cons in Hj as [->|Hj]; [|done].
    exists a. split; [by left|]. split; [done|].
    rewrite lookup_stored_notin by done. apply lookup_insert_eq.
Qed.

Lemma lookup_stored_NoDup (batch : list node) (m : gmap string node) p :
  NoDup (idsOf batch) → p ∈ batch →
  foldl (fun m n => <[id n := n]> m) m batch !! id p = Some p.
Proof.
  revert m. induction batch as [|a batch IH]; intros m Hnd Hp;
    [by apply elem_of_nil in Hp|].
  cbn in Hnd. apply NoDup_cons in Hnd as [Ha Hnd]. cbn.
  apply elem_of_cons in Hp as [->|Hp].
  - rewrite lookup_stored_notin by done. apply lookup_insert_eq.
  - by apply IH.
Qed.

Lemma addNewNodes_eq (batch : list node) g :
  addNewNodes batch g
  = foldl (fun g newNode => fixAdded newNode g) (RED_import batch g) batch.
Proof.
  destruct batch as [|a batch]; [|done]. cbn.
  destruct g as [ns lk]. unfold RED_import; cbn. f_equal. set_solver.
Qed.

(** *** Folding local steps *)

Section Folds.
Variable step : node → graph → graph.
Hypothesis step_local : ∀ p g, localAt (id p) g (step p g).

Lemma fold_dom (batch : list node) g :
  dom (nodes (foldl (fun g p => step p g) g batch)) = dom (nodes g).
Proof.
  revert g. induction batch as [|a batch IH]; intros g; [done|].
  cbn. rewrite IH. by apply localAt_dom with (j := id a).
Qed.

Lemma fold_z (batch : list node) g j :
  z <$> nodes (foldl (fun g p => step p g) g batch) !! j = z <$> nodes g !! j.
Proof.
  revert g. induction batch as [|a batch IH]; intros g; [done|].
  cbn. rewrite IH. by apply localAt_z with (j := id a).
Qed.

Lemma fold_other (batch : list node) g j :
  j ∉ idsOf batch →
  nodes (foldl (fun g p => step p g) g batch) !! j = nodes g !! j.
Proof.
  revert g. induction batch as [|a batch IH]; intros g Hj; [done|].
  cbn in *. apply not_elem_of_cons in Hj as [Hja Hj].
  rewrite IH by done. by apply localAt_other with (j := id a).
Qed.

Lemma fold_settled (batch : list node) g p :
  id p ∉ idsOf batch → settled p g →
  settled p (foldl (fun g p => step p g) g batch).
Proof.
  revert g. induction batch as [|a batch IH]; intros g Hj Hs; [done|].
  cbn in *. apply not_elem_of_cons in Hj as [Hja Hj].
  apply IH; [done|]. apply (settled_local p (id a) g); [done|congruence|done].
Qed.

End Folds.

(** *** Removing orphans *)

Lemma nodes_removeOrphans (ids : list string) (keep : gset string) g j :
  nodes (removeOrphans ids keep g) !! j
  = if decide (j ∈ ids ∧ j ∉ keep) then None else nodes g !! j.
Proof.
  unfold removeOrphans. revert g.
  induction ids as [|a ids IH]; intros g; cbn.
  - rewrite decide_False; [done|]. intros [?%elem_of_nil _]. done.
  - rewrite IH. destruct (decide (j ∈ ids ∧ j ∉ keep)) as [[Hi Hk]|Hn].
    + rewrite decide_True; [done|]. split; [by right|done].
    + destruct (decide (a ∈ keep)) as [Ha|Ha].
      * rewrite decide_False; [done|]. intros [[->|Hi]%elem_of_cons Hk]; tauto.
      * cbn. destruct (decide (j = a)) as [->|Hne].
        -- rewrite lookup_delete_eq, decide_True; [done|]. split; [left|done].
        -- rewrite lookup_delete_ne by done.
           rewrite decide_False; [done|].
           intros [[->|Hi]%elem_of_cons Hk]; tauto.
Qed.

Lemma removeOrphans_noop (ids : list string) (keep : gset string) g :
  (∀ j, j ∈ ids → j ∈ keep) → removeOrphans ids keep g = g.
Proof.
  unfold removeOrphans. revert g.
  induction ids as [|a ids IH]; intros g Hall; [done|].
  cbn. rewrite decide_True by (apply Hall; left).
  apply IH. intros j Hj. apply Hall. by right.
Qed.

Lemma settled_removeOrphans (ids : list string) (keep : gset string) g p :
  id p ∈ keep → settled p g → settled p (removeOrphans ids keep g).
Proof.
  intros Hk. unfold removeOrphans. revert g.
  induction ids as [|a ids IH]; intros g Hs; [done|].
  cbn. apply IH. case_decide; [done|].
  apply settled_remove; [|done]. intros ->. done.
Qed.

(** *** The flow and its two parts *)

Lemma idsOf_withZ tab (flow : list node) : idsOf (withZ tab <$> flow) = idsOf flow.
Proof. unfold idsOf. induction flow as [|a flow IH]; [done|]. cbn. by rewrite IH. Qed.

Lemma z_of_withZ tab (flow : list node) p : p ∈ withZ tab <$> flow → z p = tab.
Proof. intros (q & -> & _)%list_elem_of_fmap. done. Qed.

Lemma elem_of_idsOf (flow : list node) j :
  j ∈ idsOf flow ↔ ∃ p, p ∈ flow ∧ id p = j.
Proof. unfold idsOf. rewrite list_elem_of_fmap. naive_solver. Qed.

Lemma elem_of_idsOf_filter (P : node → Prop) `{!∀ n, Decision (P n)}
    (flow : list node) j :
  j ∈ idsOf (filter P flow) ↔ ∃ p, p ∈ flow ∧ P p ∧ id p = j.
Proof.
  rewrite elem_of_idsOf. setoid_rewrite list_elem_of_filter. naive_solver.
Qed.

Lemma NoDup_idsOf_filter (P : node → Prop) `{!∀ n, Decision (P n)}
    (flow : list node) :
  NoDup (idsOf flow) → NoDup (idsOf (filter P flow)).
Proof.
  induction flow as [|a flow IH]; [done|].
  intros Hnd. change (idsOf (a :: flow)) with (id a :: idsOf flow) in Hnd.
  apply NoDup_cons in Hnd as [Ha Hnd]. rewrite filter_cons.
  destruct (decide (P a)) as [HPa|HPa]; [|by apply IH].
  change (NoDup (id a :: idsOf (filter P flow))). apply NoDup_cons. split.
  - intros (p & Hp & _ & Hid)%elem_of_idsOf_filter. apply Ha.
    apply elem_of_idsOf. eauto.
  - by apply IH.
Qed.

Lemma filter_all {X} (P : X → Prop) `{!∀ e, Decision (P e)} (l : list X) :
  (∀ a, a ∈ l → P a) → filter P l = l.
Proof.
  induction l as [|a l IH]; intros Hall; [done|].
  rewrite filter_cons, decide_True by (apply Hall; left).
  f_equal. apply IH. intros b Hb. apply Hall. by right.
Qed.

Lemma filter_none {X} (P : X → Prop) `{!∀ e, Decision (P e)} (l : list X) :
  (∀ a, a ∈ l → ¬ P a) → filter P l = [].
Proof.
  induction l as [|a l IH]; intros Hall; [done|].
  rewrite filter_cons, decide_False by (apply Hall; left).
  apply IH. intros b Hb. apply Hall. by right.
Qed.

Lemma elem_of_dom_existingIn tab g j :
  j ∈ dom (existingIn tab g) ↔ ∃ n, nodes g !! j = Some n ∧ z n = tab.
Proof.
  unfold existingIn. rewrite elem_of_dom. unfold is_Some.
  setoid_rewrite map_lookup_filter_Some. naive_solver.
Qed.

Lemma elem_of_dom_existingIn_z tab g j :
  j ∈ dom (existingIn tab g) ↔ z <$> nodes g !! j = Some tab.
Proof.
  rewrite elem_of_dom_existingIn. destruct (nodes g !! j) as [n|]; cbn.
  - split; [intros (n' & [= <-] & <-); done|]. intros [= <-]. eauto.
  - split; [by intros (? & ? & _)|done].
Qed.

(** *** The merged graph, node by node *)

Section Merged.
Variables (tab : string) (flow : list node) (g : graph).

Local Abbreviation flow' := (withZ tab <$> flow).
Local Abbreviation nodesToUpdate :=
  (filter (fun n => id n ∈ dom (existingIn tab g)) flow').
Local Abbreviation nodesToAdd :=
  (filter (fun n => id n ∉ dom (existingIn tab g)) flow').
Local Abbreviation added := (addNewNodes nodesToAdd g).
Local Abbreviation updated := (updateExistingNodes nodesToUpdate added).

Lemma smartMerge_phases :
  smartMerge tab flow g
  = removeOrphans (elements (dom (existingIn tab g)))
      (list_to_set (idsOf flow)) updated.
Proof. unfold smartMerge. by rewrite <- (idsOf_withZ tab flow). Qed.

Lemma elem_of_toUpdate j :
  j ∈ idsOf nodesToUpdate ↔ j ∈ idsOf flow ∧ j ∈ dom (existingIn tab g).
Proof.
  rewrite elem_of_idsOf_filter.
  rewrite <- (idsOf_withZ tab flow), elem_of_idsOf. naive_solver.
Qed.

Lemma elem_of_toAdd j :
  j ∈ idsOf nodesToAdd ↔ j ∈ idsOf flow ∧ j ∉ dom (existingIn tab g).
Proof.
  rewrite elem_of_idsOf_filter.
  rewrite <- (idsOf_withZ tab flow), elem_of_idsOf. naive_solver.
Qed.

Lemma nodes_added_other j :
  j ∉ idsOf nodesToAdd → nodes added !! j = nodes g !! j.
Proof.
  intros Hj. rewrite addNewNodes_eq.
  rewrite (fold_other _ fixAdded_local) by done.
  by apply lookup_stored_notin.
Qed.

Lemma z_added j : j ∈ idsOf nodesToAdd → z <$> nodes added !! j = Some tab.
Proof.
  intros Hj. rewrite addNewNodes_eq.
  rewrite (fold_z _ fixAdded_local). cbn.
  destruct (lookup_stored_in nodesToAdd (nodes g) j Hj) as (p & Hp & _ & ->).
  cbn. f_equal. apply (z_of_withZ tab flow).
  by apply list_elem_of_filter in Hp as [_ Hp].
Qed.

Lemma nodes_updated_other j :
  j ∉ idsOf flow → nodes updated !! j = nodes g !! j.
Proof.
  intros Hj. unfold updateExistingNodes.
  rewrite (fold_other _ updateExisting_local)
    by (rewrite elem_of_toUpdate; naive_solver).
  apply nodes_added_other. rewrite elem_of_toAdd. naive_solver.
Qed.

Lemma z_updated j : j ∈ idsOf flow → z <$> nodes updated !! j = Some tab.
Proof.
  intros Hj. unfold updateExistingNodes.
  rewrite (fold_z _ updateExisting_local).
  destruct (decide (j ∈ dom (existingIn tab g))) as [He|He].
  - rewrite nodes_added_other by (rewrite elem_of_toAdd; naive_solver).
    by apply elem_of_dom_existingIn_z.
  - apply z_added. by apply elem_of_toAdd.
Qed.

Lemma merged_proposed j :
  j ∈ idsOf flow → z <$> nodes (smartMerge tab flow g) !! j = Some tab.
Proof.
  intros Hj. rewrite smartMerge_phases, nodes_removeOrphans.
  rewrite decide_False; [by apply z_updated|].
  intros [_ Hn]. apply Hn. by apply elem_of_list_to_set.
Qed.

Lemma merged_orphan j :
  j ∈ dom (existingIn tab g) → j ∉ idsOf flow →
  nodes (smartMerge tab flow g) !! j = None.
Proof.
  intros He Hj. rewrite smartMerge_phases, nodes_removeOrphans.
  rewrite decide_True; [done|]. split; [by apply elem_of_elements|].
  by rewrite elem_of_list_to_set.
Qed.

Lemma merged_outside j :
  j ∉ dom (existingIn tab g) → j ∉ idsOf flow →
  nodes (smartMerge tab flow g) !! j = nodes g !! j.
Proof.
  intros He Hj. rewrite smartMerge_phases, nodes_removeOrphans.
  rewrite decide_False; [by apply nodes_updated_other|].
  intros [Hin _]. by apply elem_of_elements in Hin.
Qed.

Lemma merged_container :
  dom (existingIn tab (smartMerge tab flow g)) = list_to_set (idsOf flow).
Proof.
  apply set_eq. intros j.
  rewrite elem_of_dom_existingIn_z, elem_of_list_to_set. split.
  - intros Hz. destruct (decide (j ∈ idsOf flow)) as [|Hj]; [done|]. exfalso.
    destruct (decide (j ∈ dom (existingIn tab g))) as [He|He].
    + by rewrite (merged_orphan j He Hj) in Hz.
    + rewrite (merged_outside j He Hj) in Hz.
      by apply elem_of_dom_existingIn_z in Hz.
  - apply merged_proposed.
Qed.

(** With pairwise distinct identifiers every proposal is in place after
    the merge. *)
Lemma fold_fixAdded_settled (batch : list node) g0 p :
  NoDup (idsOf batch) → p ∈ batch →
  (∀ q, q ∈ batch → nodes g0 !! id q = Some q) →
  settled p (foldl (fun g newNode => fixAdded newNode g) g0 batch).
Proof.
  revert g0. induction batch as [|a batch IH]; intros g0 Hnd Hp Hall;
    [by apply elem_of_nil in Hp|].
  cbn in Hnd. apply NoDup_cons in Hnd as [Ha Hnd]. cbn.
  apply elem_of_cons in Hp as [->|Hp].
  - apply (fold_settled _ fixAdded_local); [done|].
    apply settled_fixAdded, Hall. left.
  - apply IH; [done|done|]. intros q Hq.
    rewrite (localAt_other _ _ _ _ (fixAdded_local a g0)).
    + apply Hall. by right.
    + intros E. apply Ha. apply elem_of_idsOf. eauto.
Qed.

Lemma fold_update_settled (batch : list node) g0 p :
  NoDup (idsOf batch) → p ∈ batch →
  settled p (foldl (fun g newNode => updateExisting newNode g) g0 batch).
Proof.
  revert g0. induction batch as [|a batch IH]; intros g0 Hnd Hp;
    [by apply elem_of_nil in Hp|].
  cbn in Hnd. apply NoDup_cons in Hnd as [Ha Hnd]. cbn.
  apply elem_of_cons in Hp as [->|Hp].
  - apply (fold_settled _ updateExisting_local); [done|].
    apply settled_updateExisting.
  - by apply IH.
Qed.

Lemma merged_settled p :
  NoDup (idsOf flow) → p ∈ flow' → settled p (smartMerge tab flow g).
Proof.
  intros Hnd Hp. rewrite smartMerge_phases.
  assert (NoDup (idsOf flow')) as Hnd'
    by by rewrite idsOf_withZ.
  assert (id p ∈ idsOf flow) as Hid.
  { rewrite <- (idsOf_withZ tab flow). apply elem_of_idsOf. eauto. }
  apply settled_removeOrphans; [by apply elem_of_list_to_set|].
  unfold updateExistingNodes.
  destruct (decide (id p ∈ dom (existingIn tab g))) as [He|He].
  - apply fold_update_settled.
    + by apply NoDup_idsOf_filter.
    + by apply list_elem_of_filter.
  - apply (fold_settled _ updateExisting_local).
    { rewrite elem_of_toUpdate. naive_solver. }
    rewrite addNewNodes_eq.
    assert (NoDup (idsOf nodesToAdd)) as HndA by by apply NoDup_idsOf_filter.
    apply fold_fixAdded_settled; [done| |].
    + by apply list_elem_of_filter.
    + intros q Hq. cbn. by apply lookup_stored_NoDup.
Qed.

End Merged.

(** *** Running the merge on its own result *)

Lemma settled_links_unchanged p g :
  settled p g → links (updateExisting p g) = links g.
Proof.
  intros [_ Hw]. rewrite updateExisting_spec. cbn.
  destruct (wires p) as [ws|]; [|done].
  rewrite <- (Hw ws eq_refl). apply set_eq. intros l.
  rewrite elem_of_union, elem_of_difference, elem_of_linksFrom.
  destruct (decide (source l = id p)); naive_solver.
Qed.

Lemma updates_on_settled (batch : list node) g :
  NoDup (idsOf batch) → (∀ p, p ∈ batch → settled p g) →
  links (updateExistingNodes batch g) = links g
  ∧ ∀ j, withoutFlags <$> nodes (updateExistingNodes batch g) !! j
         = withoutFlags <$> nodes g !! j.
Proof.
  unfold updateExistingNodes. revert g.
  induction batch as [|a batch IH]; intros g Hnd Hall; [done|].
  cbn in Hnd. apply NoDup_cons in Hnd as [Ha Hnd]. cbn.
  destruct (IH (updateExisting a g) Hnd) as [Hl Hn].
  { intros p Hp. apply (settled_local p (id a) g).
    - apply updateExisting_local.
    - intros E. apply Ha. apply elem_of_idsOf. eauto.
    - apply Hall. by right. }
  split.
  - rewrite Hl. apply settled_links_unchanged, Hall. left.
  - intros j. rewrite Hn, updateExisting_spec. cbn.
    rewrite lookup_alter. case_decide as E; [|done]. subst j.
    destruct (nodes g !! id a) as [n|] eqn:En; cbn; [|done]. f_equal.
    apply carries_withoutFlags. by apply (Hall a); [left|].
Qed.

Lemma second_merge tab (flow : list node) g :
  smartMerge tab flow (smartMerge tab flow g)
  = updateExistingNodes (withZ tab <$> flow) (smartMerge tab flow g).
Proof.
  set (g1 := smartMerge tab flow g).
  unfold smartMerge at 1. fold g1.
  assert (∀ p, p ∈ withZ tab <$> flow → id p ∈ dom (existingIn tab g1)) as Hin.
  { intros p Hp. unfold g1. rewrite merged_container, elem_of_list_to_set.
    rewrite <- (idsOf_withZ tab flow). apply elem_of_idsOf. eauto. }
  rewrite (filter_all (fun n => id n ∈ dom (existingIn tab g1))) by done.
  rewrite (filter_none (fun n => id n ∉ dom (existingIn tab g1)))
    by (intros p Hp Hn; by apply Hn, Hin).
  cbn [addNewNodes]. apply removeOrphans_noop.
  intros j Hj%elem_of_elements. unfold g1 in Hj.
  rewrite merged_container in Hj. by rewrite idsOf_withZ.
Qed.

Lemma fold_update_at (batch : list node) g p :
  NoDup (idsOf batch) → p ∈ batch →
  nodes (updateExistingNodes batch g) !! id p
  = applyUpdate p <$> nodes g !! id p.
Proof.
  unfold updateExistingNodes. revert g.
  induction batch as [|a batch IH]; intros g Hnd Hp;
    [by apply elem_of_nil in Hp|].
  cbn in Hnd. apply NoDup_cons in Hnd as [Ha Hnd]. cbn.
  apply elem_of_cons in Hp as [->|Hp].
  - rewrite (fold_other _ updateExisting_local) by done.
    rewrite updateExisting_spec. cbn. apply lookup_alter_eq.
  - rewrite IH by done.
    rewrite (localAt_other _ _ _ _ (updateExisting_local a g)); [done|].
    intros E. apply Ha. apply elem_of_idsOf. eauto.
Qed.

Lemma merged_updated tab (flow : list node) g p n :
  NoDup (idsOf flow) → p ∈ withZ tab <$> flow →
  nodes g !! id p = Some n → z n = tab →
  nodes (smartMerge tab flow g) !! id p = Some (applyUpdate p n).
Proof.
  intros Hnd Hp Hn Hz.
  assert (id p ∈ idsOf flow) as Hid.
  { rewrite <- (idsOf_withZ tab flow). apply elem_of_idsOf. eauto. }
  assert (id p ∈ dom (existingIn tab g)) as He
    by (apply elem_of_dom_existingIn; eauto).
  rewrite smartMerge_phases, nodes_removeOrphans.
  rewrite decide_False by (rewrite elem_of_list_to_set; tauto).
  rewrite fold_update_at.
  - rewrite nodes_added_other by (rewrite elem_of_toAdd; tauto).
    by rewrite Hn.
  - apply NoDup_idsOf_filter. by rewrite idsOf_withZ.
  - by apply list_elem_of_filter.
Qed.




Lemma smartMerge_again tab (flow : list node) g :
  NoDup (idsOf flow) →
  links (smartMerge tab flow (smartMerge tab flow g))
    = links (smartMerge tab flow g)
  ∧ ∀ j, withoutFlags <$> nodes (smartMerge tab flow (smartMerge tab flow g)) !! j
         = withoutFlags <$> nodes (smartMerge tab flow g) !! j.
Proof.
  intros Hnd. rewrite second_merge. apply updates_on_settled.
  - by rewrite idsOf_withZ.
  - intros p Hp. by apply merged_settled.
Qed.

(** C1, as the code has it.  For a proposal whose identifiers are pairwise
    distinct, applying it to the result of its own application adds no
    node, removes no node, moves no node to another tab, changes no link
    and changes no field of any node, the editor's flags [changed] and
    [dirty] apart.  On these the second application does write: every
    proposed node is now an update, so its [dirty] flag is set, and a
    [changed] value that the proposal carries is written over the one
    the first application left. *)
Theorem merge_idempotent tab (flow : list node) g :
  NoDup (idsOf flow) →
  let g1 := applyFlow tab flow g in
  let g2 := applyFlow tab flow g1 in
  links g2 = links g1
  ∧ dom (nodes g2) = dom (nodes g1)
  ∧ (∀ j, withoutFlags <$> nodes g2 !! j = withoutFlags <$> nodes g1 !! j)
  ∧ (∀ j, z <$> nodes g2 !! j = z <$> nodes g1 !! j)
  ∧ (∀ p, p ∈ flow →
       ∃ n1 n2, nodes g1 !! id p = Some n1 ∧ nodes g2 !! id p = Some n2
         ∧ props n2 !! "dirty" = Some (PBool true)
         ∧ props n2 !! "changed"
           = nullish_or (props p !! "changed") (props n1 !! "changed")).
Proof.
  intros Hnd g1 g2.
  assert (links g2 = links g1
          ∧ (∀ j, withoutFlags <$> nodes g2 !! j = withoutFlags <$> nodes g1 !! j))
    as (Hl & Hn).
  { subst g1 g2. destruct flow as [|a flow]; [done|].
    change (applyFlow tab (a :: flow)) with (smartMerge tab (a :: flow)).
    apply (smartMerge_again tab (a :: flow) g Hnd). }
  split; [done|]. split; [|split; [done|split]].
  - apply set_eq. intros j. rewrite !elem_of_dom. specialize (Hn j).
    destruct (nodes g2 !! j), (nodes g1 !! j); cbn in Hn; try done;
      by rewrite <- !not_eq_None_Some.
  - intros j. specialize (Hn j).
    destruct (nodes g2 !! j) as [n2|], (nodes g1 !! j) as [n1|];
      cbn in Hn |- *; try done.
    apply (inj Some) in Hn. f_equal. exact (f_equal z Hn).
  - intros p Hp. subst g1 g2.
    destruct flow as [|a flow]; [by apply elem_of_nil in Hp|].
    change (applyFlow tab (a :: flow)) with (smartMerge tab (a :: flow)).
    set (fl := a :: flow) in *. set (g1 := smartMerge tab fl g).
    assert (id p ∈ idsOf fl) as Hid by (apply elem_of_idsOf; eauto).
    pose proof (merged_proposed tab fl g (id p) Hid) as Hz. fold g1 in Hz.
    destruct (nodes g1 !! id p) as [n1|] eqn:En1; [|done].
    injection Hz as Hz.
    assert (withZ tab p ∈ withZ tab <$> fl) as Hp'
      by (apply list_elem_of_fmap; eauto).
    pose proof (merged_updated tab fl g1 (withZ tab p) n1 Hnd Hp' En1 Hz) as E.
    exists n1, (applyUpdate (withZ tab p) n1). split; [done|].
    split; [exact E|]. rewrite props_applyUpdate. split.
    + apply lookup_insert_eq.
    + rewrite lookup_insert_ne by done. rewrite lookup_union. cbn [props withZ].
      assert ("changed" ∉ skipKeys) as Hc
        by (apply (bool_decide_unpack _); by vm_compute).
      destruct (props p !! "changed") as [v|] eqn:Ep.
      * rewrite (proj2 (map_lookup_filter_Some _ _ "changed" v)) by done.
        by destruct (props n1 !! "changed").
      * rewrite (proj2 (map_lookup_filter_None _ _ "changed")) by (left; done).
        by rewrite (left_id_L None union).
Qed.


(** C3, as the code has it.  An update of an existing node keeps its
    identifier, type and tab; takes each coordinate from the proposal when
    the proposal has it and keeps the old one otherwise; takes the wires
    list from the proposal when it has one, and then the links out of the
    node become those the list asks for among the existing nodes, while
    without a wires list no link changes; copies every proposed key outside
    the six special ones, except that [dirty] is set to true whatever the
    proposal says; leaves every other key and every other node as it was.
    Within a merge of pairwise distinct identifiers this is what happens to
    each proposed node found in the target tab. *)
Theorem update_frame p g n :
  nodes g !! id p = Some n →
  ∃ n', nodes (updateExisting p g) !! id p = Some n'
    ∧ id n' = id n ∧ type n' = type n ∧ z n' = z n
    ∧ x n' = nullish_or (x p) (x n)
    ∧ y n' = nullish_or (y p) (y n)
    ∧ wires n' = nullish_or (wires p) (wires n)
    ∧ (∀ k, k ∉ skipKeys → k ≠ "dirty" →
         props n' !! k = nullish_or (props p !! k) (props n !! k))
    ∧ (∀ k, k ∈ skipKeys → props n' !! k = props n !! k)
    ∧ props n' !! "dirty" = Some (PBool true)
    ∧ (wires p = None → links (updateExisting p g) = links g)
    ∧ (∀ ws l, wires p = Some ws →
         l ∈ links (updateExisting p g) ↔
           (l ∈ links g ∧ source l ≠ id p)
           ∨ (asks (id p) ws l ∧ target l ∈ dom (nodes g)))
    ∧ (∀ j, j ≠ id p → nodes (updateExisting p g) !! j = nodes g !! j)
    ∧ (∀ tab flow, NoDup (idsOf flow) → p ∈ withZ tab <$> flow → z n = tab →
         nodes (smartMerge tab flow g) !! id p = Some n').
Proof.
  intros Hn. exists (applyUpdate p n).
  rewrite updateExisting_spec. cbn [nodes links].
  split; [by rewrite lookup_alter_eq, Hn|].
  split; [apply id_type_applyUpdate|]. split; [apply id_type_applyUpdate|].
  split; [apply z_applyUpdate|]. split; [apply x_applyUpdate|].
  split; [apply y_applyUpdate|]. split; [apply wires_applyUpdate|].
  split.
  { intros k Hk Hd. rewrite props_applyUpdate, lookup_insert_ne by done.
    rewrite lookup_union.
    destruct (props p !! k) as [v|] eqn:Ep.
    - rewrite (proj2 (map_lookup_filter_Some _ _ k v)) by done.
      by destruct (props n !! k).
    - rewrite (proj2 (map_lookup_filter_None _ _ k)) by (left; done).
      by rewrite (left_id_L None union). }
  split.
  { intros k Hk. rewrite props_applyUpdate.
    assert ("dirty" ∉ skipKeys) as Hd
      by (apply (bool_decide_unpack _); by vm_compute).
    rewrite lookup_insert_ne by (by intros <-).
    rewrite lookup_union.
    rewrite (proj2 (map_lookup_filter_None _ _ k))
      by (right; intros v _ Hc; by apply Hc).
    by rewrite (left_id_L None union). }
  split; [by rewrite props_applyUpdate, lookup_insert_eq|].
  split; [by intros ->|].
  split.
  { intros ws l ->.
    rewrite elem_of_union, elem_of_difference, elem_of_linksFrom,
      elem_of_list_to_set, elem_of_wireLinks. tauto. }
  split; [intros j Hj; by rewrite lookup_alter_ne|].
  intros tab flow Hnd Hp Hz. by apply merged_updated.
Qed.

End MergeFacts.

Lemma merge_idempotent_witness :
  let g1 := Merge.applyFlow "tab1" Merge.sampleFlow Merge.sampleGraph in
  let g2 := Merge.applyFlow "tab1" Merge.sampleFlow g1 in
  Merge.links g2 = Merge.links g1
  ∧ dom (Merge.nodes g2) = dom (Merge.nodes g1)
  ∧ (∀ j, Merge.withoutFlags <$> Merge.nodes g2 !! j
          = Merge.withoutFlags <$> Merge.nodes g1 !! j)
  ∧ (∀ j, Merge.z <$> Merge.nodes g2 !! j = Merge.z <$> Merge.nodes g1 !! j)
  ∧ (∀ p, p ∈ Merge.sampleFlow →
       ∃ n1 n2, Merge.nodes g1 !! Merge.id p = Some n1
         ∧ Merge.nodes g2 !! Merge.id p = Some n2
         ∧ Merge.props n2 !! "dirty" = Some (Merge.PBool true)
         ∧ Merge.props n2 !! "changed"
           = Merge.nullish_or (Merge.props p !! "changed")
               (Merge.props n1 !! "changed")).
Proof.
  apply (merge_idempotent "tab1" Merge.sampleFlow Merge.sampleGraph).
  apply (bool_decide_unpack _). by vm_compute.
Defined.

(** C1 as the specification states it fails on a proposal of one new
    node that carries a [changed] value.  The first application imports
    the node and, fixing its wires, sets [changed] to true (line 170);
    the second application finds the node in the tab and copies the
    proposed value over it (line 185).  The two results differ. *)
Lemma merge_second_run_rewrites_changed :
  let g1 := Merge.applyFlow "tab1" Merge.flaggedFlow Merge.emptyGraph in
  let g2 := Merge.applyFlow "tab1" Merge.flaggedFlow g1 in
  NoDup (Merge.idsOf Merge.flaggedFlow)
  ∧ (Merge.nodes g1 !! "n1") ≫= (fun n => Merge.props n !! "changed")
    = Some (Merge.PBool true)
  ∧ (Merge.nodes g2 !! "n1") ≫= (fun n => Merge.props n !! "changed")
    = Some (Merge.PBool false)
  ∧ g2 ≠ g1.
Proof.
  cbn zeta.
  assert ((Merge.nodes (Merge.applyFlow "tab1" Merge.flaggedFlow Merge.emptyGraph)
             !! "n1") ≫= (fun n => Merge.props n !! "changed")
          = Some (Merge.PBool true)) as H1 by by vm_compute.
  assert ((Merge.nodes
             (Merge.applyFlow "tab1" Merge.flaggedFlow
                (Merge.applyFlow "tab1" Merge.flaggedFlow Merge.emptyGraph))
             !! "n1") ≫= (fun n => Merge.props n !! "changed")
          = Some (Merge.PBool false)) as H2 by by vm_compute.
  split; [apply (bool_decide_unpack _); by vm_compute|].
  split; [done|]. split; [done|].
  intros E. rewrite E, H1 in H2. clear E H1. discriminate H2.
Qed.

(** A new node without wires list is imported and not touched again by
    the first application; the second one updates it and sets [dirty]
    (line 224).  (What the import leaves in [dirty] is the editor's; the
    embedding stores the node as it is proposed.) *)
Example merge_second_run_sets_dirty :
  let g1 := Merge.applyFlow "tab1" Merge.bareFlow Merge.emptyGraph in
  let g2 := Merge.applyFlow "tab1" Merge.bareFlow g1 in
  (Merge.nodes g1 !! "n1") ≫= (fun n => Merge.props n !! "dirty") = None
  ∧ (Merge.nodes g2 !! "n1") ≫= (fun n => Merge.props n !! "dirty")
    = Some (Merge.PBool true).
Proof. split; by vm_compute. Qed.

(** A proposal that names a new node twice is outside the data model
    (identifiers are unique); the code does not guard against it.  In the
    model the first application stores one of the two nodes and the
    second writes the fields of both onto it. *)
Example merge_of_duplicates :
  let g1 := Merge.applyFlow "tab1" Merge.duplicateFlow Merge.emptyGraph in
  let g2 := Merge.applyFlow "tab1" Merge.duplicateFlow g1 in
  (Merge.nodes g1 !! "n1") ≫= (fun n => Merge.props n !! "extra") = None
  ∧ (Merge.nodes g2 !! "n1") ≫= (fun n => Merge.props n !! "extra")
    = Some (Merge.PNum 1).
Proof. split; by vm_compute. Qed.


Example merge_sample :
  dom (Merge.nodes (Merge.smartMerge "tab1" Merge.sampleFlow Merge.sampleGraph))
    = {[ "A"; "D" ]}
  ∧ Merge.links (Merge.smartMerge "tab1" Merge.sampleFlow Merge.sampleGraph)
    = {[ ("A", 0%nat, "D") ]}
  ∧ Merge.x <$> Merge.nodes
      (Merge.smartMerge "tab1" Merge.sampleFlow Merge.sampleGraph) !! "A"
    = Some (Some 120).
Proof. repeat split; apply (bool_decide_unpack _); by vm_compute. Qed.

Lemma update_frame_witness :
  ∃ n', Merge.nodes (Merge.updateExisting Merge.dirtyProposal Merge.sampleGraph)
          !! "A" = Some n'
    ∧ Merge.wires n' = Some [["B"]]
    ∧ Merge.props n' !! "name" = Some (Merge.PStr (txt "tick"))
    ∧ Merge.props n' !! "dirty" = Some (Merge.PBool true)
    ∧ Merge.links (Merge.updateExisting Merge.dirtyProposal Merge.sampleGraph)
      = Merge.links Merge.sampleGraph.
Proof.
  destruct (update_frame Merge.dirtyProposal Merge.sampleGraph
              (Merge.plain "A" "inject" "tab1" (Some [["B"]])
                 {[ "name" := Merge.PStr (txt "tick") ]}))
    as (n' & Hn' & _ & _ & _ & _ & _ & Hw & Hp & _ & Hd & Hl & _);
    [by vm_compute|].
  exists n'. split; [exact Hn'|]. split; [exact Hw|].
  split.
  - rewrite (Hp "name").
    + reflexivity.
    + apply (bool_decide_unpack _). by vm_compute.
    + discriminate.
  - split; [exact Hd|]. by apply Hl.
Defined.

(** C3 as the specification states it fails for the key [dirty]: it is
    not one of the six excepted keys, the proposal gives [false], and the
    updated node holds [true]. *)
Lemma update_overrides_proposed_dirty :
  "dirty" ∉ Merge.skipKeys
  ∧ Merge.props Merge.dirtyProposal !! "dirty" = Some (Merge.PBool false)
  ∧ (Merge.nodes (Merge.updateExisting Merge.dirtyProposal Merge.sampleGraph)
       !! "A") ≫= (fun n => Merge.props n !! "dirty")
    = Some (Merge.PBool true).
Proof.
  split; [apply (bool_decide_unpack _); by vm_compute|].
  split; by vm_compute.
Qed.

Section RetryMoreFacts.
Import Retry Backoff.
Context {A : Type}.
Implicit Types (requestFn : nat → outcome A) (r : response).

Lemma retryLoop_resolved requestFn remaining calls a :
  requestFn calls = Resolved a →
  retryLoop requestFn (S remaining) calls = (Resolved a, [Call]).
Proof. intros Hf. cbn [retryLoop]. by rewrite Hf. Qed.

Lemma retryLoop_callCount_le requestFn remaining calls :
  (callCount (retryLoop requestFn remaining calls).2 ≤ remaining)%nat.
Proof.
  revert calls. induction remaining as [|n IH]; intros calls; [done|].
  destruct (requestFn calls) as [a|e] eqn:Hf.
  - rewrite (retryLoop_resolved _ _ _ _ Hf). cbn. lia.
  - destruct (is429 e) eqn:He.
    + destruct e as [r|m]; [|done]. cbn in He. apply Z.eqb_eq in He.
      rewrite (retryLoop_429 _ _ _ _ Hf He). cbn [snd].
      rewrite callCount_cons_backoff. specialize (IH (S calls)). lia.
    + rewrite (retryLoop_other _ _ _ _ Hf He). cbn. lia.
Qed.

Lemma sleeps_cons_backoff r effs :
  sleeps (Call :: backoff r ++ effs) = waitMs r :: sleeps effs.
Proof. reflexivity. Qed.

(** The run up to the first invocation that is not rate-limited. *)
Lemma retryLoop_settles requestFn remaining calls k :
  (k < remaining)%nat →
  (∀ j, (j < k)%nat → rateLimitedAt requestFn (calls + j)) →
  ¬ rateLimitedAt requestFn (calls + k) →
  (retryLoop requestFn remaining calls).1 = requestFn (calls + k)%nat
  ∧ callCount (retryLoop requestFn remaining calls).2 = S k
  ∧ length (sleeps (retryLoop requestFn remaining calls).2) = k
  ∧ ∀ j r, (j < k)%nat → requestFn (calls + j)%nat = Rejected (HttpError r) →
      sleeps (retryLoop requestFn remaining calls).2 !! j = Some (waitMs r).
Proof.
  revert calls k. induction remaining as [|n IH]; intros calls k Hk Hpre Hnot; [lia|].
  destruct k as [|k].
  - rewrite Nat.add_0_r in *.
    destruct (requestFn calls) as [a|e] eqn:Hf.
    + rewrite (retryLoop_resolved _ _ _ _ Hf). repeat split; [done..|]. lia.
    + assert (is429 e = false) as He.
      { destruct e as [r|m]; [|done]. cbn. apply Z.eqb_neq. intros Hs.
        apply Hnot. by exists r. }
      rewrite (retryLoop_other _ _ _ _ Hf He). repeat split; [done..|]. lia.
  - destruct (Hpre 0%nat) as (r & Hr & Hs); [lia|].
    rewrite Nat.add_0_r in Hr.
    rewrite (retryLoop_429 _ _ _ _ Hr Hs). cbn [fst snd].
    rewrite callCount_cons_backoff, sleeps_cons_backoff. cbn [length].
    destruct (IH (S calls) k) as (-> & -> & -> & Hsl); [lia| | |].
    + intros j Hj. replace (S calls + j)%nat with (calls + S j)%nat by lia.
      apply Hpre. lia.
    + by replace (S calls + k)%nat with (calls + S k)%nat by lia.
    + replace (S calls + k)%nat with (calls + S k)%nat by lia.
      repeat split; [done..|].
      intros [|j] r' Hj Hr'.
      * rewrite Nat.add_0_r, Hr in Hr'. by injection Hr' as ->.
      * cbn. apply Hsl; [lia|].
        by replace (S calls + j)%nat with (calls + S j)%nat by lia.
Qed.

End RetryMoreFacts.

(** Whatever the wrapped request does, [with429Retry] invokes it at most
    ten times, and at least once. *)
Theorem retry_call_bound (A : Type) (requestFn : nat → Retry.outcome A) :
  (1 ≤ Retry.callCount (Retry.with429Retry requestFn).2 ≤ 10)%nat.
Proof.
  split; [|apply retryLoop_callCount_le].
  unfold Retry.with429Retry.
  destruct (requestFn 0%nat) as [a|e] eqn:Hf.
  - by rewrite (retryLoop_resolved _ _ _ _ Hf).
  - destruct (Retry.is429 e) eqn:He.
    + destruct e as [r|m]; [|done]. cbn in He. apply Z.eqb_eq in He.
      rewrite (retryLoop_429 _ _ _ _ Hf He). cbn [snd].
      rewrite callCount_cons_backoff. lia.
    + by rewrite (retryLoop_other _ _ _ _ Hf He).
Qed.

(** When the first [k] invocations (k < 10) are rate-limited and the next
    one resolves, the wrapper resolves to that value after exactly [k + 1]
    invocations and [k] sleeps, the sleep after invocation [j] being the
    wait computed from its response. *)
Theorem retry_success_after_limits (A : Type)
    (requestFn : nat → Retry.outcome A) (k : nat) (a : A) :
  (k < 10)%nat →
  (∀ j, (j < k)%nat → Retry.rateLimitedAt requestFn j) →
  requestFn k = Retry.Resolved a →
  (Retry.with429Retry requestFn).1 = Retry.Resolved a
  ∧ Retry.callCount (Retry.with429Retry requestFn).2 = S k
  ∧ length (Backoff.sleeps (Retry.with429Retry requestFn).2) = k
  ∧ ∀ j r, (j < k)%nat → requestFn j = Retry.Rejected (Retry.HttpError r) →
      Backoff.sleeps (Retry.with429Retry requestFn).2 !! j = Some (Retry.waitMs r).
Proof.
  intros Hk Hpre Ha.
  destruct (retryLoop_settles requestFn 10 0 k) as (H1 & H2 & H3 & H4);
    [done|done| |].
  - intros (r & Hr & _). cbn in Hr. congruence.
  - cbn in H1. rewrite Ha in H1. done.
Qed.

Lemma retry_success_after_limits_witness :
  (Retry.with429Retry Backoff.limitedThrice).1 = Retry.Resolved (txt "ok")
  ∧ Retry.callCount (Retry.with429Retry Backoff.limitedThrice).2 = 4%nat
  ∧ length (Backoff.sleeps (Retry.with429Retry Backoff.limitedThrice).2) = 3%nat
  ∧ ∀ j r, (j < 3)%nat →
      Backoff.limitedThrice j = Retry.Rejected (Retry.HttpError r) →
      Backoff.sleeps (Retry.with429Retry Backoff.limitedThrice).2 !! j
      = Some (Retry.waitMs r).
Proof.
  apply (retry_success_after_limits text Backoff.limitedThrice 3 (txt "ok")).
  - lia.
  - intros j Hj. unfold Retry.rateLimitedAt, Backoff.limitedThrice.
    rewrite (proj2 (Nat.ltb_lt j 3) Hj). eexists. split; reflexivity.
  - reflexivity.
Defined.

Example retry_limitedThrice_sleeps :
  Backoff.sleeps (Retry.with429Retry Backoff.limitedThrice).2
  = [1000; 2000; 3000]%float.
Proof. by vm_compute. Qed.

Section PackageMoreFacts.
Import PackageInfo PackageCache.

Lemma truthyText_true (t : text) : truthyText t = true ↔ t ≠ [].
Proof. unfold truthyText. case_bool_decide; naive_solver. Qed.

Lemma orText_truthy (a b : text) : a ≠ [] → orText a b = a.
Proof. intros H. unfold orText. by rewrite (proj2 (truthyText_true a) H). Qed.

Lemma packageInfo_hit net name (cache : gmap string text) d :
  cache !! name = Some d → d ≠ [] → packageInfo net name cache = (d, cache, []).
Proof.
  intros Hc Hd. unfold packageInfo. rewrite Hc.
  change (default [] (Some d)) with d.
  rewrite orText_nil_r. by rewrite (proj2 (truthyText_true d) Hd).
Qed.

Lemma packageInfo_miss net name (cache : gmap string text) :
  default [] (cache !! name) = [] →
  packageInfo net name cache
  = (fetched net name, <[name := []]> cache,
     match registry net name with
     | Some _ => [FetchRegistry name]
     | None => [FetchRegistry name; FetchUnpkg name]
     end).
Proof.
  intros Hc. unfold packageInfo, fetched. rewrite Hc. cbn.
  destruct (registry net name) as [data|]; [done|].
  destruct (unpkg net name) as [d|]; cbn; [|done].
  do 2 f_equal. unfold truthyText. by case_bool_decide; subst.
Qed.

Lemma packageInfo_cases (name : string) (cache : gmap string text) :
  (∃ d, cache !! name = Some d ∧ d ≠ [])
  ∨ default [] (cache !! name) = [].
Proof.
  destruct (cache !! name) as [d|] eqn:E; [|by right].
  destruct d as [|c d]; [by right|]. left. by eexists.
Qed.

(** A non-empty cache entry is final: a lookup of its name returns it
    without any request and leaves the cache as it is, and a lookup of any
    name changes no entry but that name's own and no non-empty entry at
    all. *)
Theorem packageInfo_nonempty_entries_final net name (cache : gmap string text) :
  (∀ d, cache !! name = Some d → d ≠ [] →
     packageInfo net name cache = (d, cache, []))
  ∧ (∀ other, other ≠ name →
       (packageInfo net name cache).1.2 !! other = cache !! other)
  ∧ (∀ other d, cache !! other = Some d → d ≠ [] →
       (packageInfo net name cache).1.2 !! other = Some d).
Proof.
  split; [by apply packageInfo_hit|].
  destruct (packageInfo_cases name cache) as [(d & Hc & Hd)|Hmiss].
  - rewrite (packageInfo_hit net name cache d Hc Hd). by split.
  - rewrite (packageInfo_miss net name cache Hmiss). cbn [fst snd]. split.
    + intros other Hne. by rewrite lookup_insert_ne.
    + intros other d Hc Hd. destruct (decide (other = name)) as [->|Hne].
      * rewrite Hc in Hmiss. cbn in Hmiss. done.
      * by rewrite lookup_insert_ne.
Qed.

Lemma packageInfo_nonempty_entries_final_witness :
  packageInfo sampleNetwork "mirror-only"
    (<["mirror-only" := txt "Pinned"]> ∅)
  = (txt "Pinned", <["mirror-only" := txt "Pinned"]> ∅, []).
Proof.
  apply (proj1 (packageInfo_nonempty_entries_final sampleNetwork "mirror-only"
                  (<["mirror-only" := txt "Pinned"]> ∅))).
  - reflexivity.
  - discriminate.
Defined.

(** The requests of a lookup.  None when the cache holds a non-empty
    description; otherwise the registry, and the mirror exactly when the
    registry request fails.  A registry answer without a description is
    final: the mirror is not asked and the lookup returns the empty
    text. *)
Theorem packageInfo_requests net name (cache : gmap string text) :
  let log := (packageInfo net name cache).2 in
  (log = [] ↔ ∃ d, cache !! name = Some d ∧ d ≠ [])
  ∧ (FetchUnpkg name ∈ log ↔
       default [] (cache !! name) = [] ∧ registry net name = None)
  ∧ (∀ f, f ∈ log → f = FetchRegistry name ∨ f = FetchUnpkg name)
  ∧ (∀ data, default [] (cache !! name) = [] →
       registry net name = Some data → registryDescription data = [] →
       (packageInfo net name cache).1.1 = [] ∧ log = [FetchRegistry name]).
Proof.
  destruct (packageInfo_cases name cache) as [(d & Hc & Hd)|Hmiss].
  - rewrite (packageInfo_hit net name cache d Hc Hd). cbn. split; [|split; [|split]].
    + split; [by eexists|done].
    + split; [by intros ?%elem_of_nil|].
      intros [Hmiss _]. rewrite Hc in Hmiss. done.
    + by intros f ?%elem_of_nil.
    + intros data Hmiss. rewrite Hc in Hmiss. done.
  - rewrite (packageInfo_miss net name cache Hmiss). cbn [fst snd].
    split; [|split; [|split]].
    + split.
      * by destruct (registry net name).
      * intros (d & Hc & Hd). rewrite Hc in Hmiss. done.
    + destruct (registry net name) as [data|]; split.
      * intros [?|?%elem_of_nil]%elem_of_cons; done.
      * by intros [_ ?].
      * done.
      * intros _. right. left.
    + intros f Hf. destruct (registry net name);
        repeat (apply elem_of_cons in Hf as [->|Hf]; [by auto|]);
        by apply elem_of_nil in Hf.
    + intros data _ Hr Hd. unfold fetched. by rewrite Hr.
Qed.

Lemma packageInfo_requests_witness :
  (packageInfo bareRegistry "bare" ∅).1.1 = []
  ∧ (packageInfo bareRegistry "bare" ∅).2 = [FetchRegistry "bare"].
Proof.
  apply (proj2 (proj2 (proj2 (packageInfo_requests bareRegistry "bare" ∅)))
           {| dist_tags_latest := None; versions := None; description := [] |});
    reflexivity.
Defined.

Lemma setPackageInfoCache_app a b (cache : gmap string text) :
  setPackageInfoCache (a ++ b) cache
  = setPackageInfoCache b (setPackageInfoCache a cache).
Proof. apply foldl_app. Qed.

Lemma setPackageInfoCache_lookup arr (cache : gmap string text) name :
  setPackageInfoCache arr cache !! name
  = match lastFor name arr with
    | Some p => Some (pkg_description p)
    | None => cache !! name
    end.
Proof.
  induction arr as [|p arr IH] using rev_ind; [done|].
  rewrite setPackageInfoCache_app. cbn.
  unfold lastFor in *. rewrite filter_app.
  destruct (decide (pkg_name p = name)) as [E|E].
  - rewrite (filter_cons_True _ p []) by done. rewrite filter_nil.
    rewrite last_snoc. rewrite E. apply lookup_insert_eq.
  - rewrite (filter_cons_False _ p []) by done. rewrite filter_nil, app_nil_r.
    by rewrite lookup_insert_ne.
Qed.

Lemma ensurePackageInfoCache_stored raw url remote (cache : gmap string text) :
  ensurePackageInfoCache raw url remote cache
  = setPackageInfoCache (stored raw url remote) cache.
Proof.
  unfold ensurePackageInfoCache, stored.
  destruct (truthyText url); [|by rewrite app_nil_r].
  destruct remote as [data|]; cbn; [|by rewrite app_nil_r].
  by rewrite setPackageInfoCache_app.
Qed.

(** After start-up the cache holds, for each name, the description of the
    last entry stored for it: entries of the remote document come after
    and so override those of [PACKAGE_INFO_CACHE]; when no URL is set or
    the request fails the local entries stand.  A name whose last entry
    has a non-empty description is then served by [packageInfo] without
    any request. *)
Theorem preloaded_description_is_served raw url remote net name :
  let cache := ensurePackageInfoCache raw url remote ∅ in
  cache !! name = pkg_description <$> lastFor name (stored raw url remote)
  ∧ (remote = None ∨ url = [] → cache = setPackageInfoCache raw ∅)
  ∧ (∀ p, lastFor name (stored raw url remote) = Some p →
       pkg_description p ≠ [] →
       packageInfo net name cache = (pkg_description p, cache, [])).
Proof.
  intros cache. subst cache. rewrite ensurePackageInfoCache_stored.
  assert (setPackageInfoCache (stored raw url remote) ∅ !! name
          = pkg_description <$> lastFor name (stored raw url remote)) as Hl.
  { rewrite setPackageInfoCache_lookup.
    by destruct (lastFor name (stored raw url remote)). }
  split; [exact Hl|]. split.
  - intros H. unfold stored.
    destruct H as [-> | ->]; [destruct (truthyText url)|]; by rewrite app_nil_r.
  - intros p Hp Hd. apply packageInfo_hit; [|done]. by rewrite Hl, Hp.
Qed.

Lemma preloaded_description_is_served_witness :
  packageInfo sampleNetwork "node-red-contrib-demo"
    (ensurePackageInfoCache sampleRaw (txt "https://example.com/cache.json")
       (Some sampleRemote) ∅)
  = (txt "Remote text",
     ensurePackageInfoCache sampleRaw (txt "https://example.com/cache.json")
       (Some sampleRemote) ∅,
     []).
Proof.
  apply (proj2 (proj2 (preloaded_description_is_served sampleRaw
                  (txt "https://example.com/cache.json") (Some sampleRemote)
                  sampleNetwork "node-red-contrib-demo"))
           {| pkg_name := "node-red-contrib-demo";
              pkg_description := txt "Remote text" |}).
  - reflexivity.
  - discriminate.
Defined.

End PackageMoreFacts.

Section TooltipFacts.
Import Merge Tooltip.

Local Abbreviation collect nodeId :=
  (fun (outputs : gmap nat (list string)) (l : link) =>
     if decide (source l = nodeId)
     then <[sourcePort l := default [] (outputs !! sourcePort l) ++ [target l]]> outputs
     else outputs).

Lemma collect_port i q ts (out : gmap nat (list string)) :
  foldl (collect i) out ((fun t => (i, q, t)) <$> ts)
  = match ts with
    | [] => out
    | _ => <[q := default [] (out !! q) ++ ts]> out
    end.
Proof.
  revert out. induction ts as [|t ts IH]; intros out; [done|].
  cbn [fmap list_fmap foldl].
  assert ((if decide (source (i, q, t) = i)
           then <[sourcePort (i, q, t) :=
                    default [] (out !! sourcePort (i, q, t)) ++ [target (i, q, t)]]> out
           else out)
          = <[q := default [] (out !! q) ++ [t]]> out) as ->
    by by rewrite decide_True.
  rewrite IH. destruct ts as [|t' ts]; [done|].
  rewrite lookup_insert_eq, insert_insert_eq.
  change (default [] (Some (default [] (out !! q) ++ [t])))
    with (default [] (out !! q) ++ [t]).
  by rewrite <- app_assoc.
Qed.

Lemma collect_skips i (ls : list link) (out : gmap nat (list string)) :
  foldl (collect i) out ls
  = foldl (collect i) out (filter (fun l => source l = i) ls).
Proof.
  revert out. induction ls as [|l ls IH]; intros out; [done|].
  cbn [foldl]. destruct (decide (source l = i)) as [E|E].
  - rewrite filter_cons_True by done. cbn [foldl].
    rewrite decide_True by done. apply IH.
  - rewrite filter_cons_False by done. apply IH.
Qed.

(** The targets of a wire set that exist in the graph. *)
Local Abbreviation existing g :=
  (filter (fun targetId => is_Some (RED_node g targetId))).

Lemma collect_wireLinksFrom g i ws p (out : gmap nat (list string)) q :
  foldl (collect i) out (wireLinksFrom g i p ws) !! q
  = if decide (q < p)%nat then out !! q
    else match existing g <$> ws !! (q - p)%nat with
         | Some (t :: ts) => Some (default [] (out !! q) ++ t :: ts)
         | _ => out !! q
         end.
Proof.
  revert p out. induction ws as [|wireSet rest IH]; intros p out.
  - cbn. by case_decide.
  - cbn [wireLinksFrom]. rewrite foldl_app, IH, collect_port.
    destruct (decide (q < p)%nat) as [Hlt|Hge].
    + rewrite decide_True by lia.
      destruct (existing g wireSet); [done|].
      rewrite lookup_insert_ne by lia. done.
    + destruct (decide (q = p)) as [->|Hne].
      * rewrite decide_True by lia. rewrite Nat.sub_diag. cbn.
        destruct (existing g wireSet) as [|t ts]; [done|].
        by rewrite lookup_insert_eq.
      * rewrite decide_False by lia.
        replace (q - p)%nat with (S (q - S p)) by lia. cbn.
        destruct (existing g wireSet) as [|t ts]; [done|].
        by rewrite lookup_insert_ne by lia.
Qed.

(** Reading the wires of a node back from the links.  When the links out
    of the node, in the order they are visited, are those the merge
    creates for a proposed wires list ([wireLinks]), then
    [getNodeWiresFromLinks] gives, port by port, the proposed targets that
    exist in the graph, in their order; a port with no such target is a
    hole of the array, not an empty list.  Links out of other nodes play
    no part. *)
Theorem wires_read_back g i ws (eachLink : list link) (port : nat) :
  filter (fun l => source l = i) eachLink = wireLinks g i ws →
  getNodeWiresFromLinks eachLink i !! port
  = match existing g <$> ws !! port with
    | Some (t :: ts) => Some (t :: ts)
    | _ => None
    end.
Proof.
  intros Hl. unfold getNodeWiresFromLinks.
  rewrite collect_skips, Hl. unfold wireLinks.
  rewrite collect_wireLinksFrom. rewrite decide_False by lia.
  rewrite Nat.sub_0_r, lookup_empty. cbn.
  by destruct (existing g <$> ws !! port) as [[|t ts]|].
Qed.

Lemma wires_read_back_witness :
  getNodeWiresFromLinks
    [("A", 0%nat, "B"); ("B", 0%nat, "C"); ("A", 1%nat, "C")] "A" !! 0%nat
  = match existing sampleGraph <$> [["B"; "nowhere"]; ["C"]] !! 0%nat with
    | Some (t :: ts) => Some (t :: ts)
    | _ => None
    end.
Proof.
  apply (wires_read_back sampleGraph "A" [["B"; "nowhere"]; ["C"]]).
  vm_compute. reflexivity.
Defined.

Example getNodeWiresFromLinks_sample :
  getNodeWiresFromLinks sampleLinks "a" !! 0%nat = Some ["b"; "c"]
  ∧ getNodeWiresFromLinks sampleLinks "a" !! 1%nat = None
  ∧ getNodeWiresFromLinks sampleLinks "a" !! 2%nat = Some ["c"].
Proof. vm_compute. repeat split; reflexivity. Qed.


(** *** The functional snapshot *)

Lemma omap_agree {A B} (f g : A → option B) (l : list A) :
  (∀ a, a ∈ l → f a = g a) → omap f l = omap g l.
Proof.
  induction l as [|a l IH]; intros H; [done|]. cbn.
  rewrite (H a) by left. rewrite IH; [done|].
  intros b Hb. apply H. by right.
Qed.

Lemma extractFunctionalProperties_agree {V} (node node' : gmap string V) :
  (∀ key, key ∈ functionalKeys → node' !! key = node !! key) →
  extractFunctionalProperties node' = extractFunctionalProperties node.
Proof.
  intros H. apply omap_agree. intros key Hk. by rewrite (H key Hk).
Qed.

(** An edit that leaves the fifteen functional keys as they were is not a
    logic change: against the snapshot stored for the node before the
    edit, [functionalPropertiesChanged] answers false for the node after
    it, and the [nodes:change] event of the edit starts no resync.  The
    name, the info, the position and the wires are such keys, and so are
    the eight keys that [extractNodeConfig] sends to the provider beyond
    the functional ones. *)
Theorem nonfunctional_edit_is_no_change {V} (stringify : list (string * V) → text)
    (node node' : gmap string V) (nodeId : string) (e : Resync.editor) :
  (∀ key, key ∈ functionalKeys → node' !! key = node !! key) →
  let stored := Resync.storeFunctionalState nodeId (functionalText stringify node) e in
  Resync.functionalPropertiesChanged nodeId (functionalText stringify node') stored
  = false
  ∧ Resync.step stored (Resync.NodesChange nodeId (functionalText stringify node'))
    = stored
  ∧ (∀ key, key ∈ ["name"; "info"; "x"; "y"; "z"; "wires"; "payloadType";
                   "repeat"; "crontab"; "once"; "active"; "tosidebar";
                   "console"; "tostatus"] → key ∉ functionalKeys)
  ∧ functionalKeys ⊆ configKeys.
Proof.
  intros Hagree stored.
  assert (Resync.functionalPropertiesChanged nodeId
            (functionalText stringify node') stored = false) as Hsame.
  { unfold Resync.functionalPropertiesChanged, stored. cbn.
    rewrite lookup_insert_eq. unfold functionalText.
    rewrite (extractFunctionalProperties_agree node node' Hagree).
    by rewrite bool_decide_eq_true_2. }
  split; [exact Hsame|]. split; [|split].
  - cbn [Resync.step]. unfold Resync.nodesChange. rewrite Hsame.
    unfold Resync.updateNodeTooltip, Resync.registerNodeInRegistry, stored.
    cbn. destruct (Resync.elements e !! nodeId); [|done].
    by rewrite lookup_insert_eq.
  - intros key Hk.
    repeat (apply elem_of_cons in Hk as [->|Hk];
            [apply (bool_decide_unpack _); by vm_compute|]).
    by apply elem_of_nil in Hk.
  - apply (bool_decide_unpack _). by vm_compute.
Qed.

Lemma nonfunctional_edit_is_no_change_witness :
  Resync.functionalPropertiesChanged "n1"
    (functionalText (fun kvs => concat (snd <$> kvs)) editedNode)
    (Resync.storeFunctionalState "n1"
       (functionalText (fun kvs => concat (snd <$> kvs)) sampleNode)
       Resync.initial)
  = false.
Proof.
  apply (nonfunctional_edit_is_no_change (fun kvs => concat (snd <$> kvs))
           sampleNode editedNode "n1" Resync.initial).
  intros key Hk. unfold editedNode.
  rewrite lookup_insert_ne; [|intros <-; revert Hk; apply (bool_decide_unpack _);
                               by vm_compute].
  apply lookup_insert_ne.
  intros <-. revert Hk. apply (bool_decide_unpack _). by vm_compute.
Defined.









(** *** The tooltip text and the save *)

Lemma truthy_true (t : text) : truthy t = true ↔ t ≠ [].
Proof. unfold truthy. case_bool_decide; naive_solver. Qed.

Lemma truthy_false (t : text) : truthy t = false ↔ t = [].
Proof. unfold truthy. case_bool_decide; naive_solver. Qed.

Lemma tooltipTexts_eq stripMarkdown info name type :
  tooltipTexts stripMarkdown info name type
  = (let d := uncut stripMarkdown info name type in
     if (500 <? length d)%nat then take 497 d ++ txt "..." else d,
     if truthy info && truthy (Parse.trim info) then info else []).
Proof.
  unfold tooltipTexts, uncut.
  by destruct (truthy info && truthy (Parse.trim info)).
Qed.

Lemma uncut_nonempty stripMarkdown info name type :
  uncut stripMarkdown info name type ≠ [].
Proof.
  unfold uncut.
  destruct (truthy info && truthy (Parse.trim info)); cbn [negb andb].
  - destruct (truthy (Parse.trim (stripMarkdown info))) eqn:E1; cbn [negb andb].
    + rewrite E1. cbn. by apply truthy_true.
    + destruct (truthy name) eqn:E2.
      * rewrite E2. cbn. by apply truthy_true.
      * rewrite E1. cbn. destruct (truthy type) eqn:E3; [by apply truthy_true|done].
  - change (truthy []) with false. cbn [negb andb].
    destruct (truthy name) eqn:E2.
    + rewrite E2. cbn. by apply truthy_true.
    + change (truthy []) with false. cbn.
      destruct (truthy type) eqn:E3; [by apply truthy_true|done].
Qed.

(** The text a tooltip displays is never empty and never longer than 500
    characters: a longer one is cut to its first 497 characters followed
    by three dots.  The raw info handed to the editor is the node's info
    as it is, or the empty text when the info is blank. *)
Theorem tooltip_text_bounds (stripMarkdown : text → text) (info name type : text) :
  let '(displayText, rawInfo) := tooltipTexts stripMarkdown info name type in
  displayText ≠ []
  ∧ (length displayText ≤ 500)%nat
  ∧ (rawInfo = info ∨ rawInfo = [])
  ∧ (rawInfo = [] ↔ Parse.trim info = []).
Proof.
  rewrite tooltipTexts_eq. cbv zeta.
  pose proof (uncut_nonempty stripMarkdown info name type) as Hne.
  set (d := uncut stripMarkdown info name type) in *.
  split; [|split; [|split]].
  - destruct (500 <? length d)%nat; [|done]. by destruct (take 497 d).
  - destruct (500 <? length d)%nat eqn:E.
    + apply Nat.ltb_lt in E. rewrite length_app, length_take.
      change (length (txt "...")) with 3%nat. lia.
    + apply Nat.ltb_ge in E. done.
  - destruct (truthy info && truthy (Parse.trim info)); auto.
  - destruct (truthy info) eqn:E1; cbn [andb].
    + destruct (truthy (Parse.trim info)) eqn:E2.
      * apply truthy_true in E1. apply truthy_true in E2. naive_solver.
      * apply truthy_false in E2. naive_solver.
    + apply truthy_false in E1. subst info. naive_solver.
Qed.

Lemma saveAndExitEditMode_same content rawInfo nodeId nodeInfo registry :
  Parse.trim content = rawInfo →
  saveAndExitEditMode content rawInfo nodeId nodeInfo registry
  = {| node_info := nodeInfo; node_changed := false; resync := false |}.
Proof.
  intros H. unfold saveAndExitEditMode. by rewrite bool_decide_eq_true_2.
Qed.

Lemma saveAndExitEditMode_differs content rawInfo nodeId nodeInfo
    (registry : gmap string text) :
  Parse.trim content ≠ rawInfo →
  saveAndExitEditMode content rawInfo nodeId nodeInfo registry
  = {| node_info := Parse.trim content; node_changed := true;
       resync := match registry !! nodeId with
                 | None => true
                 | Some info => negb (bool_decide (info = Parse.trim content))
                 end |}.
Proof.
  intros H. unfold saveAndExitEditMode. by rewrite bool_decide_eq_false_2.
Qed.

(** Saving a tooltip that was opened and not edited.  When the node's
    info has no blank at either end the save changes nothing.  When it
    has one (and is not blank altogether) the save replaces the info by
    its trimmed text and marks the node changed, and it starts a resync
    unless the registry already held the trimmed text for the node.  When
    the info is blank or absent the editor shows the display text (the
    node's name, else its type, else "Node"), and the save writes that
    text, trimmed, into the node's info -- unless the display text is
    blank as well (a name of blanks only), when the save changes
    nothing. *)
Theorem save_of_untouched_tooltip (stripMarkdown : text → text)
    (nodeId : string) (info name type : text) (registry : gmap string text) :
  (info ≠ [] → Parse.trim info = info →
     saveUntouched stripMarkdown nodeId info name type registry
     = {| node_info := info; node_changed := false; resync := false |})
  ∧ (Parse.trim info ≠ [] → Parse.trim info ≠ info →
       saveUntouched stripMarkdown nodeId info name type registry
       = {| node_info := Parse.trim info; node_changed := true;
            resync := match registry !! nodeId with
                      | None => true
                      | Some held => negb (bool_decide (held = Parse.trim info))
                      end |})
  ∧ (Parse.trim info = [] →
       let shown := (tooltipTexts stripMarkdown info name type).1 in
       Parse.trim shown ≠ [] →
       node_info (saveUntouched stripMarkdown nodeId info name type registry)
       = Parse.trim shown
       ∧ node_changed (saveUntouched stripMarkdown nodeId info name type registry)
         = true)
  ∧ (Parse.trim info = [] →
       Parse.trim (tooltipTexts stripMarkdown info name type).1 = [] →
       saveUntouched stripMarkdown nodeId info name type registry
       = {| node_info := info; node_changed := false; resync := false |}).
Proof.
  unfold saveUntouched. rewrite tooltipTexts_eq. cbv zeta.
  split; [|split; [|split]].
  - intros Hne Htrim.
    rewrite (proj2 (truthy_true info) Hne), Htrim, (proj2 (truthy_true info) Hne).
    cbn [andb]. unfold editorContent.
    rewrite (proj2 (truthy_true info) Hne).
    by apply saveAndExitEditMode_same.
  - intros Hne Hdiff.
    assert (info ≠ []) as Hinfo by (intros ->; by apply Hne).
    rewrite (proj2 (truthy_true info) Hinfo), (proj2 (truthy_true _) Hne).
    cbn [andb]. unfold editorContent.
    rewrite (proj2 (truthy_true info) Hinfo).
    rewrite saveAndExitEditMode_differs by done. f_equal.
    unfold registerSemantic.
    destruct (registry !! nodeId) as [held|] eqn:E.
    + by rewrite E.
    + rewrite (proj2 (truthy_true info) Hinfo), lookup_insert_eq.
      by rewrite bool_decide_eq_false_2.
  - intros Hblank. cbn [fst].
    rewrite (proj2 (truthy_false _) Hblank), andb_false_r.
    set (d := if (500 <? _)%nat then _ else _).
    intros Hshown. unfold editorContent. change (truthy []) with false.
    cbv iota. by rewrite saveAndExitEditMode_differs.
  - intros Hblank. cbn [fst].
    rewrite (proj2 (truthy_false _) Hblank), andb_false_r.
    set (d := if (500 <? _)%nat then _ else _).
    intros Hshown. unfold editorContent. change (truthy []) with false.
    cbv iota. by rewrite saveAndExitEditMode_same.
Qed.

Lemma save_of_untouched_tooltip_witness :
  saveUntouched (fun t => t) "n1" (txt "Sum the values ") (txt "sum")
    (txt "function") ∅
  = {| node_info := Parse.trim (txt "Sum the values "); node_changed := true;
       resync := match (∅ : gmap string text) !! "n1" with
                 | None => true
                 | Some held =>
                     negb (bool_decide (held = Parse.trim (txt "Sum the values ")))
                 end |}.
Proof.
  apply (proj1 (proj2 (save_of_untouched_tooltip (fun t => t) "n1"
                         (txt "Sum the values ") (txt "sum") (txt "function") ∅))).
  - by vm_compute.
  - by vm_compute.
Defined.

Example save_of_tooltip_samples :
  saveUntouched (fun t => t) "n1" (txt "Sum the values ") (txt "sum")
    (txt "function") ∅
  = {| node_info := txt "Sum the values"; node_changed := true; resync := true |}
  ∧ saveUntouched (fun t => t) "n1" [] (txt "sum") (txt "function") ∅
    = {| node_info := txt "sum"; node_changed := true; resync := true |}
  ∧ saveUntouched (fun t => t) "n1" [] (txt "  ") (txt "function") ∅
    = {| node_info := []; node_changed := false; resync := false |}.
Proof. by vm_compute. Qed.

End TooltipFacts.

Section LoaderFacts.
Import Validate Loader.
Variable dotenv_config : gmap string cval → gmap string cval.
Variable prompts : gmap string cval.

Local Abbreviation getEnv' := (getEnv dotenv_config prompts).
Local Abbreviation loadEnv' := (loadEnv dotenv_config prompts).

Lemma loadEnv_settings st : redSettings (loadEnv' st) = redSettings st.
Proof. unfold loadEnv. by destruct (envLoaded st). Qed.

Lemma loadEnv_loaded st : envLoaded (loadEnv' st) = true.
Proof. unfold loadEnv. by destruct (envLoaded st) eqn:E. Qed.

Lemma getSettings_loadEnv key st :
  getSettings key (loadEnv' st) = getSettings key st.
Proof. unfold getSettings. by rewrite loadEnv_settings. Qed.

(** The prompts that the settings object brings. *)
Local Abbreviation settingsPrompts st :=
  (if truthyS (getSettings "aiPrompts" st)
   then default ∅ (spread <$> getSettings "aiPrompts" st)
   else ∅).

(** The first lookup.  A truthy entry of the settings object under the
    key itself wins.  Otherwise the value is looked up in the merged
    environment, where a key of [settings.aiPrompts] hides the same key of
    ai-prompts.json, which hides the same key of the process environment
    (after dotenv ran) -- by presence, not by truthiness: an empty prompt
    in [aiPrompts] hides the bundled one and the lookup gives the
    fallback. *)
Theorem getEnv_first_lookup key fallback st :
  envLoaded st = false →
  let value := (getEnv' key fallback st).1 in
  let st' := (getEnv' key fallback st).2 in
  env st' !! key
    = match settingsPrompts st !! key with
      | Some v => Some v
      | None => match prompts !! key with
                | Some v => Some v
                | None => dotenv_config (env st) !! key
                end
      end
  ∧ (∀ v, getSettings key st = Some v → truthyS (Some v) = true → value = v)
  ∧ (truthyS (getSettings key st) = false →
     ∀ v, env st' !! key = Some v → truthy (Some v) = true → value = Plain v)
  ∧ (truthyS (getSettings key st) = false →
     truthy (env st' !! key) = false → value = fallback).
Proof.
  intros Hfresh. unfold getEnv. cbn [fst snd].
  assert (env (loadEnv' st) !! key
          = match settingsPrompts st !! key with
            | Some v => Some v
            | None => match prompts !! key with
                      | Some v => Some v
                      | None => dotenv_config (env st) !! key
                      end
            end) as Henv.
  { unfold loadEnv. rewrite Hfresh. cbn [env].
    set (sp := if truthyS _ then _ else _).
    destruct (sp !! key) as [v|] eqn:E1; [by apply lookup_union_Some_l|].
    rewrite lookup_union_r by done.
    destruct (prompts !! key) as [v|] eqn:E2; [by apply lookup_union_Some_l|].
    by rewrite lookup_union_r. }
  split; [exact Henv|]. rewrite getSettings_loadEnv. split; [|split].
  - intros v Hv Ht. by rewrite Hv, Ht.
  - intros Hs v Hv Ht. by rewrite Hs, Hv, Ht.
  - intros Hs He. by rewrite Hs, He.
Qed.

(** The environment is merged once.  After any lookup the module is
    loaded; a later lookup leaves the environment as it is even when
    other settings were installed in between, so prompts under their
    [aiPrompts] never reach it, while a truthy entry of the new settings
    under the looked-up key itself is returned. *)
Theorem loadEnv_runs_once key fallback st key2 fallback2 settings :
  let st1 := (getEnv' key fallback st).2 in
  let second := getEnv' key2 fallback2 (setSettings settings st1) in
  envLoaded st1 = true
  ∧ env second.2 = env st1
  ∧ second.1 = (if truthyS (settings !! key2)
                then default fallback2 (settings !! key2)
                else if truthy (env st1 !! key2)
                     then default fallback2 (Plain <$> env st1 !! key2)
                     else fallback2).
Proof.
  cbv zeta. unfold getEnv. cbn [fst snd].
  pose proof (loadEnv_loaded st) as Hl.
  set (st1 := loadEnv' st) in *.
  assert (loadEnv' (setSettings settings st1) = setSettings settings st1) as ->.
  { unfold loadEnv. cbn [envLoaded setSettings]. by rewrite Hl. }
  done.
Qed.

End LoaderFacts.

Lemma getEnv_first_lookup_witness :
  (Loader.getEnv (fun e => e) Loader.samplePrompts "SAMPLE_PROMPT"
     (Loader.Plain (Validate.CStr []))
     (Loader.setSettings Loader.sampleSettings (Loader.fresh ∅))).1
  = Loader.Plain (Validate.CStr (txt "from-settings")).
Proof.
  destruct (getEnv_first_lookup (fun e => e) Loader.samplePrompts "SAMPLE_PROMPT"
              (Loader.Plain (Validate.CStr []))
              (Loader.setSettings Loader.sampleSettings (Loader.fresh ∅))
              eq_refl) as (H1 & _ & H3 & _).
  apply H3.
  - by vm_compute.
  - rewrite H1. by vm_compute.
  - by vm_compute.
Defined.

(** The repository's loader test: a settings key, a prompt from
    [aiPrompts], and a key that is nowhere. *)
Example getEnv_samples :
  let st := Loader.setSettings Loader.sampleSettings (Loader.fresh ∅) in
  (Loader.getEnv (fun e => e) ∅ "CUSTOM_KEY"
     (Loader.Plain (Validate.CStr (txt "fallback"))) st).1
  = Loader.Plain (Validate.CStr (txt "from-settings"))
  ∧ (Loader.getEnv (fun e => e) ∅ "SAMPLE_PROMPT"
       (Loader.Plain (Validate.CStr [])) st).1
    = Loader.Plain (Validate.CStr (txt "from-settings"))
  ∧ (Loader.getEnv (fun e => e) ∅ "MISSING_KEY"
       (Loader.Plain (Validate.CStr (txt "fallback-value"))) (Loader.fresh ∅)).1
    = Loader.Plain (Validate.CStr (txt "fallback-value")).
Proof. by vm_compute. Qed.

Section PlaceholderFacts.
Import Placeholders.

Implicit Types (s pre post value before : text).

Lemma starts_with_app_same (p s : text) : starts_with p (p ++ s) = true.
Proof. induction p as [|a p IH]; [done|]. cbn. by rewrite decide_True. Qed.

Lemma starts_with_head (p s : text) a b :
  a ≠ b → starts_with (a :: p) (b :: s) = false.
Proof. intros H. cbn. by rewrite decide_False. Qed.

Lemma replaceFrom_skip pattern value before a s :
  replaceFrom pattern value before (length a) (a ++ s)
  = replaceFrom pattern value (before ++ a) 0 s.
Proof.
  revert before. induction a as [|c a IH]; intros before.
  - by rewrite app_nil_r.
  - cbn [length app replaceFrom]. rewrite IH. by rewrite <- app_assoc.
Qed.

(** At a match. *)
Lemma replaceFrom_at (c : ascii) (p value before s : text) :
  replaceFrom (c :: p) value before 0 ((c :: p) ++ s)
  = expand (c :: p) before s value
    ++ replaceFrom (c :: p) value (before ++ c :: p) 0 s.
Proof.
  pose proof (starts_with_app_same (c :: p) s) as Hs.
  pose proof (drop_app_length (c :: p) s) as Hd.
  change ((c :: p) ++ s) with (c :: (p ++ s)) in *.
  cbn [replaceFrom]. rewrite Hs, Hd. f_equal.
  replace (length (c :: p) - 1)%nat with (length p) by (cbn [length]; lia).
  rewrite replaceFrom_skip. by rewrite <- app_assoc.
Qed.

Lemma replaceFrom_match key value before s :
  replaceFrom (placeholder key) value before 0 (placeholder key ++ s)
  = expand (placeholder key) before s value
    ++ replaceFrom (placeholder key) value (before ++ placeholder key) 0 s.
Proof. apply replaceFrom_at. Qed.

(** Through text without an opening brace. *)
Lemma replaceFrom_plain key value before pre s :
  "{"%char ∉ pre →
  replaceFrom (placeholder key) value before 0 (pre ++ s)
  = pre ++ replaceFrom (placeholder key) value (before ++ pre) 0 s.
Proof.
  revert before. induction pre as [|c pre IH]; intros before Hb.
  - by rewrite app_nil_r.
  - apply not_elem_of_cons in Hb as [Hc Hpre].
    cbn [app replaceFrom]. unfold placeholder at 1.
    rewrite starts_with_head by done.
    rewrite IH by done. by rewrite <- app_assoc.
Qed.

Lemma replaceFrom_plain_all key value before pre :
  "{"%char ∉ pre → replaceFrom (placeholder key) value before 0 pre = pre.
Proof.
  intros Hb. rewrite <- (app_nil_r pre) at 1.
  rewrite replaceFrom_plain by done. cbn. by rewrite app_nil_r.
Qed.

Lemma expand_plain matched before after value :
  "$"%char ∉ value → expand matched before after value = value.
Proof.
  induction value as [|c value IH]; [done|].
  intros [Hc Hv]%not_elem_of_cons. cbn [expand].
  rewrite IH by done.
  destruct c as [[] [] [] [] [] [] [] []]; try done.
Qed.

(** One placeholder in a template with no other brace. *)
Lemma replaceAll_one key value pre post :
  "{"%char ∉ pre → "{"%char ∉ post →
  replaceAll (placeholder key) value (pre ++ placeholder key ++ post)
  = pre ++ expand (placeholder key) pre post value ++ post.
Proof.
  intros Hpre Hpost. unfold replaceAll.
  rewrite replaceFrom_plain by done.
  rewrite replaceFrom_match.
  by rewrite replaceFrom_plain_all.
Qed.

(** A template made of brace-free pieces with the placeholder between
    them. *)
Lemma replaceFrom_join key value before (pieces : list text) :
  "$"%char ∉ value → Forall (fun piece => "{"%char ∉ piece) pieces →
  replaceFrom (placeholder key) value before 0 (join (placeholder key) pieces)
  = join value pieces.
Proof.
  intros Hv Hp. revert before.
  induction Hp as [|piece pieces Hpiece Hrest IH]; intros before; [done|].
  destruct pieces as [|piece' pieces].
  - cbn [join]. by apply replaceFrom_plain_all.
  - change (join (placeholder key) (piece :: piece' :: pieces))
      with (piece ++ placeholder key ++ join (placeholder key) (piece' :: pieces)).
    change (join value (piece :: piece' :: pieces))
      with (piece ++ value ++ join value (piece' :: pieces)).
    rewrite replaceFrom_plain by done.
    rewrite replaceFrom_match, expand_plain by done.
    by rewrite IH.
Qed.

(** Filling a template.  For a word key, a value without dollar sign and a
    template whose only braces are those of the placeholder -- brace-free
    pieces joined by [{key}] -- [setPlaceholders] puts the value, as it
    is, at every occurrence and changes nothing else.  A template without
    any opening brace is returned as it is, whatever the values of word
    keys. *)
Theorem setPlaceholders_fills key value (pieces : list text) :
  wordKey key = true →
  "$"%char ∉ value →
  Forall (fun piece => "{"%char ∉ piece) pieces →
  setPlaceholders (join (placeholder key) pieces) [(key, value)]
  = join value pieces
  ∧ ∀ plain values,
      Forall (fun kv => wordKey kv.1 = true) values →
      "{"%char ∉ plain → setPlaceholders plain values = plain.
Proof.
  intros _ Hv Hp. split.
  - cbn. by apply replaceFrom_join.
  - intros plain values _ Hplain.
    induction values as [|[k v] values IH] using rev_ind; [done|].
    unfold setPlaceholders in *. rewrite foldl_app. cbn. rewrite IH.
    by apply replaceFrom_plain_all.
Qed.

Lemma setPlaceholders_fills_witness :
  setPlaceholders (join (placeholder "name") [txt "Hello "; txt ""])
    [("name", txt "World")]
  = join (txt "World") [txt "Hello "; txt ""].
Proof.
  apply (setPlaceholders_fills "name" (txt "World") [txt "Hello "; txt ""]).
  - reflexivity.
  - apply (bool_decide_unpack _). by vm_compute.
  - repeat constructor; apply (bool_decide_unpack _); by vm_compute.
Defined.

(** A value is not always inserted as it is.  In a template with one
    placeholder and no other brace the text inserted is the value with
    every [$$] turned into one dollar, every [$&] into the placeholder
    itself, every [$`] into the template text before the placeholder and
    every [$'] into the text after it. *)
Theorem setPlaceholders_dollar key value pre post :
  wordKey key = true →
  "{"%char ∉ pre → "{"%char ∉ post →
  setPlaceholders (pre ++ placeholder key ++ post) [(key, value)]
  = pre ++ expand (placeholder key) pre post value ++ post
  ∧ (∀ a b, "$"%char ∉ a → "$"%char ∉ b →
       expand (placeholder key) pre post (a ++ txt "$$" ++ b) = a ++ txt "$" ++ b
       ∧ expand (placeholder key) pre post (a ++ txt "$&" ++ b)
         = a ++ placeholder key ++ b
       ∧ expand (placeholder key) pre post (a ++ txt "$`" ++ b) = a ++ pre ++ b
       ∧ expand (placeholder key) pre post (a ++ txt "$'" ++ b) = a ++ post ++ b).
Proof.
  intros _ Hpre Hpost. split; [by apply replaceAll_one|].
  intros a b Ha Hb.
  assert (∀ rest, expand (placeholder key) pre post (a ++ rest)
                  = a ++ expand (placeholder key) pre post rest) as Happ.
  { intros rest. induction a as [|c a IH]; [done|].
    apply not_elem_of_cons in Ha as [Hc Ha]. cbn [app expand].
    rewrite IH by done.
    destruct c as [[] [] [] [] [] [] [] []]; try done. }
  rewrite !Happ. cbn [txt list_ascii_of_string app expand].
  by rewrite !(expand_plain _ _ _ b Hb).
Qed.

Lemma setPlaceholders_dollar_witness :
  setPlaceholders (txt "Q: " ++ placeholder "prompt" ++ txt " (end)")
    [("prompt", txt "costs $$5, see $&")]
  = txt "Q: "
      ++ expand (placeholder "prompt") (txt "Q: ") (txt " (end)")
           (txt "costs $$5, see $&")
      ++ txt " (end)".
Proof.
  apply (setPlaceholders_dollar "prompt" (txt "costs $$5, see $&")
           (txt "Q: ") (txt " (end)")).
  - reflexivity.
  - apply (bool_decide_unpack _). by vm_compute.
  - apply (bool_decide_unpack _). by vm_compute.
Defined.

Example setPlaceholders_samples :
  setPlaceholders (txt "Hello {name}") [("name", txt "World")] = txt "Hello World"
  ∧ setPlaceholders (txt "Q: {prompt} (end)") [("prompt", txt "costs $$5, see $&")]
    = txt "Q: costs $5, see {prompt} (end)"
  ∧ setPlaceholders (txt "{a}{a}") [("a", txt "x"); ("b", txt "y")] = txt "xx".
Proof. by vm_compute. Qed.


(** The decimal text of an integer has digits and a minus sign only. *)
Lemma string_of_uint_chars (d : Decimal.uint) (c : ascii) :
  c ∈ list_ascii_of_string (NilEmpty.string_of_uint d) →
  c ≠ "{"%char ∧ c ≠ "$"%char.
Proof.
  induction d as [|d IH|d IH|d IH|d IH|d IH|d IH|d IH|d IH|d IH|d IH];
    cbn; [by intros ?%elem_of_nil|..];
    (intros [->|H]%elem_of_cons; [done|by apply IH]).
Qed.

Lemma showZ_chars (z : Z) (c : ascii) :
  c ∈ Serialize.showZ z → c ≠ "{"%char ∧ c ≠ "$"%char.
Proof.
  unfold Serialize.showZ, txt, NilZero.string_of_int.
  destruct (Z.to_int z) as [d|d]; unfold NilZero.string_of_uint.
  - destruct d; try apply string_of_uint_chars.
    cbn. intros [->|H]%elem_of_cons; [done|by apply elem_of_nil in H].
  - cbn. intros [->|H]%elem_of_cons; [done|]. revert H.
    destruct d; try apply string_of_uint_chars.
    cbn. intros [->|H]%elem_of_cons; [done|by apply elem_of_nil in H].
Qed.

Lemma showZ_plain (z : Z) :
  ("{"%char ∉ Serialize.showZ z) ∧ ("$"%char ∉ Serialize.showZ z).
Proof. split; intros H; by destruct (showZ_chars z _ H). Qed.

Lemma not_elem_of_app3 (c : ascii) (a b d : text) :
  c ∉ a → c ∉ b → c ∉ d → c ∉ a ++ b ++ d.
Proof. rewrite !not_elem_of_app. tauto. Qed.

End PlaceholderFacts.

Section BuildUserPromptFacts.
Import Placeholders.
Context {node number : Type}.
Variable USER_PROMPT_TEMPLATE USER_PROMPT_WITH_CONTEXT : text.
Variable stringify : list node → text.
Variable ofInt : Z → number.
Variable divide multiply : number → number → number.
Variable floor : number → Z.

Local Abbreviation build :=
  (buildUserPrompt USER_PROMPT_TEMPLATE USER_PROMPT_WITH_CONTEXT stringify
     ofInt divide multiply floor).

(** The user's text is scanned for the later placeholders.  With a
    context template whose only braces are those of one [{prompt}], and a
    flow context of at least one node: a prompt without brace and dollar
    sign is put in as it is, but a prompt that contains the text
    [{nodeCount}] comes out with the number of nodes in its place,
    because the values are substituted one after the other on the result
    so far. *)
Theorem buildUserPrompt_scans_prompt pre post (nodes : list node)
    (customNodes : text) (maxFlowContextChars : Z) :
  USER_PROMPT_WITH_CONTEXT = pre ++ placeholder "prompt" ++ post →
  "{"%char ∉ pre → "{"%char ∉ post → nodes ≠ [] →
  let ctx := Some {| ctx_nodes := nodes; ctx_customNodes := customNodes |} in
  (∀ prompt, "{"%char ∉ prompt → "$"%char ∉ prompt →
     build prompt ctx maxFlowContextChars = pre ++ prompt ++ post)
  ∧ (∀ a b, "{"%char ∉ a → "$"%char ∉ a → "{"%char ∉ b → "$"%char ∉ b →
       build (a ++ placeholder "nodeCount" ++ b) ctx maxFlowContextChars
       = pre ++ (a ++ Serialize.showZ (Z.of_nat (length nodes)) ++ b) ++ post).
Proof.
  intros HT Hpre Hpost Hnodes ctx.
  assert ((0 <? length nodes)%nat = true) as Hlen
    by (apply Nat.ltb_lt; destruct nodes; [done|cbn; lia]).
  destruct (showZ_plain (Z.of_nat (length nodes))) as [Hn1 Hn2].
  split.
  - intros prompt Hp1 Hp2. unfold buildUserPrompt, ctx. cbn [ctx_nodes].
    rewrite Hlen, HT. unfold setPlaceholders. cbn [foldl fst snd].
    rewrite (replaceAll_one "prompt" prompt pre post Hpre Hpost).
    rewrite (expand_plain _ _ _ prompt Hp2).
    assert ("{"%char ∉ pre ++ prompt ++ post) as Hplain
      by by apply not_elem_of_app3.
    unfold replaceAll.
    by rewrite !(replaceFrom_plain_all _ _ _ (pre ++ prompt ++ post) Hplain).
  - intros a b Ha1 Ha2 Hb1 Hb2. unfold buildUserPrompt, ctx. cbn [ctx_nodes].
    rewrite Hlen, HT. unfold setPlaceholders. cbn [foldl fst snd].
    rewrite replaceAll_one by done.
    rewrite expand_plain.
    2:{ apply not_elem_of_app3; [done| |done].
        apply (bool_decide_unpack _). by vm_compute. }
    replace (pre ++ (a ++ placeholder "nodeCount" ++ b) ++ post)
      with ((pre ++ a) ++ placeholder "nodeCount" ++ (b ++ post))
      by by rewrite <- !app_assoc.
    rewrite replaceAll_one, expand_plain;
      [|done|by apply not_elem_of_app|by apply not_elem_of_app].
    assert ("{"%char ∉ (pre ++ a) ++ Serialize.showZ (Z.of_nat (length nodes))
                       ++ b ++ post) as Hplain.
    { apply not_elem_of_app3; [by apply not_elem_of_app|done|
                               by apply not_elem_of_app]. }
    unfold replaceAll. rewrite !(replaceFrom_plain_all _ _ _ _ Hplain).
    by rewrite <- !app_assoc.
Qed.

End BuildUserPromptFacts.

Lemma buildUserPrompt_scans_prompt_witness :
  Placeholders.buildUserPrompt (txt "{prompt}") (txt "Flow of {prompt} nodes.")
    Serialize.printNodes Serialize.ofZ PrimFloat.div PrimFloat.mul
    Serialize.floorZ
    (txt "count: " ++ Placeholders.placeholder "nodeCount" ++ txt "!")
    (Some {| Placeholders.ctx_nodes := Serialize.longNodes;
             Placeholders.ctx_customNodes := [] |})
    18000
  = txt "Flow of "
      ++ (txt "count: "
            ++ Serialize.showZ (Z.of_nat (length Serialize.longNodes))
            ++ txt "!")
      ++ txt " nodes.".
Proof.
  apply (proj2 (buildUserPrompt_scans_prompt (txt "{prompt}")
                  (txt "Flow of {prompt} nodes.")
                  Serialize.printNodes Serialize.ofZ PrimFloat.div
                  PrimFloat.mul Serialize.floorZ
                  (txt "Flow of ") (txt " nodes.") Serialize.longNodes []
                  18000 eq_refl
                  ltac:(apply (bool_decide_unpack _); by vm_compute)
                  ltac:(apply (bool_decide_unpack _); by vm_compute)
                  ltac:(discriminate)));
    apply (bool_decide_unpack _); by vm_compute.
Defined.

Example buildUserPrompt_sample :
  Placeholders.buildUserPrompt (txt "{prompt}") (txt "Flow of {prompt} nodes.")
    Serialize.printNodes Serialize.ofZ PrimFloat.div PrimFloat.mul
    Serialize.floorZ (txt "count: {nodeCount}!")
    (Some {| Placeholders.ctx_nodes := Serialize.longNodes;
             Placeholders.ctx_customNodes := [] |})
    18000
  = txt "Flow of count: 2! nodes.".
Proof. by vm_compute. Qed.

Section EndpointFacts.
Import Validate Endpoints.
Context {C R : Type}.
Variable typeErrorMessage : site → text.

Local Abbreviation buildFlow' := (@buildFlow C R typeErrorMessage).
Local Abbreviation resync' := (@resyncNodeEndpoint C R typeErrorMessage).
Local Abbreviation describe' := (@generateDescriptionEndpoint C R typeErrorMessage).
Local Abbreviation sent outcome :=
  (match outcome with
   | Returned result => Passed result
   | Thrown message => caught message
   end).

Lemma trim_nil_of_nil (t : text) : t = [] → Parse.trim t = [].
Proof. by intros ->. Qed.

Lemma summarized_None customNodes :
  summarized customNodes = None ↔ ∃ n, n ∈ customNodes ∧ cn_schema n = None.
Proof.
  unfold summarized. induction customNodes as [|n ns IH].
  - split; [done|]. by intros (n & ?%elem_of_nil & _).
  - cbn. destruct (cn_schema n) as [keys|] eqn:E; cbn.
    + destruct (mapM _ ns) as [l|] eqn:El; cbn.
      * split; [done|]. intros (m & [->|Hm]%elem_of_cons & Hs); [congruence|].
        assert (Some l = None) as Habs; [|done].
        apply IH. by exists m.
      * split; [|done]. intros _.
        destruct (proj1 IH eq_refl) as (m & Hm & Hs).
        exists m. split; [by right|done].
    + split; [|done]. intros _. exists n. split; [left|done].
Qed.

(** What the build-flow handler does with a usable request. *)
Lemma buildFlow_usable (connector : @connector C R) customNodes b prompt nodes :
  bf_prompt b = FText prompt → Parse.trim prompt ≠ [] →
  valid (validateConfig connector (getConfig connector)) = true →
  bf_context b ≠ CtxNull → summarized customNodes = Some nodes →
  buildFlow' (Some connector) customNodes (Some b)
  = (sent (generateFlow connector prompt
             (match bf_context b with CtxObject c => Some c | _ => None end)
             nodes),
     [GetConfig; ValidateConfig; GenerateFlow]).
Proof.
  intros Hp Ht Hv Hc Hs. unfold buildFlow. rewrite Hp.
  assert (prompt ≠ []) as Hne by (intros ->; by apply Ht).
  rewrite !bool_decide_eq_false_2 by done. cbn [orb].
  rewrite Hv, Hs. cbn [negb]. by destruct (bf_context b).
Qed.

(** The build-flow endpoint calls the provider only for a usable
    request: a body whose prompt is a string that is not blank, a
    connector that is loaded and whose configuration validates, a context
    that is not [null], and stored custom nodes that all have a schema.
    What [generateFlow] then resolves to is sent as it is, with status
    200, whatever its success flag says; a rejection is sent with status
    500.  A prompt that is absent, empty or blank is answered with status
    400 and "Prompt is required" before the connector is touched. *)
Theorem build_flow_guard (conn : option (@connector C R)) customNodes body :
  (GenerateFlow ∈ (buildFlow' conn customNodes body).2 ↔
     ∃ b prompt connector nodes,
       body = Some b ∧ bf_prompt b = FText prompt ∧ Parse.trim prompt ≠ []
       ∧ conn = Some connector
       ∧ valid (validateConfig connector (getConfig connector)) = true
       ∧ bf_context b ≠ CtxNull ∧ summarized customNodes = Some nodes
       ∧ (buildFlow' conn customNodes body).1
         = sent (generateFlow connector prompt
                   (match bf_context b with CtxObject c => Some c | _ => None end)
                   nodes))
  ∧ (∀ b, body = Some b →
       bf_prompt b = FAbsent ∨ (∃ t, bf_prompt b = FText t ∧ Parse.trim t = []) →
       buildFlow' conn customNodes body
       = (Failed 400 (txt "Prompt is required"), [])).
Proof.
  split.
  - split.
    + unfold buildFlow. destruct body as [b|]; [|by intros ?%elem_of_nil].
      destruct (bf_prompt b) as [|prompt|[]] eqn:Hp; try by intros ?%elem_of_nil.
      destruct (bool_decide (prompt = []) || bool_decide (Parse.trim prompt = []))
        eqn:Hblank; [by intros ?%elem_of_nil|].
      apply orb_false_iff in Hblank as [_ Ht%bool_decide_eq_false].
      destruct conn as [connector|]; [|by intros ?%elem_of_nil].
      destruct (valid (validateConfig connector (getConfig connector))) eqn:Hv;
        cbn [negb].
      2:{ intros Hin. repeat (apply elem_of_cons in Hin as [?|Hin]; [done|]).
          by apply elem_of_nil in Hin. }
      destruct (summarized customNodes) as [nodes|] eqn:Hs.
      * destruct (bf_context b) eqn:Hc.
        -- intros _. exists b, prompt, connector, nodes. by rewrite Hc.
        -- intros Hin. repeat (apply elem_of_cons in Hin as [?|Hin]; [done|]).
           by apply elem_of_nil in Hin.
        -- intros _. exists b, prompt, connector, nodes. by rewrite Hc.
      * destruct (bf_context b); intros Hin;
          repeat (apply elem_of_cons in Hin as [?|Hin]; [done|]);
          by apply elem_of_nil in Hin.
    + intros (b & prompt & connector & nodes & -> & Hp & Ht & -> & Hv & Hc & Hs & _).
      rewrite (buildFlow_usable connector customNodes b prompt nodes) by done.
      cbn. set_solver.
  - intros b -> [Hp|(t & Hp & Ht)]; unfold buildFlow; rewrite Hp; [done|].
    by rewrite (bool_decide_eq_true_2 (Parse.trim t = [])), orb_true_r.
Qed.


(** A resync request the handler accepts. *)
Lemma resync_usable (connector : @connector C R) customNodes b info
    currentConfig nodes :
  truthyField (rs_nodeId b) = true →
  rs_info b = FText info → Parse.trim info ≠ [] →
  valid (validateConfig connector (getConfig connector)) = true →
  rs_currentConfig b = Some currentConfig →
  summarized customNodes = Some nodes →
  resync' (Some connector) customNodes (Some b)
  = (sent (resyncNode connector (rs_nodeId b) (rs_nodeType b) info
             currentConfig nodes (rs_nodeName b)),
     [GetConfig; ValidateConfig; ResyncNode]).
Proof.
  intros Hid Hi Ht Hv Hc Hs. unfold resyncNodeEndpoint. rewrite Hid, Hi.
  assert (info ≠ []) as Hne by (intros ->; by apply Ht).
  cbn [truthyField]. rewrite !bool_decide_eq_false_2 by done. cbn [negb orb].
  by rewrite Hv, Hc, Hs.
Qed.

Lemma not_in_two (c x y : call) : c ≠ x → c ≠ y → c ∉ [x; y].
Proof.
  intros H1 H2 Hin. apply elem_of_cons in Hin as [?|Hin]; [done|].
  apply elem_of_cons in Hin as [?|Hin]; [done|]. by apply elem_of_nil in Hin.
Qed.

(** The two node endpoints call the provider only for a usable request.
    [/ai/resync-node]: a truthy node id, an info that is a string and not
    blank, a loaded connector whose configuration validates, a current
    configuration that is present and stored custom nodes that all have a
    schema.  [/ai/generate-description]: a truthy node id, a truthy
    current configuration and a loaded connector whose configuration
    validates.  A request without node id is answered with status 400 and
    no call on the connector. *)
Theorem node_endpoints_guard (conn : option (@connector C R)) customNodes :
  (∀ body,
     ResyncNode ∈ (resync' conn customNodes body).2 ↔
     ∃ b info connector currentConfig nodes,
       body = Some b ∧ truthyField (rs_nodeId b) = true
       ∧ rs_info b = FText info ∧ Parse.trim info ≠ []
       ∧ conn = Some connector
       ∧ valid (validateConfig connector (getConfig connector)) = true
       ∧ rs_currentConfig b = Some currentConfig
       ∧ summarized customNodes = Some nodes
       ∧ (resync' conn customNodes body).1
         = sent (resyncNode connector (rs_nodeId b) (rs_nodeType b) info
                   currentConfig nodes (rs_nodeName b)))
  ∧ (∀ body,
       GenerateDescription ∈ (describe' conn body).2 ↔
       ∃ b connector currentConfig,
         body = Some b ∧ truthyField (gd_nodeId b) = true
         ∧ gd_currentConfig b = Some currentConfig
         ∧ conn = Some connector
         ∧ valid (validateConfig connector (getConfig connector)) = true
         ∧ (describe' conn body).1
           = sent (generateDescription connector (gd_nodeId b) (gd_nodeType b)
                     currentConfig (gd_nodeName b)))
  ∧ (∀ b, truthyField (rs_nodeId b) = false →
       resync' conn customNodes (Some b)
       = (Failed 400 (txt "Node ID and info are required"), []))
  ∧ (∀ b, truthyField (gd_nodeId b) = false →
       describe' conn (Some b)
       = (Failed 400 (txt "Node ID and config are required"), [])).
Proof.
  split; [|split; [|split]].
  - intros body. split.
    + unfold resyncNodeEndpoint. destruct body as [b|]; [|by intros ?%elem_of_nil].
      destruct (truthyField (rs_nodeId b)) eqn:Hid; cbn [negb orb];
        [|by intros ?%elem_of_nil].
      destruct (truthyField (rs_info b)) eqn:Hinfo; cbn [negb];
        [|by intros ?%elem_of_nil].
      destruct (rs_info b) as [|info|o] eqn:Hi; try by intros ?%elem_of_nil.
      case_bool_decide as Ht; [by intros ?%elem_of_nil|].
      destruct conn as [connector|]; [|by intros ?%elem_of_nil].
      destruct (valid (validateConfig connector (getConfig connector))) eqn:Hv;
        cbn [negb]; [|by intros ?%not_in_two].
      destruct (rs_currentConfig b) as [currentConfig|] eqn:Hc,
               (summarized customNodes) as [nodes|] eqn:Hs;
        try by intros ?%not_in_two.
      intros _. by exists b, info, connector, currentConfig, nodes.
    + intros (b & info & connector & cc & nodes & -> & Hid & Hi & Ht & -> & Hv
              & Hc & Hs & _).
      rewrite (resync_usable connector customNodes b info cc nodes) by done.
      cbn. set_solver.
  - intros body. split.
    + unfold generateDescriptionEndpoint.
      destruct body as [b|]; [|by intros ?%elem_of_nil].
      destruct (truthyField (gd_nodeId b)) eqn:Hid; [|by intros ?%elem_of_nil].
      destruct (gd_currentConfig b) as [cc|] eqn:Hc; [|by intros ?%elem_of_nil].
      destruct conn as [connector|]; [|by intros ?%elem_of_nil].
      destruct (valid (validateConfig connector (getConfig connector))) eqn:Hv;
        cbn [negb]; [|by intros ?%not_in_two].
      intros _. by exists b, connector, cc.
    + intros (b & connector & cc & -> & Hid & Hc & -> & Hv & _).
      unfold generateDescriptionEndpoint. rewrite Hid, Hc, Hv. cbn. set_solver.
  - intros b Hid. unfold resyncNodeEndpoint. by rewrite Hid.
  - intros b Hid. unfold generateDescriptionEndpoint. by rewrite Hid.
Qed.

(** A connector that validates as one of the four provider connectors
    does, and whose configuration lacks a required field: every endpoint
    answers an acceptable request with status 500 and the message "AI not
    configured: Missing required fields: ..." in which each missing field
    is named, after reading and validating the configuration and without
    calling the provider. *)
Theorem endpoints_report_missing_configuration (c : Validate.connector)
    (connector : @connector C R) customNodes f :
  validateConfig connector = Validate.validateConfig c →
  f ∈ required c → truthy (getConfig connector !! f) = false →
  ∃ message,
    (∀ g, g ∈ required c → truthy (getConfig connector !! g) = false →
          occurs_in (txt g) message)
    ∧ occurs_in (txt "Missing required fields: ") message
    ∧ (∀ b prompt, bf_prompt b = FText prompt → Parse.trim prompt ≠ [] →
         buildFlow' (Some connector) customNodes (Some b)
         = (Failed 500 (txt "AI not configured: " ++ message),
            [GetConfig; ValidateConfig]))
    ∧ (∀ b info, truthyField (rs_nodeId b) = true →
         rs_info b = FText info → Parse.trim info ≠ [] →
         resync' (Some connector) customNodes (Some b)
         = (Failed 500 (txt "AI not configured: " ++ message),
            [GetConfig; ValidateConfig]))
    ∧ (∀ b currentConfig, truthyField (gd_nodeId b) = true →
         gd_currentConfig b = Some currentConfig →
         describe' (Some connector) (Some b)
         = (Failed 500 (txt "AI not configured: " ++ message),
            [GetConfig; ValidateConfig])).
Proof.
  intros Hval Hf Hmiss.
  destruct (validateConfig_invalid c (getConfig connector) f Hf Hmiss)
    as (msg & E & Hall).
  exists msg. split; [exact Hall|]. split.
  { assert (∃ rest, msg = txt "Missing required fields: " ++ rest) as [rest ->].
    { revert E. unfold Validate.validateConfig.
      destruct (0 <? _); [|done]. intros E. injection E as E.
      eexists. symmetry. exact E. }
    by exists [], rest. }
  split; [|split].
  - intros b prompt Hp Ht. unfold buildFlow. rewrite Hp.
    assert (prompt ≠ []) as Hne by (intros ->; by apply Ht).
    rewrite !bool_decide_eq_false_2 by done. cbn [orb].
    by rewrite Hval, E.
  - intros b info Hid Hi Ht. unfold resyncNodeEndpoint. rewrite Hid, Hi.
    assert (info ≠ []) as Hne by (intros ->; by apply Ht).
    cbn [truthyField]. rewrite !bool_decide_eq_false_2 by done. cbn [negb orb].
    by rewrite Hval, E.
  - intros b cc Hid Hc. unfold generateDescriptionEndpoint.
    by rewrite Hid, Hc, Hval, E.
Qed.

(** The custom-nodes endpoint stores what it is sent without looking at
    the schemas.  Once a posted custom node has no schema, [summarized]
    throws on the stored list, and every build-flow and resync request
    that would otherwise reach the provider is answered with status 500
    instead; the provider is not called. *)
Theorem custom_node_without_schema (connector : @connector C R) net posted
    cache old n :
  n ∈ posted → pn_schema n = None →
  valid (validateConfig connector (getConfig connector)) = true →
  let customNodes :=
    st_customNodes (customNodesEndpoint net (Some posted) cache old) in
  st_reply (customNodesEndpoint net (Some posted) cache old) = Passed tt
  ∧ summarized customNodes = None
  ∧ (∀ b prompt, bf_prompt b = FText prompt → Parse.trim prompt ≠ [] →
       ∃ s, buildFlow' (Some connector) customNodes (Some b)
            = (caught (typeErrorMessage s), [GetConfig; ValidateConfig]))
  ∧ (∀ b info, truthyField (rs_nodeId b) = true →
       rs_info b = FText info → Parse.trim info ≠ [] →
       ∃ s, resync' (Some connector) customNodes (Some b)
            = (caught (typeErrorMessage s), [GetConfig; ValidateConfig])).
Proof.
  intros Hn Hs Hv customNodes. split; [done|].
  assert (summarized customNodes = None) as Hsum.
  { apply summarized_None.
    exists {| cn_name := pn_name n; cn_schema := pn_schema n;
              cn_description :=
                (PackageInfo.packageInfo net (pn_packageName n) cache).1.1 |}.
    split; [|done]. unfold customNodes. cbn.
    apply list_elem_of_fmap. by exists n. }
  split; [done|]. split.
  - intros b prompt Hp Ht. unfold buildFlow. rewrite Hp.
    assert (prompt ≠ []) as Hne by (intros ->; by apply Ht).
    rewrite !bool_decide_eq_false_2 by done. cbn [orb].
    rewrite Hv, Hsum. cbn [negb]. destruct (bf_context b); by eexists.
  - intros b info Hid Hi Ht. unfold resyncNodeEndpoint. rewrite Hid, Hi.
    assert (info ≠ []) as Hne by (intros ->; by apply Ht).
    cbn [truthyField]. rewrite !bool_decide_eq_false_2 by done. cbn [negb orb].
    rewrite Hv, Hsum. cbn [negb]. destruct (rs_currentConfig b); by eexists.
Qed.

End EndpointFacts.

Lemma build_flow_guard_witness :
  Endpoints.buildFlow Endpoints.sampleMessages
    (Some (Endpoints.echoConnector Endpoints.azureConfig)) []
    (Some {| Endpoints.bf_prompt := Endpoints.FText (txt "   ");
             Endpoints.bf_context := Endpoints.CtxDefault |})
  = (Endpoints.Failed 400 (txt "Prompt is required"), []).
Proof.
  apply (proj2 (build_flow_guard Endpoints.sampleMessages
                  (Some (Endpoints.echoConnector Endpoints.azureConfig)) []
                  (Some {| Endpoints.bf_prompt := Endpoints.FText (txt "   ");
                           Endpoints.bf_context := Endpoints.CtxDefault |}))
           _ eq_refl).
  right. exists (txt "   "). split; reflexivity.
Defined.

Lemma node_endpoints_guard_witness :
  Endpoints.resyncNodeEndpoint Endpoints.sampleMessages
    (Some (Endpoints.echoConnector Endpoints.azureConfig)) []
    (Some {| Endpoints.rs_nodeId := Endpoints.FAbsent;
             Endpoints.rs_nodeType := Endpoints.FText (txt "function");
             Endpoints.rs_nodeName := Endpoints.FAbsent;
             Endpoints.rs_info := Endpoints.FText (txt "Sum the values");
             Endpoints.rs_currentConfig := Some tt |})
  = (Endpoints.Failed 400 (txt "Node ID and info are required"), []).
Proof.
  apply (proj1 (proj2 (proj2 (node_endpoints_guard Endpoints.sampleMessages
                  (Some (Endpoints.echoConnector Endpoints.azureConfig)) [])))).
  reflexivity.
Defined.

Lemma endpoints_report_missing_configuration_witness :
  ∃ message,
    (∀ g, g ∈ Validate.required Validate.AzureOpenAI →
          Validate.truthy
            (Endpoints.getConfig
               (Endpoints.echoConnector
                  (<["apiKey" := Validate.CStr (txt "key")]> ∅)) !! g) = false →
          occurs_in (txt g) message)
    ∧ occurs_in (txt "Missing required fields: ") message
    ∧ Endpoints.buildFlow Endpoints.sampleMessages
        (Some (Endpoints.echoConnector
                 (<["apiKey" := Validate.CStr (txt "key")]> ∅))) []
        (Some {| Endpoints.bf_prompt := Endpoints.FText (txt "Create a flow");
                 Endpoints.bf_context := Endpoints.CtxDefault |})
      = (Endpoints.Failed 500 (txt "AI not configured: " ++ message),
         [Endpoints.GetConfig; Endpoints.ValidateConfig]).
Proof.
  destruct (endpoints_report_missing_configuration Endpoints.sampleMessages
              Validate.AzureOpenAI
              (Endpoints.echoConnector
                 (<["apiKey" := Validate.CStr (txt "key")]> ∅))
              [] "endpoint" eq_refl)
    as (message & H1 & H2 & H3 & _).
  - left.
  - reflexivity.
  - exists message. split; [exact H1|]. split; [exact H2|].
    apply (H3 _ (txt "Create a flow")); [reflexivity|by vm_compute].
Defined.

Lemma custom_node_without_schema_witness :
  Endpoints.summarized
    (Endpoints.st_customNodes
       (Endpoints.customNodesEndpoint PackageInfo.sampleNetwork
          (Some [{| Endpoints.pn_name := txt "custom";
                    Endpoints.pn_schema := None;
                    Endpoints.pn_packageName := "mirror-only" |}])
          ∅ []))
  = None.
Proof.
  apply (custom_node_without_schema Endpoints.sampleMessages
           (Endpoints.echoConnector Endpoints.azureConfig)
           PackageInfo.sampleNetwork
           [{| Endpoints.pn_name := txt "custom"; Endpoints.pn_schema := None;
               Endpoints.pn_packageName := "mirror-only" |}]
           ∅ []
           {| Endpoints.pn_name := txt "custom"; Endpoints.pn_schema := None;
              Endpoints.pn_packageName := "mirror-only" |}).
  - left.
  - reflexivity.
  - by vm_compute.
Defined.

Example endpoints_samples :
  Endpoints.buildFlow Endpoints.sampleMessages
    (Some (Endpoints.echoConnector Endpoints.azureConfig)) []
    (Some {| Endpoints.bf_prompt := Endpoints.FText (txt "Create a flow");
             Endpoints.bf_context := Endpoints.CtxDefault |})
  = (Endpoints.Passed (txt "Create a flow"),
     [Endpoints.GetConfig; Endpoints.ValidateConfig; Endpoints.GenerateFlow])
  ∧ Endpoints.buildFlow Endpoints.sampleMessages
      (Some (Endpoints.echoConnector (<["apiKey" := Validate.CStr (txt "key")]> ∅)))
      []
      (Some {| Endpoints.bf_prompt := Endpoints.FText (txt "Create a flow");
               Endpoints.bf_context := Endpoints.CtxDefault |})
    = (Endpoints.Failed 500
         (txt "AI not configured: Missing required fields: endpoint, deploymentName"),
       [Endpoints.GetConfig; Endpoints.ValidateConfig]).
Proof. by vm_compute. Qed.

Section CustomNodesFacts.
Import PackageInfo Endpoints.

Local Abbreviation asks name :=
  (fun log : list fetch => length (filter (fun f => f = FetchRegistry name) log)).

Lemma asks_miss net name other (cache : gmap string text) :
  default [] (cache !! other) = [] →
  asks name (packageInfo net other cache).2
  = if decide (other = name) then 1%nat else 0%nat.
Proof.
  intros Hmiss. rewrite (packageInfo_miss net other cache Hmiss). cbn [snd].
  destruct (registry net other); case_decide as E; subst.
  - by rewrite filter_cons_True.
  - rewrite filter_cons_False; [done|]. by intros [= ->].
  - rewrite filter_cons_True by done. by rewrite filter_cons_False.
  - rewrite filter_cons_False by (by intros [= ->]).
    by rewrite filter_cons_False.
Qed.

(** The custom-nodes endpoint looks up one description per posted node.
    For a package whose description the cache does not hold, every node
    of that package causes a registry request of its own: the lookups
    are started together and nothing is shared between them.  For a
    package with a non-empty cached description no request is made and
    its nodes get that description.  A body without an array of nodes is
    answered with status 400 and leaves the stored nodes as they
    were. *)
Theorem custom_nodes_lookups net (posted : list postedNode)
    (cache : gmap string text) (old : list customNode) (name : string) :
  let done := customNodesEndpoint net (Some posted) cache old in
  (default [] (cache !! name) = [] →
     asks name (st_requests done)
     = length (filter (fun n => pn_packageName n = name) posted))
  ∧ (∀ d, cache !! name = Some d → d ≠ [] →
       asks name (st_requests done) = 0%nat
       ∧ (FetchUnpkg name ∉ st_requests done)
       ∧ st_cache done !! name = Some d
       ∧ ∀ n, n ∈ posted → pn_packageName n = name →
           {| cn_name := pn_name n; cn_schema := pn_schema n;
              cn_description := d |} ∈ st_customNodes done)
  ∧ length (st_customNodes done) = length posted
  ∧ customNodesEndpoint net None cache old
    = {| st_reply := Failed 400 (txt "nodes must be an array");
         st_cache := cache; st_customNodes := old; st_requests := [] |}.
Proof.
  intros result. subst result. cbn [customNodesEndpoint st_requests st_cache
                                     st_customNodes].
  split; [|split; [|split; [|done]]].
  - intros Hmiss. induction posted as [|n ns IH]; [done|].
    cbn [fmap list_fmap concat]. rewrite filter_app, length_app, IH.
    destruct (decide (pn_packageName n = name)) as [E|E].
    + rewrite (filter_cons_True _ n ns) by done.
      rewrite E, (asks_miss net name name cache Hmiss).
      by rewrite decide_True.
    + rewrite (filter_cons_False _ n ns) by done.
      destruct (packageInfo_cases (pn_packageName n) cache) as [(d & Hc & Hd)|Hm].
      * by rewrite (packageInfo_hit net _ cache d Hc Hd).
      * rewrite (asks_miss net name _ cache Hm). by rewrite decide_False.
  - intros d Hc Hd. split; [|split; [|split]].
    + induction posted as [|n ns IH]; [done|].
      cbn [fmap list_fmap concat]. rewrite filter_app, length_app, IH.
      destruct (packageInfo_cases (pn_packageName n) cache) as [(d' & Hc' & Hd')|Hm].
      * by rewrite (packageInfo_hit net _ cache d' Hc' Hd').
      * rewrite (asks_miss net name _ cache Hm).
        rewrite decide_False; [done|]. intros E. rewrite E, Hc in Hm. done.
    + intros Hin. apply list_elem_of_In, in_concat in Hin as (log & Hlog & Hin).
      apply list_elem_of_In, list_elem_of_fmap in Hlog as (n & -> & Hn).
      apply list_elem_of_In in Hin.
      destruct (packageInfo_cases (pn_packageName n) cache) as [(d' & Hc' & Hd')|Hm].
      * rewrite (packageInfo_hit net _ cache d' Hc' Hd') in Hin.
        by apply elem_of_nil in Hin.
      * rewrite (packageInfo_miss net _ cache Hm) in Hin. cbn in Hin.
        assert (pn_packageName n = name) as E.
        { destruct (registry net (pn_packageName n));
            repeat (apply elem_of_cons in Hin as [Hin|Hin]; [congruence|]);
            by apply elem_of_nil in Hin. }
        rewrite E, Hc in Hm. done.
    + induction posted as [|n ns IH] using rev_ind; [done|].
      rewrite foldl_app. cbn [foldl].
      destruct (truthyText _) eqn:Et; [done|].
      rewrite lookup_insert_ne; [done|].
      intros E. rewrite E, Hc in Et. cbn in Et.
      by rewrite (proj2 (truthyText_true d) Hd) in Et.
    + intros n Hn E. apply list_elem_of_fmap. exists n. split; [|done].
      f_equal. by rewrite E, (packageInfo_hit net name cache d Hc Hd).
  - by rewrite length_fmap.
Qed.

End CustomNodesFacts.

Lemma custom_nodes_lookups_witness :
  length
    (filter (fun f => f = PackageInfo.FetchRegistry "node-red-contrib-demo")
       (Endpoints.st_requests
          (Endpoints.customNodesEndpoint PackageInfo.sampleNetwork
             (Some (replicate 3
                      {| Endpoints.pn_name := txt "demo";
                         Endpoints.pn_schema := Some ["url"];
                         Endpoints.pn_packageName := "node-red-contrib-demo" |}))
             ∅ [])))
  = length
      (filter (fun n => Endpoints.pn_packageName n = "node-red-contrib-demo")
         (replicate 3
            {| Endpoints.pn_name := txt "demo";
               Endpoints.pn_schema := Some ["url"];
               Endpoints.pn_packageName := "node-red-contrib-demo" |})).
Proof.
  apply (proj1 (custom_nodes_lookups PackageInfo.sampleNetwork
                  (replicate 3
                     {| Endpoints.pn_name := txt "demo";
                        Endpoints.pn_schema := Some ["url"];
                        Endpoints.pn_packageName := "node-red-contrib-demo" |})
                  ∅ [] "node-red-contrib-demo")).
  reflexivity.
Defined.

Example custom_nodes_three_requests :
  Endpoints.st_requests
    (Endpoints.customNodesEndpoint PackageInfo.sampleNetwork
       (Some (replicate 3
                {| Endpoints.pn_name := txt "demo";
                   Endpoints.pn_schema := Some ["url"];
                   Endpoints.pn_packageName := "node-red-contrib-demo" |}))
       ∅ [])
  = replicate 3 (PackageInfo.FetchRegistry "node-red-contrib-demo").
Proof. by vm_compute. Qed.

Section GenerateFacts.
Import Parse Generate.
Variable JSON_parse : text → option Json.value.
Variable nullMessage : text.
Variable isZero : text → bool.

Local Abbreviation generate := (generateFlow JSON_parse nullMessage isZero).

Lemma orMessage_nonempty a b : b ≠ [] → orMessage a b ≠ [].
Proof. intros Hb. unfold orMessage. by case_bool_decide. Qed.

Lemma caughtError_nonempty fallback e : fallback ≠ [] → caughtError fallback e ≠ [].
Proof.
  intros Hf. destruct e as [status m| |m]; cbn.
  - by apply orMessage_nonempty.
  - done.
  - by apply orMessage_nonempty.
Qed.

Lemma parseFlowReply_Parsed content parsed :
  parseFlowReply JSON_parse content = Parsed parsed ↔
  content ≠ [] ∧ JSON_parse (cleanContent content) = Some parsed.
Proof.
  unfold parseFlowReply. destruct content as [|c content].
  - split; [done|]. by intros [? _].
  - destruct (JSON_parse _) as [v|].
    + split; [by intros [= ->]|]. by intros [_ [= ->]].
    + split; [done|]. by intros [_ ?].
Qed.

Lemma null_or_not (v : Json.value) : v = Json.Null ∨ v ≠ Json.Null.
Proof. destruct v; auto. Qed.

Lemma parseFlowReply_failure_nonempty content error :
  parseFlowReply JSON_parse content = Failure error → error ≠ [].
Proof.
  unfold parseFlowReply. destruct content as [|c content]; [by intros [= <-]|].
  destruct (JSON_parse _); [done|]. by intros [= <-].
Qed.

Lemma generateFlow_parsed content parsed :
  content ≠ [] → JSON_parse (cleanContent content) = Some parsed →
  parsed ≠ Json.Null →
  generate (Answered (Content content))
  = {| success := true;
       flow := propertyOr isZero (txt "flow") (Json.Array []) parsed;
       flowName :=
         Some (propertyOr isZero (txt "flowName") (Json.String []) parsed);
       error := [] |}.
Proof.
  intros Hne Hp Hn. cbn [generateFlow].
  rewrite (proj2 (parseFlowReply_Parsed content parsed)) by done.
  by destruct parsed.
Qed.

Lemma generateFlow_null content :
  content ≠ [] → JSON_parse (cleanContent content) = Some Json.Null →
  generate (Answered (Content content))
  = {| success := true; flow := Json.Array []; flowName := None;
       error := orMessage nullMessage (txt "Failed to generate flow") |}.
Proof.
  intros Hne Hp. cbn [generateFlow].
  by rewrite (proj2 (parseFlowReply_Parsed content Json.Null)).
Qed.

Lemma parseFlowReply_Failure content err :
  parseFlowReply JSON_parse content = Failure err →
  err ≠ [] ∧ (content = [] ∨ JSON_parse (cleanContent content) = None).
Proof.
  unfold parseFlowReply. destruct content as [|c content].
  - intros [= <-]. split; [done|by left].
  - destruct (JSON_parse _); [done|]. intros [= <-]. split; [done|by right].
Qed.

(** The three kinds of results. *)
Lemma generateFlow_cases (x : exchange) :
  (∃ err, err ≠ [] ∧ generate x = failed err
          ∧ ∀ content, x = Answered (Content content) →
              content = [] ∨ JSON_parse (cleanContent content) = None)
  ∨ (∃ content, x = Answered (Content content) ∧ content ≠ []
                ∧ JSON_parse (cleanContent content) = Some Json.Null)
  ∨ (∃ content parsed, x = Answered (Content content) ∧ content ≠ []
                       ∧ JSON_parse (cleanContent content) = Some parsed
                       ∧ parsed ≠ Json.Null).
Proof.
  assert (txt "Failed to generate flow" ≠ []) as Hfb by done.
  destruct x as [e|[m| |content]].
  - left. eexists. split; [|split; [reflexivity|done]].
    by apply caughtError_nonempty.
  - left. eexists. split; [|split; [reflexivity|done]].
    by apply caughtError_nonempty.
  - left. exists (txt "No content in response"). by repeat split.
  - destruct (parseFlowReply JSON_parse content) as [parsed|err] eqn:E.
    + apply parseFlowReply_Parsed in E as [Hne Hp]. right.
      destruct (null_or_not parsed) as [->|Hn].
      * left. by exists content.
      * right. by exists content, parsed.
    + left. exists err. destruct (parseFlowReply_Failure content err E) as [He Hc].
      split; [done|]. split; [cbn [generateFlow]; by rewrite E|].
      by intros c [= <-].
Qed.

(** What a caller of [generateFlow] can rely on.  A result that does not
    say success carries a non-empty error and an empty flow, so a result
    without error says success.  A result says success and carries an
    error in one case only: the provider's reply, unwrapped, parses to
    [null].  For any other reply that parses, the flow is the value under
    the key [flow] when that is truthy and the empty list otherwise. *)
Theorem generateFlow_result (x : exchange) :
  (success (generate x) = false →
     error (generate x) ≠ [] ∧ flow (generate x) = Json.Array [])
  ∧ (error (generate x) = [] → success (generate x) = true)
  ∧ (success (generate x) = true ∧ error (generate x) ≠ [] ↔
       ∃ content, x = Answered (Content content) ∧ content ≠ []
                  ∧ JSON_parse (cleanContent content) = Some Json.Null)
  ∧ (∀ content parsed,
       x = Answered (Content content) → content ≠ [] →
       JSON_parse (cleanContent content) = Some parsed → parsed ≠ Json.Null →
       generate x
       = {| success := true;
            flow := propertyOr isZero (txt "flow") (Json.Array []) parsed;
            flowName :=
              Some (propertyOr isZero (txt "flowName") (Json.String []) parsed);
            error := [] |}).
Proof.
  assert (txt "Failed to generate flow" ≠ []) as Hfb by done.
  split; [|split; [|split]].
  4:{ intros content parsed -> Hne Hp Hn. by apply generateFlow_parsed. }
  all: destruct (generateFlow_cases x)
         as [(err & Herr & -> & Hx)
            |[(content & -> & Hne & Hp)|(content & parsed & -> & Hne & Hp & Hn)]].
  all: rewrite ?(generateFlow_null content Hne Hp),
               ?(generateFlow_parsed content parsed Hne Hp Hn); cbn.
  - done.
  - done.
  - done.
  - done.
  - intros H. exfalso. by apply (orMessage_nonempty nullMessage _ Hfb).
  - done.
  - split; [by intros [? _]|]. intros (c & Hc & Hne & Hp).
    destruct (Hx c Hc) as [?|Hnone]; [done|]. by rewrite Hp in Hnone.
  - split; [|by split; [|apply orMessage_nonempty]].
    intros _. by exists content.
  - split; [by intros [_ ?]|]. intros (c & [= <-] & _ & Hc). congruence.
Qed.

End GenerateFacts.

Lemma generateFlow_result_witness :
  Generate.generateFlow Json.parse (txt "Cannot read properties of null")
    Generate.isZeroLiteral
    (Generate.Answered (Generate.Content Parse.helloLogger))
  = {| Generate.success := true;
       Generate.flow :=
         Generate.propertyOr Generate.isZeroLiteral (txt "flow") (Json.Array [])
           (Json.Object
              [(txt "flow",
                Json.Array [Json.Object [(txt "id", Json.String (txt "n1"));
                                         (txt "type", Json.String (txt "debug"))]]);
               (txt "flowName", Json.String (txt "Hello Logger"))]);
       Generate.flowName :=
         Some (Generate.propertyOr Generate.isZeroLiteral (txt "flowName")
                 (Json.String [])
                 (Json.Object
                    [(txt "flow",
                      Json.Array [Json.Object [(txt "id", Json.String (txt "n1"));
                                               (txt "type", Json.String (txt "debug"))]]);
                     (txt "flowName", Json.String (txt "Hello Logger"))]));
       Generate.error := [] |}.
Proof.
  apply (proj2 (proj2 (proj2 (generateFlow_result Json.parse
                  (txt "Cannot read properties of null") Generate.isZeroLiteral
                  (Generate.Answered (Generate.Content Parse.helloLogger)))))
           Parse.helloLogger).
  - reflexivity.
  - discriminate.
  - by vm_compute.
  - discriminate.
Defined.

Example generateFlow_samples :
  Generate.generateFlow Json.parse (txt "Cannot read properties of null")
    Generate.isZeroLiteral
    (Generate.Answered (Generate.Content (txt "null")))
  = {| Generate.success := true; Generate.flow := Json.Array [];
       Generate.flowName := None;
       Generate.error := txt "Cannot read properties of null" |}
  ∧ Generate.generateFlow Json.parse [] Generate.isZeroLiteral
      (Generate.Rejected (Generate.WithResponse 401 []))
    = {| Generate.success := false; Generate.flow := Json.Array [];
         Generate.flowName := None;
         Generate.error := txt "HTTP 401" |}
  ∧ Generate.flow
      (Generate.generateFlow Json.parse [] Generate.isZeroLiteral
         (Generate.Answered (Generate.Content (Json.jsonText "{'flow': 0}"))))
    = Json.Array [].
Proof. by vm_compute. Qed.

Section SidebarFacts.
Import Sidebar.

Lemma matchesWord_spec word s :
  matchesWord word s = true ↔
  ∃ w post, s = w ++ post ∧ sameWord w word.
Proof.
  revert s. induction word as [|a word IH]; intros s.
  - split; [|done]. intros _. by exists [], s.
  - destruct s as [|c s]; cbn [matchesWord].
    + split; [done|]. intros ([|??] & post & ? & Hw); discriminate.
    + rewrite andb_true_iff, bool_decide_eq_true, IH. split.
      * intros (Hc & w & post & -> & Hw). exists (c :: w), post.
        split; [done|]. unfold sameWord in *. cbn. by rewrite Hw, Hc.
      * intros ([|c' w] & post & E & Hw); [discriminate|].
        injection E as <- ->. unfold sameWord in Hw. cbn in Hw.
        injection Hw as Hc Hw. split; [done|]. by exists w, post.
Qed.

Lemma sameWord_length w word : sameWord w word → length w = length word.
Proof. intros H. by rewrite <- (length_fmap canonical w), H, length_fmap. Qed.

Lemma matchAt_spec words prev s :
  matchAt words prev s = true ↔
  ∃ w post word, s = w ++ post ∧ word ∈ words ∧ sameWord w word
                 ∧ boundary prev (head (w ++ post)) = true
                 ∧ boundary (last w) (head post) = true.
Proof.
  unfold matchAt. rewrite andb_true_iff, existsb_exists. split.
  - intros (Hb & word & Hin & [Hm Hb2]%andb_true_iff).
    apply matchesWord_spec in Hm as (w & post & -> & Hw).
    exists w, post, word. rewrite <- (sameWord_length _ _ Hw) in Hb2.
    rewrite take_app_length, drop_app_length in Hb2.
    by rewrite <- list_elem_of_In in Hin.
  - intros (w & post & word & -> & Hin & Hw & Hb & Hb2). split; [done|].
    exists word. rewrite <- list_elem_of_In. split; [done|].
    rewrite andb_true_iff. split.
    + apply matchesWord_spec. by exists w, post.
    + rewrite <- (sameWord_length _ _ Hw).
      by rewrite take_app_length, drop_app_length.
Qed.

Lemma before_cons prev c pre : before prev (c :: pre) = before (Some c) pre.
Proof.
  unfold before. destruct pre as [|d pre]; [done|].
  change (last (c :: d :: pre)) with (last (d :: pre)).
  destruct (last (d :: pre)) eqn:E; [done|].
  by apply last_None in E.
Qed.

Lemma testFrom_spec words prev s :
  testFrom words prev s = true ↔
  ∃ pre w post word, s = pre ++ w ++ post ∧ word ∈ words ∧ sameWord w word
                     ∧ boundary (before prev pre) (head (w ++ post)) = true
                     ∧ boundary (last w) (head post) = true.
Proof.
  revert prev. induction s as [|c s IH]; intros prev; cbn [testFrom].
  - rewrite orb_false_r, matchAt_spec. split.
    + intros (w & post & word & E & H). by exists [], w, post, word.
    + intros (pre & w & post & word & E & H).
      destruct pre; [|discriminate]. by exists w, post, word.
  - rewrite orb_true_iff, matchAt_spec, IH. split.
    + intros [(w & post & word & E & H)|(pre & w & post & word & E & Hin & Hw & Hb & Hb2)].
      * by exists [], w, post, word.
      * exists (c :: pre), w, post, word. rewrite before_cons.
        split; [by rewrite E|done].
    + intros (pre & w & post & word & E & Hin & Hw & Hb & Hb2).
      destruct pre as [|c' pre].
      * left. by exists w, post, word.
      * right. injection E as -> E. rewrite before_cons in Hb.
        by exists pre, w, post, word.
Qed.

Lemma isWordChar_canonical c :
  Placeholders.isWordChar (canonical c) = Placeholders.isWordChar c.
Proof. by destruct c as [[] [] [] [] [] [] [] []]. Qed.

Lemma sameWord_isWord w word :
  sameWord w word →
  isWord (head w) = isWord (head word) ∧ isWord (last w) = isWord (last word).
Proof.
  intros Hw. unfold sameWord in Hw. split.
  - destruct w as [|c w], word as [|d word]; try done. cbn in *.
    injection Hw as Hc _.
    by rewrite <- (isWordChar_canonical c), Hc, isWordChar_canonical.
  - assert (last (canonical <$> w) = last (canonical <$> word)) as Hl
      by by rewrite Hw.
    rewrite !fmap_last in Hl.
    destruct (last w) as [c|], (last word) as [d|]; try done. cbn in *.
    injection Hl as Hc.
    by rewrite <- (isWordChar_canonical c), Hc, isWordChar_canonical.
Qed.

(** Intent detection.  The test for a list of words succeeds exactly when
    the prompt holds one of the words, in any mix of upper and lower
    case, with a word boundary on either side.  So a prompt in which an
    update word (add, update, modify, change, append, insert) stands
    between characters that are not letters, digits or underscores never
    asks for a new tab, whatever else it says. *)
Theorem intent_detection (prompt : text) :
  (∀ words,
     testFrom words None prompt = true ↔
     ∃ pre w post word,
       prompt = pre ++ w ++ post ∧ word ∈ words ∧ sameWord w word
       ∧ boundary (last pre) (head (w ++ post)) = true
       ∧ boundary (last w) (head post) = true)
  ∧ (∀ pre w post word,
       prompt = pre ++ w ++ post → word ∈ updateWords → sameWord w word →
       isWord (last pre) = false → isWord (head post) = false →
       updateIntent prompt = true ∧ shouldCreateNewTab prompt = false)
  ∧ (shouldCreateNewTab prompt = true ↔
       createIntent prompt = true ∧ updateIntent prompt = false).
Proof.
  split; [|split].
  - intros words. rewrite testFrom_spec. unfold before.
    split; intros (pre & w & post & word & H); exists pre, w, post, word;
      by destruct (last pre).
  - intros pre w post word -> Hin Hw Hpre Hpost.
    assert (updateIntent (pre ++ w ++ post) = true) as Hu.
    { apply testFrom_spec. exists pre, w, post, word.
      destruct (sameWord_isWord w word Hw) as [Hh Hl].
      assert (isWord (head word) = true ∧ isWord (last word) = true) as [Hwh Hwl].
      { revert Hin. unfold updateWords.
        repeat (intros [->|Hin]%elem_of_cons; [by vm_compute|revert Hin]).
        by intros ?%elem_of_nil. }
      assert (w ≠ []) as Hne.
      { intros ->. rewrite Hwh in Hh. done. }
      split; [done|]. split; [done|]. split; [done|]. split.
      - unfold boundary, before. destruct w as [|c w]; [done|].
        cbn [app head]. cbn [head] in Hh. rewrite Hh, Hwh.
        destruct (last pre); cbn in *; by rewrite ?Hpre.
      - unfold boundary. by rewrite Hl, Hwl, Hpost. }
    split; [done|]. unfold shouldCreateNewTab. by rewrite Hu, andb_false_r.
  - unfold shouldCreateNewTab. rewrite andb_true_iff, negb_true_iff. done.
Qed.

Lemma intent_detection_witness :
  updateIntent (txt "Create a report, then ADD a ticket") = true
  ∧ shouldCreateNewTab (txt "Create a report, then ADD a ticket") = false.
Proof.
  apply (proj1 (proj2 (intent_detection (txt "Create a report, then ADD a ticket")))
           (txt "Create a report, then ") (txt "ADD") (txt " a ticket") (txt "add")).
  - reflexivity.
  - left.
  - reflexivity.
  - reflexivity.
  - reflexivity.
Defined.

Example intent_samples :
  shouldCreateNewTab (txt "Create an app that sends a report") = true
  ∧ shouldCreateNewTab (txt "Address the newest tickets") = false
  ∧ createIntent (txt "renew_all") = false
  ∧ shouldCreateNewTab (txt "make it, then insert a delay") = false.
Proof. by vm_compute. Qed.

(** The request of the sidebar.  Nothing is sent for a blank input or
    without the HTTP client.  Otherwise the prompt is sent trimmed, and
    with it the nodes of the current tab -- tab and subflow entries left
    out -- exactly when there are such nodes and the prompt does not ask
    for a new tab: a prompt that asks for a new tab never carries the
    current flow to the server. *)
Theorem sidebar_request (input : text) (currentTab : string)
    (currentFlow : list Merge.node) (axios : bool) :
  (submission input currentTab currentFlow axios = None ↔
     Parse.trim input = [] ∨ axios = false)
  ∧ (∀ r, submission input currentTab currentFlow axios = Some r →
       rq_prompt r = Parse.trim input
       ∧ (∀ nodes, rq_context r = Some nodes →
            nodes ≠ [] ∧ shouldCreateNewTab (rq_prompt r) = false
            ∧ ∀ n, n ∈ nodes ↔
                n ∈ currentFlow ∧ Merge.z n = currentTab
                ∧ Merge.type n ≠ "tab" ∧ Merge.type n ≠ "subflow")
       ∧ (shouldCreateNewTab (rq_prompt r) = true → rq_context r = None)
       ∧ (shouldCreateNewTab (rq_prompt r) = false →
          ∀ n, n ∈ currentFlow → Merge.z n = currentTab →
               Merge.type n ≠ "tab" → Merge.type n ≠ "subflow" →
               ∃ nodes, rq_context r = Some nodes ∧ n ∈ nodes)).
Proof.
  unfold submission. split.
  - case_bool_decide as Hb; [by split; [left|]|].
    destruct axios; [|by split; [right|]].
    split; [done|]. by intros [?|?].
  - intros r. case_bool_decide as Hb; [done|]. destruct axios; [|done].
    intros [= <-]. cbn [rq_prompt rq_context]. split; [done|].
    set (tabNodes := filter _ currentFlow).
    destruct (shouldCreateNewTab (Parse.trim input)) eqn:Hc.
    + rewrite andb_false_r. done.
    + rewrite andb_true_r. split; [|split; [done|]].
      * destruct (0 <? length tabNodes)%nat eqn:Hl; [|done].
        intros nodes [= <-]. split.
        -- intros E. rewrite E in Hl. done.
        -- split; [done|]. intros n. unfold tabNodes.
           rewrite list_elem_of_filter. tauto.
      * intros _ n Hn Hz Ht Hs.
        assert (n ∈ tabNodes) as Hin.
        { unfold tabNodes. rewrite list_elem_of_filter. tauto. }
        destruct tabNodes as [|m rest] eqn:E; [by apply elem_of_nil in Hin|].
        by exists (m :: rest).
Qed.

Lemma sidebar_request_witness :
  rq_prompt {| rq_prompt := txt "Create a flow"; rq_context := None |}
  = Parse.trim (txt "  Create a flow ").
Proof.
  apply (proj2 (sidebar_request (txt "  Create a flow ") "tab1" [] true)
           {| rq_prompt := txt "Create a flow"; rq_context := None |}).
  by vm_compute.
Defined.

End SidebarFacts.

Section CleanContentFacts.
Import Parse.

Lemma trimStart_suffix (s : text) : ∃ pre, s = pre ++ trimStart s.
Proof.
  induction s as [|c s [pre IH]]; cbn [trimStart]; [by exists []|].
  destruct (isSpace c); [|by exists []].
  exists (c :: pre). by rewrite IH at 1.
Qed.

Lemma trimStart_head (s : text) c :
  head (trimStart s) = Some c → isSpace c = false.
Proof.
  induction s as [|a s IH]; cbn [trimStart]; [done|].
  destruct (isSpace a) eqn:E; [done|]. by intros [= <-].
Qed.

Lemma trimStart_last (s : text) c :
  last (trimStart s) = Some c → last s = Some c.
Proof.
  destruct (trimStart_suffix s) as [pre E]. intros H. rewrite E.
  destruct (trimStart s) as [|a t] eqn:Et; [done|].
  by rewrite last_app, H.
Qed.

Lemma trim_infix (s : text) : ∃ pre post, s = pre ++ trim s ++ post.
Proof.
  unfold trim. destruct (trimStart_suffix s) as [pre E1].
  destruct (trimStart_suffix (rev (trimStart s))) as [post E2].
  exists pre, (rev post). rewrite E1 at 1. f_equal.
  rewrite <- (rev_involutive (trimStart s)), E2 at 1.
  by rewrite rev_app_distr.
Qed.

Lemma head_rev (s : text) : head (rev s) = last s.
Proof.
  destruct s as [|a s] using rev_ind; [done|].
  by rewrite rev_app_distr, last_snoc.
Qed.

Lemma last_rev (s : text) : last (rev s) = head s.
Proof. by rewrite <- head_rev, rev_involutive. Qed.

Lemma trim_ends (s : text) c :
  head (trim s) = Some c ∨ last (trim s) = Some c → isSpace c = false.
Proof.
  unfold trim. rewrite head_rev, last_rev. intros [H|H].
  - apply trimStart_last in H. rewrite last_rev in H.
    by apply trimStart_head in H.
  - by apply trimStart_head in H.
Qed.

Lemma lazyGroup_infix (captured rest g : text) :
  lazyGroup captured rest = Some g →
  ∃ mid post, rest = mid ++ post ∧ g = captured ++ mid.
Proof.
  revert captured. induction rest as [|c rest IH]; intros captured;
    cbn [lazyGroup].
  - destruct (closing []); [|done]. intros [= <-]. exists [], [].
    split; [done|by rewrite app_nil_r].
  - destruct (closing (c :: rest)).
    + intros [= <-]. exists [], (c :: rest).
      split; [done|by rewrite app_nil_r].
    + intros (mid & post & -> & ->)%IH. exists (c :: mid), post.
      by rewrite <- app_assoc.
Qed.

Lemma lazyGroup_part (rest g : text) :
  lazyGroup [] rest = Some g → ∃ pre post, rest = pre ++ g ++ post.
Proof. intros (mid & post & -> & ->)%lazyGroup_infix. by exists [], post. Qed.

Lemma part_cons (c : ascii) (rest g : text) :
  (∃ pre post, rest = pre ++ g ++ post) →
  ∃ pre post, c :: rest = pre ++ g ++ post.
Proof. intros (pre & post & ->). by exists (c :: pre), post. Qed.

Lemma part_drop n (rest g : text) :
  (∃ pre post, drop n rest = pre ++ g ++ post) →
  ∃ pre post, rest = pre ++ g ++ post.
Proof.
  intros (pre & post & E). exists (take n rest ++ pre), post.
  by rewrite <- app_assoc, <- E, take_drop.
Qed.

Lemma optionalLineFeed_part (rest g : text) :
  optionalLineFeed rest = Some g → ∃ pre post, rest = pre ++ g ++ post.
Proof.
  destruct rest as [|c rest]; cbn [optionalLineFeed];
    [apply lazyGroup_part|].
  destruct (bool_decide (c = LF)); [|apply lazyGroup_part].
  destruct (lazyGroup [] rest) as [g'|] eqn:E; [|apply lazyGroup_part].
  intros [= <-]. by apply part_cons, lazyGroup_part.
Qed.

Lemma blanks_part (rest g : text) :
  blanks rest = Some g → ∃ pre post, rest = pre ++ g ++ post.
Proof.
  induction rest as [|c rest IH]; cbn [blanks]; [apply optionalLineFeed_part|].
  destruct (isSpace c); [|apply optionalLineFeed_part].
  destruct (blanks rest) as [g'|]; [|apply optionalLineFeed_part].
  intros [= <-]. by apply part_cons, IH.
Qed.

Lemma matchHere_part (rest g : text) :
  matchHere rest = Some g → ∃ pre post, rest = pre ++ g ++ post.
Proof.
  unfold matchHere, optionalTag. destruct (starts_with fence rest); [|done].
  intros H. apply (part_drop 3).
  destruct (starts_with (txt "json") (drop 3 rest)); [|by apply blanks_part].
  destruct (blanks (drop 4 (drop 3 rest))) as [g'|] eqn:E;
    [|by apply blanks_part].
  injection H as <-. by apply (part_drop 4), blanks_part.
Qed.

Lemma matchFrom_part (b : bool) (rest g : text) :
  matchFrom b rest = Some g → ∃ pre post, rest = pre ++ g ++ post.
Proof.
  revert b. induction rest as [|c rest IH]; intros b; cbn [matchFrom].
  - destruct b; [|done].
    destruct (matchHere []) as [g'|] eqn:E; [|done].
    intros [= <-]. by apply matchHere_part.
  - destruct (if b then matchHere (c :: rest) else None) as [g'|] eqn:E.
    + intros [= <-]. destruct b; [|done]. by apply matchHere_part.
    + intros H. by apply part_cons, (IH _ H).
Qed.

(** The text handed to [JSON.parse] is cut out of the reply: it is one
    contiguous part of the content, with nothing added, and neither its
    first nor its last character is a blank.  Together with it the parts
    before and after make up the reply again. *)
Theorem cleanContent_is_part_of_reply (content : text) :
  occurs_in (cleanContent content) content
  ∧ (∀ c, head (cleanContent content) = Some c
          ∨ last (cleanContent content) = Some c → isSpace c = false)
  ∧ (length (cleanContent content) ≤ length content)%nat.
Proof.
  assert (∃ pre post, content = pre ++ cleanContent content ++ post) as Hp.
  { unfold cleanContent, codeBlockMatch.
    destruct (trim_infix content) as (pre & post & E).
    destruct (matchFrom true (trim content)) as [g|] eqn:Em;
      [|by exists pre, post].
    apply matchFrom_part in Em as (p1 & q1 & E1).
    destruct (trim_infix g) as (p2 & q2 & E2).
    exists (pre ++ p1 ++ p2), (q2 ++ q1 ++ post).
    rewrite E at 1. rewrite E1. rewrite E2 at 1.
    by rewrite <- !app_assoc. }
  split; [exact Hp|]. split.
  - unfold cleanContent. cbv zeta.
    destruct (codeBlockMatch (trim content)); apply trim_ends.
  - destruct Hp as (pre & post & E). rewrite E at 2.
    rewrite !length_app. lia.
Qed.

End CleanContentFacts.
